(** * TempCorrModel: temperature correction model for deep-grey-matter MRI parameters

    A shallow embedding of [TempCorrModel_03.04.2025_02_Github.py]: the ingestion
    of the per-case measurement files, the merge with the temperature table, the
    per-(metric, region) linear fit with its analytic confidence intervals, and
    the formatting of the summary records.

    Numbers.  The script computes in IEEE doubles.  The embedding keeps the
    three kinds of double that the script itself distinguishes (a finite
    number, an infinity, NaN) and computes on finite numbers exactly, in the
    reals: rounding error and overflow are outside that model, signed zeros
    are identified.  A quotient of finite numbers with divisor zero is an
    infinity, or NaN when the dividend is zero too, as numpy gives it.  Where
    a statement is about the last digits of a double, the same arithmetic is
    written a second time on the binary64 numbers of the kernel (section
    "The regression in double precision"). *)

From Stdlib Require Import Floats.
From Stdlib Require Import String Ascii List Bool ZArith Reals Lra Lia Permutation.
From Stdlib Require Import DecimalString.
Import ListNotations.

Local Open Scope string_scope.
Local Open Scope list_scope.

(** ** Floating-point values *)

Inductive fval : Type :=
| Finite (v : R)
| Infinite (neg : bool)
| NaN.

Definition isnull (a : fval) : bool :=
  match a with NaN => true | _ => false end.

Definition isfinite (a : fval) : bool :=
  match a with Finite _ => true | _ => false end.

Definition Rsign (v : R) : bool := if Rlt_dec v 0 then true else false.

Definition Rzero (v : R) : bool := if Req_dec_T v 0 then true else false.

Definition fneg (a : fval) : fval :=
  match a with
  | Finite v => Finite (- v)
  | Infinite s => Infinite (negb s)
  | NaN => NaN
  end.

Definition fadd (a b : fval) : fval :=
  match a, b with
  | NaN, _ | _, NaN => NaN
  | Finite u, Finite v => Finite (u + v)
  | Infinite s, Finite _ => Infinite s
  | Finite _, Infinite s => Infinite s
  | Infinite s, Infinite s' => if Bool.eqb s s' then Infinite s else NaN
  end.

Definition fsub (a b : fval) : fval := fadd a (fneg b).

Definition fmul (a b : fval) : fval :=
  match a, b with
  | NaN, _ | _, NaN => NaN
  | Finite u, Finite v => Finite (u * v)
  | Infinite s, Finite v | Finite v, Infinite s =>
      if Rzero v then NaN else Infinite (xorb s (Rsign v))
  | Infinite s, Infinite s' => Infinite (xorb s s')
  end.

Definition fdiv (a b : fval) : fval :=
  match a, b with
  | NaN, _ | _, NaN => NaN
  | Finite u, Finite v =>
      if Rzero v then (if Rzero u then NaN else Infinite (Rsign u))
      else Finite (u / v)
  | Finite _, Infinite _ => Finite 0
  | Infinite s, Finite v => Infinite (xorb s (Rsign v))
  | Infinite _, Infinite _ => NaN
  end.

Definition fsqrt (a : fval) : fval :=
  match a with
  | Finite v => if Rsign v then NaN else Finite (sqrt v)
  | Infinite false => Infinite false
  | Infinite true => NaN
  | NaN => NaN
  end.

(** [v ** 2] *)
Definition fsq (a : fval) : fval := fmul a a.

(** A Python [int] used in float arithmetic ([n], [dof]). *)
Definition of_int (z : Z) : fval := Finite (IZR z).

(** [a < b] on doubles: false as soon as one side is NaN. *)
Definition flt (a b : fval) : bool :=
  match a, b with
  | Finite u, Finite v => if Rlt_dec u v then true else false
  | Finite _, Infinite s => negb s
  | Infinite s, Finite _ => s
  | Infinite s, Infinite s' => s && negb s'
  | _, _ => false
  end.

(** [a == b] on doubles: false as soon as one side is NaN. *)
Definition feq (a b : fval) : bool :=
  match a, b with
  | Finite u, Finite v => if Req_dec_T u v then true else false
  | Infinite s, Infinite s' => Bool.eqb s s'
  | _, _ => false
  end.

Definition fval_eq_dec (a b : fval) : {a = b} + {a <> b}.
Proof.
  destruct a as [u|s|], b as [v|s'|]; try (right; discriminate); try (left; reflexivity).
  - destruct (Req_dec_T u v) as [e|n]; [left; now subst | right; intros H; now inversion H].
  - destruct (bool_dec s s') as [e|n]; [left; now subst | right; intros H; now inversion H].
Defined.

(** ** Series: a column of a data frame *)

Definition Series := list fval.

(** The sum of the entries. *)
Definition fsum (s : Series) : fval := fold_right fadd (Finite 0) s.

(** [len(x)] as a Python int. *)
Definition len {A} (l : list A) : Z := Z.of_nat (length l).

Definition notnull (s : Series) : Series := filter (fun a => negb (isnull a)) s.

(** [np.sum] and [np.mean] of a pandas Series are the Series' own [sum] and
    [mean], which leave the nulls out ([skipna=True]). *)
Definition np_sum (s : Series) : fval := fsum (notnull s).

Definition np_mean (s : Series) : fval :=
  fdiv (fsum (notnull s)) (of_int (len (notnull s))).

(** [s.nunique()]: the number of distinct values, nulls not counted. *)
Definition nunique (s : Series) : nat :=
  length (nodup fval_eq_dec (notnull s)).

(** [np.amax] and [np.amin] of an array: a NaN entry makes the result NaN. *)
Definition fmax_nan (m b : fval) : fval :=
  match m, b with
  | NaN, _ | _, NaN => NaN
  | _, _ => if flt m b then b else m
  end.

Definition fmin_nan (m b : fval) : fval :=
  match m, b with
  | NaN, _ | _, NaN => NaN
  | _, _ => if flt b m then b else m
  end.

Definition np_amax (s : Series) : fval :=
  match s with
  | [] => NaN
  | a :: t => fold_left fmax_nan t a
  end.

Definition np_amin (s : Series) : fval :=
  match s with
  | [] => NaN
  | a :: t => fold_left fmin_nan t a
  end.

(** ** Settings (lines 49-74) *)

Definition structure_groups : list (string * list string) :=
  [ ("Basal Ganglia", ["Caudate"; "Putamen"; "Pallidum"]);
    ("Limbic System", ["Hippocampus"; "Amygdala"]);
    ("Relay Centers", ["Thalamus"; "Brainstem"]) ].

Definition metrics : list string := ["FA"; "MD"; "T1"; "T2"; "T2s"].

Definition region_exclude : list string := ["Accumbens"].

(** ** Measurement tables *)

(** One row of a case file after [pd.read_csv] and
    [pd.to_numeric(df['value'], errors='coerce')]: a cell of the value column
    that is blank or does not parse as a number is [NaN].  A cell of a text
    column that pandas reads as a null (a blank cell, or one of its null
    markers) is written here as the empty string, which [read_csv] never
    gives as a value. *)
Record Row : Type := mkRow {
  case : string;
  metric : string;
  region : string;
  value : fval
}.

Definition DataFrame := list Row.

(** [df.empty] *)
Definition empty {A} (df : list A) : bool :=
  match df with [] => true | _ => false end.

Definition key : Type := string * string * string.

Definition row_key (r : Row) : key := (case r, metric r, region r).

Definition key_eqb (a b : key) : bool :=
  let '(c1, m1, r1) := a in
  let '(c2, m2, r2) := b in
  (c1 =? c2) && (m1 =? m2) && (r1 =? r2).

Definition key_eq_dec (a b : key) : {a = b} + {a <> b}.
Proof. repeat decide equality. Defined.

Definition key_compare (a b : key) : comparison :=
  let '(c1, m1, r1) := a in
  let '(c2, m2, r2) := b in
  match String.compare c1 c2 with
  | Eq => match String.compare m1 m2 with
          | Eq => String.compare r1 r2
          | c => c
          end
  | c => c
  end.

Definition key_leb (a b : key) : bool :=
  match key_compare a b with Gt => false | _ => true end.

Fixpoint insert_key (k : key) (l : list key) : list key :=
  match l with
  | [] => [k]
  | h :: t => if key_leb k h then k :: h :: t else h :: insert_key k t
  end.

Fixpoint sort_keys (l : list key) : list key :=
  match l with
  | [] => []
  | h :: t => insert_key h (sort_keys t)
  end.

(** The group of a key: its rows, in file order. *)
Definition group (k : key) (df : DataFrame) : DataFrame :=
  filter (fun r => key_eqb (row_key r) k) df.

(** What [GroupBy.first] takes from a column of one group: the first entry
    that is not null, and null when there is none. *)
Fixpoint first_notnull (s : Series) : fval :=
  match s with
  | [] => NaN
  | a :: t => if isnull a then first_notnull t else a
  end.

(** A key with a blank cell. *)
Definition blank (s : string) : bool :=
  match s with EmptyString => true | _ => false end.

Definition blank_key (k : key) : bool :=
  let '(c, m, r) := k in blank c || blank m || blank r.

(** The group keys, each once, in sorted order ([sort=True]); the rows with
    a blank key cell are in no group ([dropna=True]). *)
Definition group_keys (df : DataFrame) : list key :=
  sort_keys (nodup key_eq_dec
               (filter (fun k => negb (blank_key k)) (map row_key df))).

(** [df.groupby(['case', 'metric', 'region']).first().reset_index()] *)
Definition groupby_first (df : DataFrame) : DataFrame :=
  map (fun k => let '(c, m, r) := k in
                mkRow c m r (first_notnull (map value (group k df))))
      (group_keys df).

(** [df[~df['region'].isin(region_exclude)]] *)
Definition drop_excluded (df : DataFrame) : DataFrame :=
  filter (fun r => negb (existsb (String.eqb (region r)) region_exclude)) df.

(** [df[df['metric'] == m]] and [df[df['metric'] != m]] *)
Definition with_metric (m : string) (df : DataFrame) : DataFrame :=
  filter (fun r => metric r =? m) df.

Definition without_metric (m : string) (df : DataFrame) : DataFrame :=
  filter (fun r => negb (metric r =? m)) df.

(** ** Temperature table *)

(** A row of the spreadsheet.  A temperature cell holds a number or is
    blank ([None]); [pd.read_excel] reads a blank cell as NaN. *)
Record TempRow : Type := mkTemp {
  tcase : string;
  temp_DTI : option R;
  temp_T1 : option R;
  temp_T2 : option R;
  temp_T2s : option R
}.

Definition of_cell (c : option R) : fval :=
  match c with Some v => Finite v | None => NaN end.

Definition temp_map (m : string) : option (TempRow -> option R) :=
  if m =? "FA" then Some temp_DTI
  else if m =? "MD" then Some temp_DTI
  else if m =? "T1" then Some temp_T1
  else if m =? "T2" then Some temp_T2
  else if m =? "T2s" then Some temp_T2s
  else None.

(** ** Ingestion (lines 78-128) *)

(** A case folder: its name and the two files of [00_OUTPUT], [None] when
    [os.path.exists] is false. *)
Record CaseFolder : Type := mkCase {
  case_name : string;
  file_main : option DataFrame;
  file_t1 : option DataFrame
}.

(** A row of a subset once the temperature column is attached. *)
Record Obs : Type := mkObs {
  obs_row : Row;
  temperature : option R
}.

Definition Frame := list Obs.

(** [df_main] when the metric loop starts (lines 93-109). *)
Definition merged_main (main : DataFrame) (t1 : option DataFrame) : DataFrame :=
  let df_t1 := match t1 with Some t => t | None => [] end in
  let df_main := groupby_first (drop_excluded main) in
  if negb (empty df_t1) then
    without_metric "T1" df_main
      ++ groupby_first (with_metric "T1" (drop_excluded df_t1))
  else df_main.

(** [temp_df[temp_df['case'] == case_name]] *)
Definition temp_rows (temp_df : list TempRow) (name : string) : list TempRow :=
  filter (fun t => tcase t =? name) temp_df.

(** [subset['temperature'] = t] *)
Definition with_temperature (t : option R) (subset : DataFrame) : Frame :=
  map (fun r => mkObs r t) subset.

(** One turn of the metric loop (lines 117-123): the frames appended to
    [all_data], none or one. *)
Definition metric_frames (df_main : DataFrame) (temp_row : list TempRow)
    (m : string) : list Frame :=
  let subset := with_metric m df_main in
  match temp_map m with
  | None => []
  | Some temp_col =>
      let temp_value := map temp_col temp_row in
      match temp_value with
      | [] => []
      | t0 :: _ => [with_temperature t0 subset]
      end
  end.

(** One turn of the case loop (lines 84-123). *)
Definition case_frames (temp_df : list TempRow) (f : CaseFolder) : list Frame :=
  match file_main f with
  | None => []
  | Some main =>
      let df_main := merged_main main (file_t1 f) in
      let temp_row := temp_rows temp_df (case_name f) in
      if empty temp_row then []
      else flat_map (metric_frames df_main temp_row) metrics
  end.

(** [all_data] when the case loop ends. *)
Definition all_data (temp_df : list TempRow) (folders : list CaseFolder) : list Frame :=
  flat_map (case_frames temp_df) folders.

(** The rows a case contributes to [data]. *)
Definition case_rows (temp_df : list TempRow) (f : CaseFolder) : Frame :=
  concat (case_frames temp_df f).

(** [data[data['metric'] == m]] *)
Definition obs_with_metric (m : string) (d : Frame) : Frame :=
  filter (fun o => metric (obs_row o) =? m) d.

(** ** SciPy's statistics on finite series

    [scipy.stats] is not part of the repository.  Its two regressions are
    modelled from the library: [pearsonr] by the quotient of the centred
    cross product and the root of the product of the centred squares, which
    is [NaN] on a constant series (the library warns and returns nan);
    [linregress] by the least-squares line through the population
    covariances, after its two checks: it raises [ValueError] on an empty
    series and on a series of two or more identical abscissas.  The p-values
    and the quantile of Student's distribution have no closed form and stay
    parameters. *)

Local Open Scope R_scope.

Fixpoint reals (s : Series) : option (list R) :=
  match s with
  | [] => Some []
  | Finite v :: t => option_map (cons v) (reals t)
  | _ :: _ => None
  end.

Definition Rsum (l : list R) : R := fold_right Rplus 0 l.

Definition Rmean (l : list R) : R := Rsum l / INR (length l).

(** The deviations from the mean. *)
Definition dev (l : list R) : list R := map (fun v => v - Rmean l) l.

(** The centred cross product [sum ((x - mean x) * (y - mean y))]. *)
Definition SS (X Y : list R) : R :=
  Rsum (map (fun p => fst p * snd p) (combine (dev X) (dev Y))).

(** The coefficient [r] of [pearsonr(x, y)]. *)
Definition pearson_r (x y : Series) : fval :=
  match reals x, reals y with
  | Some X, Some Y => fdiv (Finite (SS X Y)) (fsqrt (Finite (SS X X * SS Y Y)))
  | _, _ => NaN
  end.

(** The quotient [r] of [linregress], brought back into [-1, 1]. *)
Definition clip_unit (r : fval) : fval :=
  if flt (Finite 1) r then Finite 1
  else if flt r (Finite (-1)) then Finite (-1)
  else r.

(** [slope], [intercept] and [rvalue] as [linregress(x, y)] computes them
    once its checks have passed; [rvalue] is 0 when one of the two variances
    is. *)
Definition least_squares (x y : Series) : fval * fval * fval :=
  match reals x, reals y with
  | Some X, Some Y =>
      let n := INR (length X) in
      let ssxm := SS X X / n in
      let ssxym := SS X Y / n in
      let ssym := SS Y Y / n in
      let rvalue :=
        if Rzero ssxm || Rzero ssym then Finite 0
        else clip_unit (fdiv (Finite ssxym) (fsqrt (Finite (ssxm * ssym)))) in
      let slope := fdiv (Finite ssxym) (Finite ssxm) in
      let intercept := fsub (Finite (Rmean Y)) (fmul slope (Finite (Rmean X))) in
      (slope, intercept, rvalue)
  | _, _ => (NaN, NaN, NaN)
  end.

(** [linregress(x, y)]: [None] when the library raises [ValueError], on
    an empty input ([x.size == 0 or y.size == 0]) and on identical abscissas
    ([np.amax(x) == np.amin(x) and len(x) > 1]). *)
Definition linregress (x y : Series) : option (fval * fval * fval) :=
  if empty x || empty y then None
  else if feq (np_amax x) (np_amin x) && (1 <? len x)%Z then None
  else Some (least_squares x y).

(** ** Number formatting (lines 132-133)

    [f"{val:.{precision}e}"]: the sign, one digit, the point and [precision]
    digits, the letter e, the sign of the exponent and its digits, two at
    least; the decimal is the value rounded half to even. *)

Definition digit (d : Z) : ascii := ascii_of_nat (48 + Z.to_nat d).

(** The last [k] decimal digits of [m], most significant first. *)
Fixpoint fixed_digits (k : nat) (m : Z) : string :=
  match k with
  | O => EmptyString
  | S k' => (fixed_digits k' (m / 10) ++ String (digit (m mod 10)) EmptyString)%string
  end.

(** The decimal digits of [m >= 0], without leading zeros, ["0"] for zero. *)
Definition decimal (m : Z) : string :=
  NilZero.string_of_uint (N.to_uint (Z.to_N m)).

Definition round_half_even (a : R) : Z :=
  let f := Int_part a in
  let d := a - IZR f in
  if Rlt_dec d (1 / 2) then f
  else if Rlt_dec (1 / 2) d then (f + 1)%Z
  else if Z.even f then f else (f + 1)%Z.

(** The decimal exponent of [a > 0]: the [e] with [10^e <= a < 10^(e+1)]. *)
Definition sci_exponent (a : R) : Z := Int_part (ln a / ln 10).

(** The integer of the [precision + 1] digits and the exponent. *)
Definition sci_parts (a : R) (precision : nat) : Z * Z :=
  if Rzero a then (0%Z, 0%Z)
  else
    let e := sci_exponent a in
    let m := round_half_even (a * powerRZ 10 (Z.of_nat precision - e)) in
    if (10 ^ Z.of_nat (S precision) <=? m)%Z
    then ((10 ^ Z.of_nat precision)%Z, (e + 1)%Z)
    else (m, e).

Definition format_exponent (e : Z) : string :=
  ((if (e <? 0)%Z then "-" else "+")
   ++ (if (Z.abs e <? 10)%Z then "0" else "")
   ++ decimal (Z.abs e))%string.

Definition format_mantissa (m : Z) (precision : nat) : string :=
  (String (digit (m / 10 ^ Z.of_nat precision)) EmptyString
   ++ match precision with
      | O => ""
      | _ => "." ++ fixed_digits precision m
      end)%string.

Definition format_sci (val : fval) (precision : nat) : string :=
  match val with
  | NaN => "nan"
  | Infinite false => "inf"
  | Infinite true => "-inf"
  | Finite v =>
      let '(m, e) := sci_parts (Rabs v) precision in
      ((if Rsign v then "-" else "")
       ++ format_mantissa m precision ++ "e" ++ format_exponent e)%string
  end.

(** ** Statistics (lines 130-185) *)

(** A row of the summary table. *)
Record SummaryRecord : Type := mkSummary {
  DGM_Region : string;
  MRI_Parameter : string;
  Pearson_r : string;
  p_value : string;
  Slope_a : string;
  Intercept_b : string;
  R_square : string
}.

(** [df['temperature']] and [df['value']] *)
Definition temperatures (df : Frame) : Series :=
  map (fun o => of_cell (temperature o)) df.

Definition values (df : Frame) : Series :=
  map (fun o => value (obs_row o)) df.

(** The condition of line 157, negated: the series is fitted. *)
Definition valid_series (x y : Series) : bool :=
  negb (existsb isnull x
        || existsb isnull y
        || negb (forallb isfinite y)
        || (nunique y <? 2)%nat).

(** Arithmetic of two Series, entry by entry, and of a Series and a scalar. *)
Definition series_sub (a b : Series) : Series :=
  map (fun p => fsub (fst p) (snd p)) (combine a b).

(** [slope * x + intercept] *)
Definition fitted_line (slope intercept : fval) (x : Series) : Series :=
  map (fun xi => fadd (fmul slope xi) intercept) x.

(** [np.sum((y - (slope * x + intercept)) ** 2)] *)
Definition residual_ss (x y : Series) (slope intercept : fval) : fval :=
  np_sum (map fsq (series_sub y (fitted_line slope intercept x))).

(** [se_y] (line 168) *)
Definition se_y (x y : Series) (slope intercept : fval) : fval :=
  fsqrt (fdiv (residual_ss x y slope intercept) (of_int (len x - 2))).

(** [s_xx] (line 169) *)
Definition s_xx (x : Series) : fval :=
  np_sum (map (fun xi => fsq (fsub xi (np_mean x))) x).

(** [se_slope] (line 170) *)
Definition se_slope (x y : Series) (slope intercept : fval) : fval :=
  fdiv (se_y x y slope intercept) (fsqrt (s_xx x)).

(** [se_intercept] (line 171) *)
Definition se_intercept (x y : Series) (slope intercept : fval) : fval :=
  fmul (se_y x y slope intercept)
       (fsqrt (fadd (fdiv (Finite 1) (of_int (len x)))
                    (fdiv (fsq (np_mean x)) (s_xx x)))).

(** The files the script writes. *)
Inductive Output : Type :=
| PlotPng (metric0 group_name : string)
| PlotSvg (metric0 group_name : string)
| SummaryCsv (summary : list SummaryRecord)
| LegendPng.

(** How the script ends and what it has written by then: stopped by the
    [ValueError] of line 126, stopped by the [ValueError] that [linregress]
    raises at line 162, or run to its end. *)
Inductive Outcome : Type :=
| Aborted (written : list Output)
| Failed (written : list Output)
| Completed (written : list Output).

(** How the turn of one region ends (lines 149-209): by a [continue], by the
    error of [linregress], or with a record appended to [summary]. *)
Inductive FitOutcome : Type :=
| Skipped
| Raised
| Appended (rec : SummaryRecord).

(** The turns of the two outer loops (lines 143-144), in order. *)
Definition figure_turns : list (string * (string * list string)) :=
  flat_map (fun metric0 => map (fun g => (metric0, g)) structure_groups) metrics.

Section Fit.

(** [scipy.stats.t.ppf(q, df)] *)
Variable t_ppf : R -> Z -> fval.

(** The p-value of [pearsonr(x, y)]. *)
Variable pearson_p : Series -> Series -> fval.

Definition pearsonr (x y : Series) : fval * fval :=
  (pearson_r x y, pearson_p x y).

(** [slope_ci] and [intercept_ci] (lines 165-175). *)
Definition slope_ci (x y : Series) (slope intercept : fval) : fval :=
  fmul (t_ppf 0.975 (len x - 2)) (se_slope x y slope intercept).

Definition intercept_ci (x y : Series) (slope intercept : fval) : fval :=
  fmul (t_ppf 0.975 (len x - 2)) (se_intercept x y slope intercept).

(** The record appended to [summary] (lines 161-185), [linregress] having
    returned. *)
Definition summarise (region metric : string) (x y : Series) : SummaryRecord :=
  let '(r, p) := pearsonr x y in
  let '(slope, intercept, r_val) := least_squares x y in
  let r_squared := fsq r_val in
  {| DGM_Region := region;
     MRI_Parameter := metric;
     Pearson_r := format_sci r 4;
     p_value := format_sci p 2;
     Slope_a := format_sci slope 2 ++ " ± "
                ++ format_sci (slope_ci x y slope intercept) 2;
     Intercept_b := format_sci intercept 2 ++ " ± "
                    ++ format_sci (intercept_ci x y slope intercept) 2;
     R_square := format_sci r_squared 4 |}%string.

(** Lines 151-185 on the frame [df] of one (metric, region).  [pearsonr]
    (line 161) returns on every series that reaches it; [linregress] (line
    162) is the call that can raise. *)
Definition fit_outcome (region0 metric0 : string) (df : Frame) : FitOutcome :=
  if (len df <? 2)%Z then Skipped
  else
    let x := temperatures df in
    let y := values df in
    if valid_series x y then
      match linregress x y with
      | None => Raised
      | Some _ => Appended (summarise region0 metric0 x y)
      end
    else Skipped.

(** The record appended to [summary], if any. *)
Definition fit_frame (region0 metric0 : string) (df : Frame)
  : option SummaryRecord :=
  match fit_outcome region0 metric0 df with
  | Appended rec => Some rec
  | _ => None
  end.

(** [data[(data['metric'] == metric) & (data['region'] == region)]] *)
Definition region_frame (metric0 region0 : string) (data : Frame) : Frame :=
  filter (fun o => (metric (obs_row o) =? metric0)%string
                   && (region (obs_row o) =? region0)%string) data.

(** One turn of the region loop (lines 149-185). *)
Definition fit_region (data : Frame) (metric0 region0 : string)
  : option SummaryRecord :=
  fit_frame region0 metric0 (region_frame metric0 region0 data).

(** The turn of the region is left by the error of [linregress]. *)
Definition raises (data : Frame) (metric0 region0 : string) : bool :=
  match fit_outcome region0 metric0 (region_frame metric0 region0 data) with
  | Raised => true
  | _ => false
  end.

(** The run. *)

(** The records of one (metric, group) figure, in region order. *)
Definition group_records (data : Frame) (metric0 : string) (regions : list string)
  : list SummaryRecord :=
  flat_map (fun region0 =>
              match fit_region data metric0 region0 with
              | Some rec => [rec]
              | None => []
              end) regions.

(** The records of every figure, turn by turn. *)
Definition figures (data : Frame) : list (string * string * list SummaryRecord) :=
  flat_map (fun metric0 =>
              map (fun g => (metric0, fst g, group_records data metric0 (snd g)))
                  structure_groups) metrics.

(** The files a figure writes (lines 215-246): none when no region was
    added. *)
Definition figure_files (fig : string * string * list SummaryRecord) : list Output :=
  let '(metric0, group_name, recs) := fig in
  if (0 <? length recs)%nat then [PlotPng metric0 group_name; PlotSvg metric0 group_name]
  else [].

(** The figure loop from the turns [turns] on: the plot files it writes,
    and whether it is left by the error of [linregress].  The files of a
    figure are written when its region loop has ended, so the error in the
    turn of one of its regions leaves the figure unwritten. *)
Fixpoint draw (data : Frame) (turns : list (string * (string * list string)))
  : list Output * bool :=
  match turns with
  | [] => ([], false)
  | (metric0, g) :: rest =>
      if existsb (raises data metric0) (snd g) then ([], true)
      else
        let '(written, raised) := draw data rest in
        (figure_files (metric0, fst g, group_records data metric0 (snd g))
         ++ written, raised)
  end.

Definition run (temp_df : list TempRow) (folders : list CaseFolder) : Outcome :=
  let all := all_data temp_df folders in
  if empty all then Aborted []
  else
    let data := concat all in
    match draw data figure_turns with
    | (plots, true) => Failed plots
    | (plots, false) =>
        Completed (plots
                   ++ [SummaryCsv (flat_map (fun fig => snd fig) (figures data));
                       LegendPng])
    end.

End Fit.

(** ** The standard errors as the specification states them

    On real numbers, with the root and the quotient of the reals: the
    residual standard error over [n - 2] degrees of freedom, the slope SE as
    the residual SE over the root of [sum ((x - mean x)^2)], the intercept SE
    as the residual SE times the root of
    [1/n + (mean x)^2 / sum ((x - mean x)^2)]; every sum runs over all the
    points.  They are numbers when [n] is above 2 and the temperatures are
    not all the same. *)

(** The residual sum of squares of the line [a + b x] on real points. *)
Definition RSS (X Y : list R) (b a : R) : R :=
  Rsum (map (fun p => (snd p - (b * fst p + a)) * (snd p - (b * fst p + a)))
            (combine X Y)).

Definition sum_sq_dev (X : list R) : R :=
  Rsum (map (fun v => (v - Rmean X) * (v - Rmean X)) X).




(** ** The regression in double precision

    The arithmetic of [linregress] and of lines 165-168 once more, on the
    binary64 numbers of the kernel, each operation rounded as the processor
    rounds it: the means, the population covariances as
    [np.cov(x, y, bias=1)] forms them (the centred products summed, the sum
    multiplied by [1/n]), [rvalue], the slope as the quotient of two
    covariances and the intercept as [ymean - slope * xmean]; then the
    residual sum and [se_y].  The sums add in index order; for the series of
    two points that these definitions are evaluated on, a sum has two terms
    and their order does not matter. *)

Definition b64_sum (l : list float) : float := fold_left PrimFloat.add l 0%float.

Definition b64_of_int (z : Z) : float := PrimFloat.of_uint63 (Uint63.of_Z z).

Definition b64_mean (l : list float) : float :=
  (b64_sum l / b64_of_int (len l))%float.

Definition b64_dev (l : list float) : list float :=
  map (fun v => (v - b64_mean l)%float) l.

Definition b64_cov (x y : list float) : float :=
  (b64_sum (map (fun p => fst p * snd p) (combine (b64_dev x) (b64_dev y)))
   * (1 / b64_of_int (len x)))%float.

Definition b64_least_squares (x y : list float) : float * float * float :=
  let ssxm := b64_cov x x in
  let ssxym := b64_cov x y in
  let ssym := b64_cov y y in
  let rvalue :=
    if (PrimFloat.eqb ssxm 0 || PrimFloat.eqb ssym 0)%bool then 0%float
    else
      let r := (ssxym / PrimFloat.sqrt (ssxm * ssym))%float in
      if PrimFloat.ltb 1 r then 1%float
      else if PrimFloat.ltb r (-1) then (-1)%float
      else r in
  let slope := (ssxym / ssxm)%float in
  let intercept := (b64_mean y - slope * b64_mean x)%float in
  (slope, intercept, rvalue).

(** [np.sum((y - (slope * x + intercept)) ** 2)] and [se_y] (lines 166-168) *)
Definition b64_residual_ss (x y : list float) (slope intercept : float) : float :=
  b64_sum (map (fun p => let e := (snd p - (slope * fst p + intercept))%float in
                         (e * e)%float) (combine x y)).

Definition b64_se_y (x y : list float) (slope intercept : float) : float :=
  PrimFloat.sqrt (b64_residual_ss x y slope intercept / b64_of_int (len x - 2)).


(** ** Reading a formatted number *)

Definition is_digit (c : ascii) : bool :=
  ((48 <=? nat_of_ascii c) && (nat_of_ascii c <=? 57))%nat.

(** The digits of the significand: the digits before the letter e. *)
Fixpoint significand_digits (s : string) : nat :=
  match s with
  | EmptyString => O
  | String c t =>
      if (c =? "e")%char then O
      else ((if is_digit c then 1 else 0) + significand_digits t)%nat
  end.

(** The digits between the point and the letter e. *)
Fixpoint fraction_digits (s : string) : nat :=
  match s with
  | EmptyString => O
  | String c t => if (c =? ".")%char then significand_digits t else fraction_digits t
  end.

(** ** Sample inputs *)

(** Two-sided 95 % critical values of Student's t for the first degrees of
    freedom, to four decimals, and the normal limit beyond; NaN without a
    degree of freedom, as the library returns it. *)
Definition t_ppf_sample (q : R) (df : Z) : fval :=
  if (df <=? 0)%Z then NaN
  else if (df =? 1)%Z then Finite 12.7062
  else if (df =? 2)%Z then Finite 4.3027
  else if (df =? 3)%Z then Finite 3.1824
  else if (df =? 4)%Z then Finite 2.7764
  else Finite 1.96.

(** The p-value of a two-point sample. *)
Definition pearson_p_sample (x y : Series) : fval := Finite 1.

(** Two cases at 10 and 30 degrees with FA 0.5 and 0.7 in the caudate. *)
Definition two_cases : list CaseFolder :=
  [ mkCase "case10" (Some [mkRow "case10" "FA" "Caudate" (Finite 0.5)]) None;
    mkCase "case30" (Some [mkRow "case30" "FA" "Caudate" (Finite 0.7)]) None ].

Definition two_temps : list TempRow :=
  [ mkTemp "case10" (Some 10) (Some 10) (Some 10) (Some 10);
    mkTemp "case30" (Some 30) (Some 30) (Some 30) (Some 30) ].

(** The frame of (FA, Caudate) those two cases give. *)
Definition two_obs : Frame :=
  [ mkObs (mkRow "case10" "FA" "Caudate" (Finite 0.5)) (Some 10);
    mkObs (mkRow "case30" "FA" "Caudate" (Finite 0.7)) (Some 30) ].


(** Two cases scanned at the same temperature. *)
Definition same_temperature_obs : Frame :=
  [ mkObs (mkRow "caseA" "FA" "Caudate" (Finite 1)) (Some 20);
    mkObs (mkRow "caseB" "FA" "Caudate" (Finite 2)) (Some 20) ].

Definition same_temperature_cases : list CaseFolder :=
  [ mkCase "caseA" (Some [mkRow "caseA" "FA" "Caudate" (Finite 1)]) None;
    mkCase "caseB" (Some [mkRow "caseB" "FA" "Caudate" (Finite 2)]) None ].

Definition same_temperature_temps : list TempRow :=
  [ mkTemp "caseA" (Some 20) (Some 20) (Some 20) (Some 20);
    mkTemp "caseB" (Some 20) (Some 20) (Some 20) (Some 20) ].



Definition b64_cold_x : list float := [4; 10]%float.

Definition b64_cold_y : list float := [0x1p-1; 0x1.3333333333333p-2]%float.




(** A case whose primary file holds a row of an excluded region only. *)
Definition empty_case : list CaseFolder :=
  [mkCase "A" (Some [mkRow "A" "FA" "Accumbens" (Finite 1)]) None].

Definition empty_case_temps : list TempRow :=
  [mkTemp "A" (Some 20) (Some 20) (Some 20) (Some 20)].

(** ** The loops of the statistics stage (lines 143-149) *)

(** The (metric, region) pairs in the order the three loops visit them. *)
Definition region_pairs : list (string * string) :=
  flat_map (fun metric0 =>
              flat_map (fun g => map (fun region0 => (metric0, region0)) (snd g))
                       structure_groups) metrics.

(** The frame of a pair passes the tests of lines 151 and 157. *)
Definition fitted (data : Frame) (pair : string * string) : bool :=
  let df := region_frame (fst pair) (snd pair) data in
  negb (len df <? 2)%Z && valid_series (temperatures df) (values df).

Definition pair_eq_dec (a b : string * string) : {a = b} + {a <> b}.
Proof. decide equality; apply string_dec. Defined.

(** ** Rendering decisions (lines 187-209) *)

Definition region_colors : list (string * string) :=
  [ ("Caudate", "#1f77b4"); ("Putamen", "#ff7f0e"); ("Pallidum", "#2ca02c");
    ("Hippocampus", "#9467bd"); ("Amygdala", "#17becf");
    ("Thalamus", "#d62728"); ("Brainstem", "#8c564b") ].

(** [region_colors.get(region, None)] *)
Fixpoint get_color (colors : list (string * string)) (region0 : string)
  : option string :=
  match colors with
  | [] => None
  | (k, c) :: t => if (k =? region0)%string then Some c else get_color t region0
  end.

(** [f"{val:.{precision}f}"]: the sign, the digits of the integer part, the
    point and [precision] digits; the decimal is the value rounded half to
    even. *)
Definition format_fixed (val : fval) (precision : nat) : string :=
  match val with
  | NaN => "nan"
  | Infinite false => "inf"
  | Infinite true => "-inf"
  | Finite v =>
      let m := round_half_even (Rabs v * 10 ^ precision) in
      ((if Rsign v then "-" else "")
       ++ decimal (m / 10 ^ Z.of_nat precision)
       ++ match precision with
          | O => ""
          | _ => "." ++ fixed_digits precision m
          end)%string
  end.

(** [p_text] (lines 204-207) *)
Definition p_text (p : fval) : string :=
  if flt p (Finite 0.001) then "p < 0.001"%string
  else ("p = " ++ format_fixed p 3)%string.

(** The entry appended to [legend_entries] (line 209): text, colour, bold. *)
Definition legend_entry (p : fval) (region0 : string)
  : string * option string * bool :=
  (p_text p, get_color region_colors region0, flt p (Finite 0.05)).

(** [x.min()] and [x.max()] of a Series: the nulls are left out, and the
    result is null when nothing is left. *)
Definition fmin (a b : fval) : fval := if flt b a then b else a.

Definition fmax (a b : fval) : fval := if flt a b then b else a.

Definition series_min (s : Series) : fval :=
  match notnull s with
  | [] => NaN
  | a :: t => fold_left fmin t a
  end.

Definition series_max (s : Series) : fval :=
  match notnull s with
  | [] => NaN
  | a :: t => fold_left fmax t a
  end.

(** [np.linspace(start, stop, num)]: [num - 1] points [i * step + start]
    with [step = (stop - start) / (num - 1)], then [stop] itself. *)
Definition linspace (start stop : fval) (num : nat) : Series :=
  match num with
  | O => []
  | S O => [start]
  | S k =>
      let step := fdiv (fsub stop start) (of_int (Z.of_nat k)) in
      map (fun i => fadd (fmul (of_int (Z.of_nat i)) step) start) (seq 0 k)
      ++ [stop]
  end.

(** The dashed lines of lines 194-202: abscissas and ordinates of each. *)
Definition extrapolation (x : Series) (slope intercept : fval)
  : list (Series * Series) :=
  (if flt (Finite 4) (series_min x)
   then let x_left := linspace (Finite 4) (series_min x) 50 in
        [(x_left, fitted_line slope intercept x_left)]
   else [])
  ++ (if flt (series_max x) (Finite 37)
      then let x_right := linspace (series_max x) (Finite 37) 50 in
           [(x_right, fitted_line slope intercept x_right)]
      else []).

(** ** Reading values *)

(** A double that is not a negative number: NaN, plus infinity, or a finite
    number that is not below zero. *)
Definition not_negative (a : fval) : Prop :=
  match a with
  | Finite v => 0 <= v
  | Infinite s => s = false
  | NaN => True
  end.

(** The temperature and the value of a row as real numbers, where they are
    finite. *)
Definition obs_x (o : Obs) : R :=
  match temperature o with Some v => v | None => 0 end.

Definition obs_y (o : Obs) : R :=
  match value (obs_row o) with Finite v => v | _ => 0 end.

(** All the entries of a list are the same number. *)
Definition identical (X : list R) : Prop :=
  forall u v, In u X -> In v X -> u = v.

(** Two rows of a frame have different temperatures. *)
Definition spread (df : Frame) : Prop :=
  exists o1 o2, In o1 df /\ In o2 df /\ temperature o1 <> temperature o2.

(** The number that [precision + 1] digits [m] and the exponent [e] of a
    scientific notation stand for. *)
Definition sci_value (m e : Z) (precision : nat) : R :=
  IZR m * powerRZ 10 (e - Z.of_nat precision).

(** The keys are in increasing order. *)
Fixpoint keys_sorted (l : list key) : bool :=
  match l with
  | [] => true
  | a :: t =>
      match t with
      | [] => true
      | b :: _ => key_leb a b && keys_sorted t
      end
  end.

(** * Properties *)

(** ** Deduplication *)

Lemma key_eqb_eq (a b : key) : key_eqb a b = true <-> a = b.
Proof.
  destruct a as [[c1 m1] r1], b as [[c2 m2] r2]; simpl.
  rewrite !andb_true_iff, !String.eqb_eq.
  split.
  - intros [[-> ->] ->]; reflexivity.
  - intros H; inversion H; auto.
Qed.

Lemma key_eqb_refl (a : key) : key_eqb a a = true.
Proof. now apply key_eqb_eq. Qed.

Lemma insert_key_perm (k : key) (l : list key) :
  Permutation (insert_key k l) (k :: l).
Proof.
  induction l as [|h t IH]; simpl.
  - apply Permutation_refl.
  - destruct (key_leb k h).
    + apply Permutation_refl.
    + eapply perm_trans; [apply perm_skip, IH | apply perm_swap].
Qed.

Lemma sort_keys_perm (l : list key) : Permutation (sort_keys l) l.
Proof.
  induction l as [|h t IH]; simpl.
  - apply perm_nil.
  - eapply perm_trans; [apply insert_key_perm | apply perm_skip, IH].
Qed.

Lemma group_keys_NoDup (df : DataFrame) : NoDup (group_keys df).
Proof.
  unfold group_keys.
  eapply Permutation_NoDup.
  - apply Permutation_sym, sort_keys_perm.
  - apply NoDup_nodup.
Qed.

Lemma group_keys_In (df : DataFrame) (k : key) :
  In k (group_keys df) <-> In k (map row_key df) /\ blank_key k = false.
Proof.
  unfold group_keys; split; intros H.
  - assert (H' : In k (filter (fun k => negb (blank_key k)) (map row_key df))).
    { apply (nodup_In key_eq_dec).
      eapply Permutation_in; [apply sort_keys_perm | exact H]. }
    apply filter_In in H'. destruct H' as [H1 H2].
    split; [exact H1|]. now apply negb_true_iff in H2.
  - eapply Permutation_in; [apply Permutation_sym, sort_keys_perm |].
    apply (nodup_In key_eq_dec). apply filter_In.
    destruct H as [H1 H2]. split; [exact H1|]. now rewrite H2.
Qed.

Lemma groupby_first_keys (df : DataFrame) :
  map row_key (groupby_first df) = group_keys df.
Proof.
  unfold groupby_first. rewrite map_map.
  rewrite <- (map_id (group_keys df)) at 2.
  apply map_ext. intros [[c m] r]. reflexivity.
Qed.

Lemma groupby_first_value (df : DataFrame) (row : Row) :
  In row (groupby_first df) ->
  value row = first_notnull (map value (group (row_key row) df)).
Proof.
  unfold groupby_first. rewrite in_map_iff.
  intros [[[c m] r] [<- _]]. reflexivity.
Qed.

Lemma groupby_first_origin (df : DataFrame) (row : Row) :
  In row (groupby_first df) -> exists r, In r df /\ row_key r = row_key row.
Proof.
  intros H.
  assert (Hk : In (row_key row) (map row_key (groupby_first df)))
    by now apply in_map.
  rewrite groupby_first_keys, group_keys_In, in_map_iff in Hk.
  destruct Hk as [[r [E I]] _]. now exists r.
Qed.

(** The value that survives in the group of [k] when the rows before the
    first row of the group are [before]. *)
Lemma group_skip (k : key) (before : DataFrame) (rest : DataFrame) :
  (forall r, In r before -> row_key r <> k) ->
  group k (before ++ rest) = group k rest.
Proof.
  intros H. unfold group. rewrite filter_app.
  replace (filter (fun r => key_eqb (row_key r) k) before) with (@nil Row); [reflexivity|].
  symmetry. induction before as [|b t IH]; [reflexivity|].
  cbn [filter]. destruct (key_eqb (row_key b) k) eqn:E.
  - apply key_eqb_eq in E. exfalso. apply (H b); [now left | exact E].
  - apply IH. intros r Hr. apply H. now right.
Qed.

(** C5, amended: after [groupby(...).first()] no two rows share their
    (case, metric, region), so at most one row survives for a key; a key of
    the file survives exactly when none of its three cells is blank; the
    value of a surviving row is the first value of the key's rows, in file
    order, that is not missing, so it is the value of the first-encountered
    row whenever that value is not missing. *)
Theorem C5_first_notnull_survives (df : DataFrame) :
  NoDup (map row_key (groupby_first df))
  /\ (forall r, In r df ->
        (In (row_key r) (map row_key (groupby_first df))
         <-> blank_key (row_key r) = false))
  /\ (forall row, In row (groupby_first df) ->
        value row = first_notnull (map value (group (row_key row) df)))
  /\ (forall before r rest row,
        df = before ++ r :: rest ->
        (forall r', In r' before -> row_key r' <> row_key r) ->
        isnull (value r) = false ->
        In row (groupby_first df) -> row_key row = row_key r ->
        value row = value r).
Proof.
  split; [| split; [| split]].
  - rewrite groupby_first_keys. apply group_keys_NoDup.
  - intros r Hr. rewrite groupby_first_keys, group_keys_In. split.
    + now intros [_ H].
    + intros H. split; [now apply in_map|exact H].
  - apply groupby_first_value.
  - intros before r rest row -> Hb Hv Hin Hk.
    rewrite (groupby_first_value _ _ Hin), Hk.
    rewrite group_skip by exact Hb.
    unfold group. cbn [filter]. rewrite key_eqb_refl.
    cbn [map first_notnull]. now rewrite Hv.
Qed.

(** A row with a blank key cell is in no group. *)
Lemma blank_key_row_dropped :
  groupby_first [mkRow "A" EmptyString "Caudate" (Finite 1);
                 mkRow "A" "FA" "Caudate" (Finite 2)]
  = [mkRow "A" "FA" "Caudate" (Finite 2)].
Proof. reflexivity. Qed.

(** When the first row of a key has no value, a later row's value survives. *)
Lemma C5_first_row_can_lose :
  let r1 := mkRow "A" "FA" "Caudate" NaN in
  let r2 := mkRow "A" "FA" "Caudate" (Finite 1) in
  row_key r1 = row_key r2
  /\ value r1 <> value r2
  /\ groupby_first [r1; r2] = [r2]
  /\ ~ (forall row, In row (groupby_first [r1; r2]) -> value row = value r1).
Proof.
  assert (E : groupby_first [mkRow "A" "FA" "Caudate" NaN;
                             mkRow "A" "FA" "Caudate" (Finite 1)]
              = [mkRow "A" "FA" "Caudate" (Finite 1)]) by reflexivity.
  cbv zeta. rewrite E.
  repeat split.
  - discriminate.
  - intros H. specialize (H _ (or_introl eq_refl)). discriminate H.
Qed.

(** ** Ingestion *)

Lemma filter_all {A} (f : A -> bool) (l : list A) :
  (forall a, In a l -> f a = true) -> filter f l = l.
Proof.
  induction l as [|h t IH]; intros H; [reflexivity|].
  cbn [filter]. rewrite (H h (or_introl eq_refl)).
  f_equal. apply IH. intros a Ha. apply H. now right.
Qed.

Lemma filter_none {A} (f : A -> bool) (l : list A) :
  (forall a, In a l -> f a = false) -> filter f l = [].
Proof.
  induction l as [|h t IH]; intros H; [reflexivity|].
  cbn [filter]. rewrite (H h (or_introl eq_refl)).
  apply IH. intros a Ha. apply H. now right.
Qed.

Lemma obs_with_temperature (m : string) (t : option R) (df : DataFrame) :
  obs_with_metric m (with_temperature t df) = with_temperature t (with_metric m df).
Proof.
  unfold obs_with_metric, with_temperature, with_metric.
  induction df as [|r d IH]; [reflexivity|].
  cbn [map filter obs_row]. destruct (metric r =? m)%string; cbn [map]; now rewrite IH.
Qed.

Lemma obs_with_metric_app (m : string) (a b : Frame) :
  obs_with_metric m (a ++ b) = obs_with_metric m a ++ obs_with_metric m b.
Proof. apply filter_app. Qed.

Lemma with_metric_twice (m m' : string) (df : DataFrame) :
  with_metric m (with_metric m' df)
  = if (m =? m')%string then with_metric m df else [].
Proof.
  unfold with_metric. destruct (m =? m')%string eqn:E.
  - apply String.eqb_eq in E. subst m'.
    apply filter_all. intros a Ha. now apply filter_In in Ha.
  - apply filter_none. intros a Ha. apply filter_In in Ha. destruct Ha as [_ Ha].
    apply String.eqb_eq in Ha. subst m'.
    rewrite String.eqb_sym. exact E.
Qed.

Lemma with_metric_app (m : string) (a b : DataFrame) :
  with_metric m (a ++ b) = with_metric m a ++ with_metric m b.
Proof. apply filter_app. Qed.

Lemma with_without_same (m : string) (df : DataFrame) :
  with_metric m (without_metric m df) = [].
Proof.
  apply filter_none. intros a Ha. apply filter_In in Ha. destruct Ha as [_ Ha].
  now apply negb_true_iff in Ha.
Qed.

Lemma with_without_other (m m' : string) (df : DataFrame) :
  m <> m' -> with_metric m (without_metric m' df) = with_metric m df.
Proof.
  intros N. unfold with_metric, without_metric.
  induction df as [|r d IH]; [reflexivity|].
  cbn [filter]. destruct (metric r =? m')%string eqn:E'; cbn [negb filter].
  - apply String.eqb_eq in E'.
    destruct (metric r =? m)%string eqn:E; [|exact IH].
    apply String.eqb_eq in E. congruence.
  - destruct (metric r =? m)%string; now rewrite IH.
Qed.

(** The rows [first()] returns carry the keys of the rows it was given. *)
Lemma groupby_first_metric (m : string) (df : DataFrame) (row : Row) :
  In row (groupby_first (with_metric m df)) -> metric row = m.
Proof.
  intros H. destruct (groupby_first_origin _ _ H) as [r [Hr Hk]].
  apply filter_In in Hr. destruct Hr as [_ Hr]. apply String.eqb_eq in Hr.
  unfold row_key in Hk. congruence.
Qed.

Lemma with_metric_corrected (m : string) (df : DataFrame) :
  with_metric m (groupby_first (with_metric "T1" df))
  = if (m =? "T1")%string then groupby_first (with_metric "T1" df) else [].
Proof.
  destruct (m =? "T1")%string eqn:E.
  - apply String.eqb_eq in E. subst m. apply filter_all. intros a Ha.
    apply String.eqb_eq. now apply groupby_first_metric with (df := df).
  - apply filter_none. intros a Ha.
    apply groupby_first_metric in Ha. rewrite Ha, String.eqb_sym. exact E.
Qed.

Ltac known_metric E :=
  apply String.eqb_eq in E; subst;
  cbn [String.eqb Ascii.eqb Bool.eqb with_temperature map app];
  rewrite ?app_nil_r; reflexivity.

(** The rows a case contributes for one metric: every row of that metric in
    [df_main], with the cell of the first temperature row attached. *)
Lemma case_rows_metric (temp_df : list TempRow) (f : CaseFolder)
    (main : DataFrame) (trow : TempRow) (others : list TempRow) (m : string) :
  file_main f = Some main ->
  temp_rows temp_df (case_name f) = trow :: others ->
  obs_with_metric m (case_rows temp_df f)
  = match temp_map m with
    | Some temp_col =>
        with_temperature (temp_col trow) (with_metric m (merged_main main (file_t1 f)))
    | None => []
    end.
Proof.
  intros Hm Ht. unfold case_rows, case_frames. rewrite Hm, Ht.
  cbn [empty]. unfold metrics. cbn [flat_map].
  unfold metric_frames. cbn [temp_map String.eqb Ascii.eqb Bool.eqb map app concat].
  rewrite !obs_with_metric_app.
  rewrite !obs_with_temperature, !with_metric_twice.
  change (obs_with_metric m []) with (@nil Obs). rewrite app_nil_r.
  unfold temp_map.
  destruct (m =? "FA")%string eqn:E1; [known_metric E1|].
  destruct (m =? "MD")%string eqn:E2; [known_metric E2|].
  destruct (m =? "T1")%string eqn:E3; [known_metric E3|].
  destruct (m =? "T2")%string eqn:E4; [known_metric E4|].
  destruct (m =? "T2s")%string eqn:E5; [known_metric E5|].
  reflexivity.
Qed.

(** C3, amended: for a case whose primary file exists, whose corrected-T1
    file exists and holds at least one row, and that has a row in the
    temperature table, the T1 rows it contributes to the aggregated table are
    the rows of the corrected file after region exclusion, the restriction to
    T1 and deduplication, each with the case's T1 temperature, whatever the
    primary file holds; for every other metric it contributes what it
    contributes without a corrected file. *)
Theorem C3_corrected_T1_replaces
    (temp_df : list TempRow) (f : CaseFolder) (main t1 : DataFrame)
    (trow : TempRow) (others : list TempRow) :
  file_main f = Some main ->
  file_t1 f = Some t1 ->
  t1 <> [] ->
  temp_rows temp_df (case_name f) = trow :: others ->
  obs_with_metric "T1" (case_rows temp_df f)
  = with_temperature (temp_T1 trow)
      (groupby_first (with_metric "T1" (drop_excluded t1)))
  /\ forall m, m <> "T1"%string ->
       obs_with_metric m (case_rows temp_df f)
       = obs_with_metric m (case_rows temp_df (mkCase (case_name f) (Some main) None)).
Proof.
  intros Hm H1 Hne Ht.
  assert (Hmerged : merged_main main (file_t1 f)
                    = without_metric "T1" (groupby_first (drop_excluded main))
                      ++ groupby_first (with_metric "T1" (drop_excluded t1))).
  { unfold merged_main. rewrite H1. destruct t1; [contradiction|reflexivity]. }
  split.
  - rewrite (case_rows_metric temp_df f main trow others "T1" Hm Ht).
    cbn [temp_map String.eqb Ascii.eqb Bool.eqb].
    rewrite Hmerged, with_metric_app, with_without_same, with_metric_corrected.
    reflexivity.
  - intros m Hneq.
    rewrite (case_rows_metric temp_df f main trow others m Hm Ht).
    rewrite (case_rows_metric temp_df (mkCase (case_name f) (Some main) None)
               main trow others m eq_refl Ht).
    destruct (temp_map m) as [temp_col|]; [|reflexivity].
    rewrite Hmerged. cbn [file_t1 merged_main empty negb].
    rewrite with_metric_app, with_metric_corrected.
    rewrite with_without_other by exact Hneq.
    apply String.eqb_neq in Hneq. rewrite Hneq, app_nil_r. reflexivity.
Qed.

Lemma C3_corrected_T1_replaces_witness :
  let corrected := mkRow "A" "T1" "Caudate" (Finite 2) in
  let f := mkCase "A" (Some [mkRow "A" "T1" "Caudate" (Finite 1);
                             mkRow "A" "FA" "Caudate" (Finite 3)])
                      (Some [corrected]) in
  let temp_df := [mkTemp "A" (Some 20) (Some 21) (Some 22) (Some 23)] in
  obs_with_metric "T1" (case_rows temp_df f) = [mkObs corrected (Some 21)].
Proof.
  cbv zeta.
  refine (eq_trans (proj1 (C3_corrected_T1_replaces
    [mkTemp "A" (Some 20) (Some 21) (Some 22) (Some 23)]
    (mkCase "A" (Some [mkRow "A" "T1" "Caudate" (Finite 1);
                       mkRow "A" "FA" "Caudate" (Finite 3)])
                (Some [mkRow "A" "T1" "Caudate" (Finite 2)]))
    _ _ _ _ eq_refl eq_refl _ eq_refl)) _).
  - discriminate.
  - reflexivity.
Defined.

(** A corrected-T1 file that exists but holds no row: the uncorrected T1 row
    of the primary file stays in the table. *)
Lemma C3_empty_corrected_file :
  let uncorrected := mkRow "A" "T1" "Caudate" (Finite 1) in
  let f := mkCase "A" (Some [uncorrected]) (Some []) in
  let temp_df := [mkTemp "A" (Some 20) (Some 20) (Some 20) (Some 20)] in
  file_t1 f = Some []
  /\ obs_with_metric "T1" (case_rows temp_df f) = [mkObs uncorrected (Some 20)]
  /\ obs_with_metric "T1" (case_rows temp_df f)
     <> with_temperature (Some 20)
          (groupby_first (with_metric "T1" (drop_excluded []))).
Proof.
  cbv zeta.
  assert (E : obs_with_metric "T1"
                (case_rows [mkTemp "A" (Some 20) (Some 20) (Some 20) (Some 20)]
                   (mkCase "A" (Some [mkRow "A" "T1" "Caudate" (Finite 1)]) (Some [])))
              = [mkObs (mkRow "A" "T1" "Caudate" (Finite 1)) (Some 20)])
    by reflexivity.
  rewrite E. repeat split. discriminate.
Qed.

(** The test of line 120 never holds: once the case has a row in the
    temperature table, every metric appends its frame, whatever the cell. *)
Lemma metric_frames_always (df_main : DataFrame) (trow : TempRow)
    (others : list TempRow) (m : string) :
  In m metrics ->
  exists temp_col,
    temp_map m = Some temp_col
    /\ metric_frames df_main (trow :: others) m
       = [with_temperature (temp_col trow) (with_metric m df_main)].
Proof.
  unfold metrics. cbn [In].
  intros [<-|[<-|[<-|[<-|[<-|[]]]]]]; eexists; split; reflexivity.
Qed.

(** C4: a case whose T1 temperature cell is blank still contributes its T1
    row, with a missing temperature. *)
Lemma C4_blank_temperature_row_kept :
  let row := mkRow "A" "T1" "Caudate" (Finite 1) in
  let f := mkCase "A" (Some [row]) None in
  let temp_df := [mkTemp "A" (Some 20) None (Some 20) (Some 20)] in
  map temp_T1 (temp_rows temp_df (case_name f)) = [None]
  /\ obs_with_metric "T1" (case_rows temp_df f) = [mkObs row None].
Proof. cbv zeta. split; reflexivity. Qed.

(** A row with a missing temperature makes line 157 reject its whole
    series. *)
Lemma missing_temperature_rejects (df : Frame) (o : Obs) :
  In o df -> temperature o = None ->
  valid_series (temperatures df) (values df) = false.
Proof.
  intros Hin Hnone. unfold valid_series.
  assert (E : existsb isnull (temperatures df) = true).
  { apply existsb_exists. exists (of_cell (temperature o)). split.
    - unfold temperatures. apply in_map_iff. now exists o.
    - rewrite Hnone. reflexivity. }
  rewrite E. reflexivity.
Qed.

(** ** The fatal check of line 125 *)

Lemma case_frames_nil (temp_df : list TempRow) (f : CaseFolder) :
  case_frames temp_df f = []
  <-> file_main f = None \/ temp_rows temp_df (case_name f) = [].
Proof.
  unfold case_frames. split.
  - destruct (file_main f) as [main|]; [|now left].
    destruct (temp_rows temp_df (case_name f)) as [|trow others]; [now right|].
    cbn [empty]. unfold metrics. cbn [flat_map].
    unfold metric_frames at 1. cbn [temp_map String.eqb Ascii.eqb Bool.eqb map app].
    discriminate.
  - intros [->| ->]; [reflexivity|].
    destruct (file_main f); reflexivity.
Qed.

Lemma all_data_nil (temp_df : list TempRow) (folders : list CaseFolder) :
  all_data temp_df folders = []
  <-> forall f, In f folders ->
        file_main f = None \/ temp_rows temp_df (case_name f) = [].
Proof.
  unfold all_data. induction folders as [|f fs IH]; cbn [flat_map].
  - split; [intros _ f []|reflexivity].
  - split.
    + intros H. apply app_eq_nil in H. destruct H as [Hf Hfs].
      intros g [<-|Hg].
      * now apply case_frames_nil.
      * now apply IH.
    + intros H.
      rewrite (proj2 (case_frames_nil temp_df f) (H f (or_introl eq_refl))).
      apply IH. intros g Hg. apply H. now right.
Qed.

(** ** Arithmetic on finite values *)

Lemma Rzero_true (v : R) : v = 0 -> Rzero v = true.
Proof. intros ->. unfold Rzero. destruct (Req_dec_T 0 0); [reflexivity|contradiction]. Qed.

Lemma Rzero_false (v : R) : v <> 0 -> Rzero v = false.
Proof. intros H. unfold Rzero. destruct (Req_dec_T v 0); [contradiction|reflexivity]. Qed.

Lemma Rsign_false (v : R) : 0 <= v -> Rsign v = false.
Proof. intros H. unfold Rsign. destruct (Rlt_dec v 0); [lra|reflexivity]. Qed.

Lemma Rsign_true (v : R) : v < 0 -> Rsign v = true.
Proof. intros H. unfold Rsign. destruct (Rlt_dec v 0); [reflexivity|lra]. Qed.

Lemma fdiv_finite (u v : R) : v <> 0 -> fdiv (Finite u) (Finite v) = Finite (u / v).
Proof. intros H. cbn [fdiv]. now rewrite Rzero_false. Qed.

Lemma fdiv_zero_zero (u v : R) : u = 0 -> v = 0 -> fdiv (Finite u) (Finite v) = NaN.
Proof. intros Hu Hv. cbn [fdiv]. now rewrite (Rzero_true v Hv), (Rzero_true u Hu). Qed.

Lemma fsqrt_finite (v : R) : 0 <= v -> fsqrt (Finite v) = Finite (sqrt v).
Proof. intros H. cbn [fsqrt]. now rewrite Rsign_false. Qed.

Lemma fmul_NaN_r (a : fval) : fmul a NaN = NaN.
Proof. destruct a; reflexivity. Qed.

Lemma fdiv_by_zero_not_finite (a : fval) : isfinite (fdiv a (Finite 0)) = false.
Proof.
  destruct a as [u|s|]; cbn [fdiv]; [|reflexivity|reflexivity].
  rewrite (Rzero_true 0 eq_refl). destruct (Rzero u); reflexivity.
Qed.

Lemma fmul_not_finite (a b : fval) : isfinite b = false -> isfinite (fmul a b) = false.
Proof.
  destruct b as [v|s|]; [discriminate| |]; intros _.
  - destruct a as [u|s'|]; cbn [fmul]; [destruct (Rzero u)| |]; reflexivity.
  - now rewrite fmul_NaN_r.
Qed.

Lemma fmul_not_finite_l (a b : fval) : isfinite a = false -> isfinite (fmul a b) = false.
Proof.
  destruct a as [u|s|]; [discriminate| |]; intros _.
  - destruct b as [v|s'|]; cbn [fmul]; [destruct (Rzero v)| |]; reflexivity.
  - reflexivity.
Qed.

Lemma fdiv_not_finite_l (a b : fval) : isfinite a = false -> isfinite (fdiv a b) = false.
Proof.
  destruct a as [u|s|]; [discriminate| |]; intros _.
  - destruct b as [v|s'|]; reflexivity.
  - reflexivity.
Qed.

Lemma fsqrt_not_finite (a : fval) : isfinite a = false -> isfinite (fsqrt a) = false.
Proof. destruct a as [u|[|]|]; [discriminate| | |]; reflexivity. Qed.

Lemma flt_finite (u v : R) : flt (Finite u) (Finite v) = true <-> u < v.
Proof.
  cbn [flt]. destruct (Rlt_dec u v); split; intros H; try assumption;
    try reflexivity; try discriminate; contradiction.
Qed.

Lemma feq_finite (u v : R) : feq (Finite u) (Finite v) = true <-> u = v.
Proof.
  cbn [feq]. destruct (Req_dec_T u v); split; intros H; try assumption;
    try reflexivity; try discriminate; contradiction.
Qed.

(** ** Series of finite values *)

Lemma reals_finite (X : list R) : reals (map Finite X) = Some X.
Proof. induction X as [|v t IH]; cbn [map reals]; [|rewrite IH]; reflexivity. Qed.

Lemma notnull_finite (X : list R) : notnull (map Finite X) = map Finite X.
Proof.
  unfold notnull. apply filter_all. intros a Ha.
  apply in_map_iff in Ha. destruct Ha as [v [<- _]]. reflexivity.
Qed.

Lemma fsum_finite (X : list R) : fsum (map Finite X) = Finite (Rsum X).
Proof.
  unfold fsum, Rsum. induction X as [|v t IH]; cbn [map fold_right]; [reflexivity|].
  rewrite IH. reflexivity.
Qed.

Lemma np_sum_finite (X : list R) : np_sum (map Finite X) = Finite (Rsum X).
Proof. unfold np_sum. now rewrite notnull_finite, fsum_finite. Qed.

Lemma len_finite (X : list R) : of_int (len (map Finite X)) = Finite (INR (length X)).
Proof. unfold of_int, len. now rewrite length_map, <- INR_IZR_INZ. Qed.

Lemma INR_length_pos {A} (l : list A) : l <> [] -> 0 < INR (length l).
Proof. destruct l; [contradiction|]. intros _. apply lt_0_INR. cbn [length]. lia. Qed.

Lemma np_mean_finite (X : list R) :
  X <> [] -> np_mean (map Finite X) = Finite (Rmean X).
Proof.
  intros H. unfold np_mean. rewrite notnull_finite, fsum_finite, len_finite.
  apply fdiv_finite. pose proof (INR_length_pos X H). lra.
Qed.

Lemma combine_same {A B} (f : A * A -> B) (l : list A) :
  map f (combine l l) = map (fun a => f (a, a)) l.
Proof. induction l as [|a t IH]; cbn [combine map]; [|rewrite IH]; reflexivity. Qed.

Lemma SS_same (X : list R) : SS X X = sum_sq_dev X.
Proof. unfold SS, dev, sum_sq_dev. now rewrite combine_same, map_map. Qed.

Lemma sq_dev_finite (m : R) (X : list R) :
  map (fun xi => fsq (fsub xi (Finite m))) (map Finite X)
  = map Finite (map (fun v => (v - m) * (v - m)) X).
Proof. rewrite !map_map. apply map_ext. intros v. reflexivity. Qed.

Lemma s_xx_finite (X : list R) :
  X <> [] -> s_xx (map Finite X) = Finite (SS X X).
Proof.
  intros H. unfold s_xx. rewrite (np_mean_finite X H), sq_dev_finite.
  now rewrite np_sum_finite, SS_same.
Qed.

Lemma Rsum_sq_nonneg (l : list R) : 0 <= Rsum (map (fun v => v * v) l).
Proof.
  induction l as [|v t IH]; cbn [map Rsum fold_right]; [lra|].
  fold (Rsum (map (fun v => v * v) t)). nra.
Qed.

Lemma SS_squares (X : list R) : SS X X = Rsum (map (fun v => v * v) (dev X)).
Proof. unfold SS. now rewrite combine_same. Qed.

Lemma SS_nonneg (X : list R) : 0 <= SS X X.
Proof. rewrite SS_squares. apply Rsum_sq_nonneg. Qed.

Lemma Rsum_sq_zero (l : list R) :
  Rsum (map (fun v => v * v) l) = 0 -> Forall (fun v => v = 0) l.
Proof.
  induction l as [|v t IH]; cbn [map Rsum fold_right]; intros H; [constructor|].
  fold (Rsum (map (fun v => v * v) t)) in H.
  pose proof (Rsum_sq_nonneg t) as Ht.
  constructor; [nra|]. apply IH. nra.
Qed.

Lemma Rsum_cross_zero (l k : list R) :
  Forall (fun v => v = 0) l ->
  Rsum (map (fun p => fst p * snd p) (combine l k)) = 0.
Proof.
  intros H. revert k. induction H as [|v t Hv Ht IH]; intros k; [reflexivity|].
  destruct k as [|w k]; [reflexivity|].
  cbn [combine map Rsum fold_right fst snd].
  fold (Rsum (map (fun p => fst p * snd p) (combine t k))).
  rewrite IH, Hv. lra.
Qed.

(** The cross product vanishes with the centred squares of [x]. *)
Lemma SS_zero_cross (X Y : list R) : SS X X = 0 -> SS X Y = 0.
Proof.
  intros H. rewrite SS_squares in H. unfold SS.
  apply Rsum_cross_zero. now apply Rsum_sq_zero.
Qed.

Lemma Rsum_map_nonneg {A} (f : A -> R) (l : list A) :
  (forall a, 0 <= f a) -> 0 <= Rsum (map f l).
Proof.
  intros H. induction l as [|a t IH]; cbn [map Rsum fold_right]; [lra|].
  fold (Rsum (map f t)). pose proof (H a). lra.
Qed.

(** ** Temperatures without spread *)

Lemma Rsum_constant (c : R) (X : list R) :
  (forall v, In v X -> v = c) -> Rsum X = INR (length X) * c.
Proof.
  induction X as [|v t IH]; intros H.
  - cbn [Rsum fold_right length INR]. ring.
  - change (Rsum (v :: t)) with (v + Rsum t).
    change (length (v :: t)) with (S (length t)). rewrite S_INR.
    rewrite IH by (intros w Hw; apply H; now right).
    rewrite (H v (or_introl eq_refl)). ring.
Qed.

Lemma SS_constant (c : R) (X : list R) :
  X <> [] -> (forall v, In v X -> v = c) -> SS X X = 0.
Proof.
  intros Hne H. pose proof (INR_length_pos X Hne) as Hn.
  assert (Hm : Rmean X = c).
  { unfold Rmean. rewrite (Rsum_constant c X H). field. lra. }
  rewrite SS_same. unfold sum_sq_dev. rewrite Hm.
  rewrite (Rsum_constant 0).
  - ring.
  - intros w Hw. apply in_map_iff in Hw. destruct Hw as [v [<- Hv]].
    rewrite (H v Hv). ring.
Qed.

(** The centred squares of a series vanish exactly when its entries are
    all the same. *)
Lemma SS_zero_iff (X : list R) : X <> [] -> (SS X X = 0 <-> identical X).
Proof.
  intros Hne. split.
  - intros H. rewrite SS_squares in H. apply Rsum_sq_zero in H.
    rewrite Forall_forall in H.
    assert (Hm : forall u, In u X -> u = Rmean X).
    { intros u Hu.
      assert (Hd : u - Rmean X = 0).
      { apply H. unfold dev. apply in_map_iff. now exists u. }
      lra. }
    intros u v Hu Hv. now rewrite (Hm u Hu), (Hm v Hv).
  - intros H. destruct X as [|c t]; [contradiction|].
    apply (SS_constant c); [exact Hne|].
    intros v Hv. apply H; [exact Hv|now left].
Qed.

Lemma fold_fmax_nan_finite (t : list R) (a : R) :
  exists mx,
    fold_left fmax_nan (map Finite t) (Finite a) = Finite mx
    /\ a <= mx /\ (forall u, In u t -> u <= mx)
    /\ (mx = a \/ In mx t).
Proof.
  revert a. induction t as [|b t IH]; intros a.
  - exists a. cbn [map fold_left]. repeat split; [lra|intros u []|now left].
  - cbn [map fold_left]. unfold fmax_nan at 2. cbn [flt].
    destruct (Rlt_dec a b) as [Hlt|Hge].
    + destruct (IH b) as [mx [E [H1 [H2 H3]]]]. exists mx. rewrite E.
      repeat split; [lra| |].
      * intros u [<-|Hu]; [exact H1|now apply H2].
      * right. destruct H3 as [->|H3]; [now left|now right].
    + destruct (IH a) as [mx [E [H1 [H2 H3]]]]. exists mx. rewrite E.
      repeat split; [exact H1| |].
      * intros u [<-|Hu]; [lra|now apply H2].
      * destruct H3 as [->|H3]; [now left|right; now right].
Qed.

Lemma fold_fmin_nan_finite (t : list R) (a : R) :
  exists mn,
    fold_left fmin_nan (map Finite t) (Finite a) = Finite mn
    /\ mn <= a /\ (forall u, In u t -> mn <= u)
    /\ (mn = a \/ In mn t).
Proof.
  revert a. induction t as [|b t IH]; intros a.
  - exists a. cbn [map fold_left]. repeat split; [lra|intros u []|now left].
  - cbn [map fold_left]. unfold fmin_nan at 2. cbn [flt].
    destruct (Rlt_dec b a) as [Hlt|Hge].
    + destruct (IH b) as [mn [E [H1 [H2 H3]]]]. exists mn. rewrite E.
      repeat split; [lra| |].
      * intros u [<-|Hu]; [exact H1|now apply H2].
      * right. destruct H3 as [->|H3]; [now left|now right].
    + destruct (IH a) as [mn [E [H1 [H2 H3]]]]. exists mn. rewrite E.
      repeat split; [exact H1| |].
      * intros u [<-|Hu]; [lra|now apply H2].
      * destruct H3 as [->|H3]; [now left|right; now right].
Qed.

(** [np.amax] and [np.amin] of a series of finite values are its greatest
    and its least value. *)
Lemma np_amax_finite (X : list R) :
  X <> [] ->
  exists mx, np_amax (map Finite X) = Finite mx
             /\ In mx X /\ forall u, In u X -> u <= mx.
Proof.
  intros Hne. unfold np_amax.
  destruct X as [|a t]; [contradiction|]. cbn [map].
  destruct (fold_fmax_nan_finite t a) as [mx [E [H1 [H2 H3]]]].
  exists mx. split; [exact E|]. split.
  - destruct H3 as [->|H3]; [now left|now right].
  - intros u [<-|Hu]; [exact H1|now apply H2].
Qed.

Lemma np_amin_finite (X : list R) :
  X <> [] ->
  exists mn, np_amin (map Finite X) = Finite mn
             /\ In mn X /\ forall u, In u X -> mn <= u.
Proof.
  intros Hne. unfold np_amin.
  destruct X as [|a t]; [contradiction|]. cbn [map].
  destruct (fold_fmin_nan_finite t a) as [mn [E [H1 [H2 H3]]]].
  exists mn. split; [exact E|]. split.
  - destruct H3 as [->|H3]; [now left|now right].
  - intros u [<-|Hu]; [exact H1|now apply H2].
Qed.

Lemma length_ne_nil {A} (l : list A) : (1 <= length l)%nat -> l <> [].
Proof. destruct l; cbn [length]; [lia|discriminate]. Qed.

(** What [linregress] does on finite series of two points or more: it
    raises when the abscissas are all the same, and returns the least-squares
    values otherwise. *)
Lemma linregress_cases (X Y : list R) :
  (2 <= length X)%nat -> Y <> [] ->
  (identical X /\ linregress (map Finite X) (map Finite Y) = None)
  \/ ((exists u v, In u X /\ In v X /\ u <> v)
      /\ linregress (map Finite X) (map Finite Y)
         = Some (least_squares (map Finite X) (map Finite Y))).
Proof.
  intros Hlen HY.
  assert (HX : X <> []) by (apply length_ne_nil; lia).
  unfold linregress.
  assert (E1 : empty (map Finite X) = false) by (destruct X; [contradiction|reflexivity]).
  assert (E2 : empty (map Finite Y) = false) by (destruct Y; [contradiction|reflexivity]).
  rewrite E1, E2. cbn [orb].
  assert (E3 : (1 <? len (map Finite X))%Z = true).
  { apply Z.ltb_lt. unfold len. rewrite length_map. lia. }
  rewrite E3, andb_true_r.
  destruct (np_amax_finite X HX) as [mx [Emax [Hmx_in Hmx]]].
  destruct (np_amin_finite X HX) as [mn [Emin [Hmn_in Hmn]]].
  rewrite Emax, Emin.
  destruct (feq (Finite mx) (Finite mn)) eqn:E.
  - left. apply feq_finite in E. split; [|reflexivity].
    intros u v Hu Hv.
    pose proof (Hmx u Hu). pose proof (Hmn u Hu).
    pose proof (Hmx v Hv). pose proof (Hmn v Hv). lra.
  - right. split; [|reflexivity].
    exists mx, mn. split; [exact Hmx_in|]. split; [exact Hmn_in|].
    intros H. apply feq_finite in H. congruence.
Qed.

(** ** The regression on finite series *)

Lemma linregress_returns (x y : Series) (lr : fval * fval * fval) :
  linregress x y = Some lr -> lr = least_squares x y.
Proof.
  unfold linregress. destruct (empty x || empty y); [discriminate|].
  destruct (feq (np_amax x) (np_amin x) && (1 <? len x)%Z); [discriminate|].
  intros H. now inversion H.
Qed.

Lemma least_squares_regular (X Y : list R) :
  X <> [] -> SS X X <> 0 ->
  exists r_val,
    least_squares (map Finite X) (map Finite Y)
    = (Finite (SS X Y / SS X X),
       Finite (Rmean Y - SS X Y / SS X X * Rmean X),
       r_val).
Proof.
  intros Hne Hxx. pose proof (INR_length_pos X Hne) as Hn.
  unfold least_squares. rewrite !reals_finite. cbv zeta.
  rewrite (fdiv_finite (SS X Y / INR (length X)) (SS X X / INR (length X))).
  2:{ intros H. apply Hxx. unfold Rdiv in H.
      apply Rmult_integral in H. destruct H as [H|H]; [exact H|].
      exfalso. apply (Rinv_neq_0_compat (INR (length X))); [lra|exact H]. }
  replace (SS X Y / INR (length X) / (SS X X / INR (length X)))
    with (SS X Y / SS X X) by (field; split; lra).
  eexists. reflexivity.
Qed.

Lemma least_squares_degenerate (X Y : list R) :
  SS X X = 0 ->
  least_squares (map Finite X) (map Finite Y) = (NaN, NaN, Finite 0).
Proof.
  intros Hxx. pose proof (SS_zero_cross X Y Hxx) as Hxy.
  unfold least_squares. rewrite !reals_finite. cbv zeta.
  rewrite Hxx, Hxy.
  assert (Hz : forall n, 0 / n = 0) by (intros n; unfold Rdiv; apply Rmult_0_l).
  rewrite !Hz. rewrite (Rzero_true 0 eq_refl). cbn [orb].
  rewrite (fdiv_zero_zero 0 0) by reflexivity. reflexivity.
Qed.

(** The inequality of Cauchy and Schwarz, on a list of pairs. *)
Lemma quadratic_sum (l : list (R * R)) (t : R) :
  Rsum (map (fun p => (fst p * t + snd p) * (fst p * t + snd p)) l)
  = Rsum (map (fun p => fst p * fst p) l) * t * t
    + 2 * Rsum (map (fun p => fst p * snd p) l) * t
    + Rsum (map (fun p => snd p * snd p) l).
Proof.
  induction l as [|p l IH]; cbn [map Rsum fold_right]; [ring|].
  fold (Rsum (map (fun p => (fst p * t + snd p) * (fst p * t + snd p)) l)).
  fold (Rsum (map (fun p => fst p * fst p) l)).
  fold (Rsum (map (fun p => fst p * snd p) l)).
  fold (Rsum (map (fun p => snd p * snd p) l)).
  rewrite IH. ring.
Qed.

Lemma cauchy_schwarz (l : list (R * R)) :
  Rsum (map (fun p => fst p * snd p) l) * Rsum (map (fun p => fst p * snd p) l)
  <= Rsum (map (fun p => fst p * fst p) l) * Rsum (map (fun p => snd p * snd p) l).
Proof.
  set (A := Rsum (map (fun p => fst p * fst p) l)).
  set (B := Rsum (map (fun p => fst p * snd p) l)).
  set (C := Rsum (map (fun p => snd p * snd p) l)).
  assert (Hq : forall t, 0 <= A * t * t + 2 * B * t + C).
  { intros t. unfold A, B, C. rewrite <- quadratic_sum.
    apply Rsum_map_nonneg. intros p. set (e := fst p * t + snd p). nra. }
  assert (HA : 0 <= A).
  { unfold A. apply Rsum_map_nonneg. intros p. nra. }
  destruct (Req_dec_T A 0) as [Hz|Hnz].
  - rewrite Hz in *.
    destruct (Req_dec_T B 0) as [HB|HB]; [rewrite HB; lra|].
    exfalso. specialize (Hq (- (C + 1) / (2 * B))).
    assert (E : 0 * (- (C + 1) / (2 * B)) * (- (C + 1) / (2 * B))
                + 2 * B * (- (C + 1) / (2 * B)) + C = -1) by (field; exact HB).
    lra.
  - specialize (Hq (- B / A)).
    assert (E : A * (A * (- B / A) * (- B / A) + 2 * B * (- B / A) + C)
                = A * C - B * B) by (field; exact Hnz).
    assert (H0 : 0 <= A * (A * (- B / A) * (- B / A) + 2 * B * (- B / A) + C))
      by (apply Rmult_le_pos; assumption).
    lra.
Qed.

Lemma combine_squares_l (U V : list R) :
  Rsum (map (fun p => fst p * fst p) (combine U V)) <= Rsum (map (fun v => v * v) U).
Proof.
  revert V. induction U as [|u U IH]; intros V; [cbn; lra|].
  destruct V as [|v V].
  - exact (Rsum_sq_nonneg (u :: U)).
  - cbn [combine map Rsum fold_right fst].
    fold (Rsum (map (fun p => fst p * fst p) (combine U V))).
    fold (Rsum (map (fun v => v * v) U)). specialize (IH V). lra.
Qed.

Lemma combine_squares_r (U V : list R) :
  Rsum (map (fun p => snd p * snd p) (combine U V)) <= Rsum (map (fun v => v * v) V).
Proof.
  revert V. induction U as [|u U IH]; intros V.
  - exact (Rsum_sq_nonneg V).
  - destruct V as [|v V]; [cbn; lra|].
    cbn [combine map Rsum fold_right snd].
    fold (Rsum (map (fun p => snd p * snd p) (combine U V))).
    fold (Rsum (map (fun v => v * v) V)). specialize (IH V). lra.
Qed.

Lemma SS_cauchy_schwarz (X Y : list R) : SS X Y * SS X Y <= SS X X * SS Y Y.
Proof.
  rewrite (SS_squares X), (SS_squares Y). unfold SS.
  pose proof (cauchy_schwarz (combine (dev X) (dev Y))) as H.
  pose proof (combine_squares_l (dev X) (dev Y)) as Hl.
  pose proof (combine_squares_r (dev X) (dev Y)) as Hr.
  assert (H1 : 0 <= Rsum (map (fun p => fst p * fst p) (combine (dev X) (dev Y))))
    by (apply Rsum_map_nonneg; intros p; nra).
  assert (H2 : 0 <= Rsum (map (fun p => snd p * snd p) (combine (dev X) (dev Y))))
    by (apply Rsum_map_nonneg; intros p; nra).
  eapply Rle_trans; [exact H|].
  apply Rmult_le_compat; assumption.
Qed.

(** With spread in both series the correlation is a number between -1 and
    1. *)
Lemma pearson_r_regular (X Y : list R) :
  SS X X <> 0 -> SS Y Y <> 0 ->
  pearson_r (map Finite X) (map Finite Y)
  = Finite (SS X Y / sqrt (SS X X * SS Y Y))
  /\ -1 <= SS X Y / sqrt (SS X X * SS Y Y) <= 1.
Proof.
  intros Hx Hy.
  pose proof (SS_nonneg X) as Hx0. pose proof (SS_nonneg Y) as Hy0.
  pose proof (SS_cauchy_schwarz X Y) as Hcs.
  set (sxx := SS X X) in *. set (syy := SS Y Y) in *. set (sxy := SS X Y) in *.
  assert (Hprod : 0 < sxx * syy) by (apply Rmult_lt_0_compat; lra).
  pose proof (sqrt_lt_R0 _ Hprod) as Hd.
  pose proof (sqrt_sqrt (sxx * syy) (Rlt_le _ _ Hprod)) as Hdd.
  set (d := sqrt (sxx * syy)) in *.
  split.
  - unfold pearson_r. rewrite !reals_finite. fold sxx syy sxy.
    rewrite fsqrt_finite by lra. fold d. apply fdiv_finite. lra.
  - assert (Hb : - d <= sxy <= d) by nra.
    assert (Hq : sxy / d * d = sxy) by (field; lra).
    set (q := sxy / d) in *. split; nra.
Qed.

(** [rvalue] of [linregress] is the [r] of [pearsonr]. *)
Lemma least_squares_rvalue (X Y : list R) :
  X <> [] -> SS X X <> 0 -> SS Y Y <> 0 ->
  snd (least_squares (map Finite X) (map Finite Y))
  = pearson_r (map Finite X) (map Finite Y).
Proof.
  intros Hne Hx Hy. pose proof (INR_length_pos X Hne) as Hn.
  destruct (pearson_r_regular X Y Hx Hy) as [-> Hr].
  unfold least_squares. rewrite !reals_finite. cbv zeta. cbn [snd].
  pose proof (SS_nonneg X) as Hx0. pose proof (SS_nonneg Y) as Hy0.
  set (n := INR (length X)) in *.
  set (sxx := SS X X) in *. set (syy := SS Y Y) in *. set (sxy := SS X Y) in *.
  assert (Hinv : 0 < / n) by (apply Rinv_0_lt_compat; lra).
  assert (Hxn : sxx / n <> 0) by (unfold Rdiv; nra).
  assert (Hyn : syy / n <> 0) by (unfold Rdiv; nra).
  rewrite (Rzero_false _ Hxn), (Rzero_false _ Hyn). cbn [orb].
  assert (Hprod : 0 < sxx * syy) by (apply Rmult_lt_0_compat; lra).
  pose proof (sqrt_lt_R0 _ Hprod) as Hd.
  assert (Hscaled : sxx / n * (syy / n) = sxx * syy / (n * n)) by (field; lra).
  assert (Hroot : sqrt (sxx * syy / (n * n)) = sqrt (sxx * syy) / n).
  { rewrite sqrt_div_alt by nra. rewrite sqrt_square by lra. reflexivity. }
  rewrite Hscaled, fsqrt_finite.
  2:{ apply Rmult_le_pos; [lra|]. left. apply Rinv_0_lt_compat. nra. }
  rewrite Hroot, fdiv_finite.
  2:{ unfold Rdiv. nra. }
  replace (sxy / n / (sqrt (sxx * syy) / n)) with (sxy / sqrt (sxx * syy))
    by (field; split; lra).
  unfold clip_unit.
  destruct (flt (Finite 1) (Finite (sxy / sqrt (sxx * syy)))) eqn:E1.
  { apply flt_finite in E1. lra. }
  destruct (flt (Finite (sxy / sqrt (sxx * syy))) (Finite (-1))) eqn:E2.
  { apply flt_finite in E2. lra. }
  reflexivity.
Qed.

(** ** The validity test of line 157 *)

Lemma forallb_finite (s : Series) :
  forallb isfinite s = true -> exists Y, s = map Finite Y.
Proof.
  induction s as [|a t IH]; cbn [forallb]; intros H.
  - now exists [].
  - apply andb_true_iff in H. destruct H as [Ha Ht].
    destruct (IH Ht) as [Y ->].
    destruct a as [v| |]; try discriminate. now exists (v :: Y).
Qed.

Lemma temperatures_notnull (df : Frame) :
  existsb isnull (temperatures df) = false ->
  exists X, temperatures df = map Finite X.
Proof.
  unfold temperatures. induction df as [|o d IH]; cbn [map existsb]; intros H.
  - now exists [].
  - apply orb_false_iff in H. destruct H as [Ho Hd].
    destruct (IH Hd) as [X ->].
    destruct (temperature o) as [v|]; [|discriminate]. now exists (v :: X).
Qed.

(** A frame that passes line 157 holds finite temperatures and finite
    values, with two distinct values at least. *)
Lemma valid_frame (df : Frame) :
  valid_series (temperatures df) (values df) = true ->
  exists X Y,
    temperatures df = map Finite X /\ values df = map Finite Y
    /\ length X = length df /\ length Y = length df
    /\ (2 <= nunique (values df))%nat.
Proof.
  unfold valid_series. intros H. apply negb_true_iff in H.
  apply orb_false_iff in H. destruct H as [H H4].
  apply orb_false_iff in H. destruct H as [H H3].
  apply orb_false_iff in H. destruct H as [H1 H2].
  apply negb_false_iff in H3. apply Nat.ltb_ge in H4.
  destruct (temperatures_notnull df H1) as [X HX].
  destruct (forallb_finite _ H3) as [Y HY].
  exists X, Y. repeat split; try assumption.
  - apply (f_equal (@length fval)) in HX.
    unfold temperatures in HX. now rewrite !length_map in HX.
  - apply (f_equal (@length fval)) in HY.
    unfold values in HY. now rewrite !length_map in HY.
Qed.

Lemma len_ge_2 {A} (l : list A) : (len l <? 2)%Z = false -> (2 <= length l)%nat.
Proof. unfold len. intros H. apply Z.ltb_ge in H. lia. Qed.

Lemma nunique_two (s : Series) (a b : fval) :
  In a s -> In b s -> a <> b -> isnull a = false -> isnull b = false ->
  (2 <= nunique s)%nat.
Proof.
  intros Ha Hb Hab Na Nb. unfold nunique.
  assert (Hin : forall c, In c s -> isnull c = false ->
                          In c (nodup fval_eq_dec (notnull s))).
  { intros c Hc Nc. apply nodup_In. unfold notnull. apply filter_In.
    split; [exact Hc|]. now rewrite Nc. }
  change 2%nat with (length [a; b]).
  apply NoDup_incl_length.
  - constructor; [|constructor; [intros []|constructor]].
    intros [E|[]]. now apply Hab.
  - intros c [<-|[<-|[]]]; now apply Hin.
Qed.

Lemma nunique_two_inv (s : Series) :
  (2 <= nunique s)%nat ->
  exists a b, In a s /\ In b s /\ a <> b.
Proof.
  unfold nunique. intros H.
  pose proof (NoDup_nodup fval_eq_dec (notnull s)) as Hnd.
  assert (Hsub : forall c, In c (nodup fval_eq_dec (notnull s)) -> In c s).
  { intros c Hc. apply nodup_In in Hc. unfold notnull in Hc.
    now apply filter_In in Hc. }
  destruct (nodup fval_eq_dec (notnull s)) as [|a [|b l]]; cbn [length] in H; try lia.
  exists a, b. split; [apply Hsub; now left|]. split; [apply Hsub; right; now left|].
  inversion Hnd as [|? ? Hn _]; subst. intros ->. apply Hn. now left.
Qed.

Lemma existsb_isnull_finite (X : list R) : existsb isnull (map Finite X) = false.
Proof. induction X as [|v t IH]; [reflexivity|exact IH]. Qed.

Lemma valid_finite_series (X Y : list R) (u v : R) :
  In u Y -> In v Y -> u <> v ->
  valid_series (map Finite X) (map Finite Y) = true.
Proof.
  intros Hu Hv Huv. unfold valid_series. apply negb_true_iff.
  assert (Hfin : forallb isfinite (map Finite Y) = true).
  { apply forallb_forall. intros a Ha. apply in_map_iff in Ha.
    destruct Ha as [w [<- _]]. reflexivity. }
  rewrite !existsb_isnull_finite, Hfin. cbn [negb orb].
  apply Nat.ltb_ge.
  apply (nunique_two _ (Finite u) (Finite v)).
  - now apply in_map.
  - now apply in_map.
  - intros E. inversion E. contradiction.
  - reflexivity.
  - reflexivity.
Qed.

(** The temperature and the value of the rows of a valid frame, as real
    numbers. *)
Lemma map_Finite_inv {A} (f : A -> fval) (g : A -> R) (l : list A) (X : list R) :
  map f l = map Finite X ->
  (forall a v, f a = Finite v -> g a = v) ->
  map f l = map Finite (map g l).
Proof.
  intros H Hg. rewrite map_map. apply map_ext_in. intros a Ha.
  assert (Hin : In (f a) (map Finite X)) by (rewrite <- H; now apply in_map).
  apply in_map_iff in Hin. destruct Hin as [v [E _]].
  rewrite <- E. f_equal. symmetry. now apply Hg.
Qed.

Lemma valid_frame_xy (df : Frame) :
  valid_series (temperatures df) (values df) = true ->
  temperatures df = map Finite (map obs_x df)
  /\ values df = map Finite (map obs_y df)
  /\ SS (map obs_y df) (map obs_y df) <> 0.
Proof.
  intros Hv. destruct (valid_frame df Hv) as [X [Y [HX [HY [_ [_ Hnu]]]]]].
  assert (EY : values df = map Finite (map obs_y df)).
  { apply (map_Finite_inv _ obs_y df Y HY).
    intros o v E. unfold obs_y. rewrite E. reflexivity. }
  split; [|split; [exact EY|]].
  - apply (map_Finite_inv _ obs_x df X HX).
    intros o v E. unfold obs_x. destruct (temperature o); inversion E; reflexivity.
  - destruct (nunique_two_inv _ Hnu) as [a [b [Ha [Hb Hab]]]].
    rewrite EY in Ha, Hb. apply in_map_iff in Ha, Hb.
    destruct Ha as [u [<- Hu]]. destruct Hb as [v [<- Hv']].
    assert (Hne : map obs_y df <> []) by (intros E; rewrite E in Hu; contradiction).
    intros Hz. apply (SS_zero_iff _ Hne) in Hz.
    apply Hab. f_equal. now apply Hz.
Qed.

Lemma temperature_obs_x (df : Frame) :
  temperatures df = map Finite (map obs_x df) ->
  forall o, In o df -> temperature o = Some (obs_x o).
Proof.
  intros HX o Ho.
  assert (E : of_cell (temperature o) = Finite (obs_x o)).
  { unfold temperatures in HX. rewrite map_map in HX.
    exact (proj1 (map_ext_in_iff) HX o Ho). }
  destruct (temperature o) as [v|] eqn:Et; [|discriminate E].
  unfold obs_x. now rewrite Et.
Qed.

Lemma identical_spread (df : Frame) :
  temperatures df = map Finite (map obs_x df) ->
  (identical (map obs_x df) <-> ~ spread df).
Proof.
  intros HX. pose proof (temperature_obs_x df HX) as Hx.
  split.
  - intros H [o1 [o2 [H1 [H2 Hne]]]]. apply Hne.
    rewrite (Hx o1 H1), (Hx o2 H2). f_equal.
    apply H; now apply in_map.
  - intros H u v Hu Hv. apply in_map_iff in Hu, Hv.
    destruct Hu as [o1 [<- H1]]. destruct Hv as [o2 [<- H2]].
    destruct (Req_dec_T (obs_x o1) (obs_x o2)) as [E|E]; [exact E|].
    exfalso. apply H. exists o1, o2. split; [exact H1|]. split; [exact H2|].
    rewrite (Hx o1 H1), (Hx o2 H2). intros E'. inversion E'. contradiction.
Qed.

(** How the turn of a frame that passes the tests of lines 151 and 157
    ends: with the error of [linregress] when all its temperatures are the
    same, and with a record otherwise. *)
Lemma fit_outcome_cases (t_ppf : R -> Z -> fval) (pearson_p : Series -> Series -> fval)
    (region0 metric0 : string) (df : Frame) :
  (2 <= len df)%Z ->
  valid_series (temperatures df) (values df) = true ->
  let X := map obs_x df in
  let Y := map obs_y df in
  temperatures df = map Finite X /\ values df = map Finite Y
  /\ SS Y Y <> 0
  /\ ((identical X /\ ~ spread df
       /\ linregress (temperatures df) (values df) = None
       /\ fit_outcome t_ppf pearson_p region0 metric0 df = Raised)
      \/ (SS X X <> 0 /\ spread df
          /\ linregress (temperatures df) (values df)
             = Some (least_squares (temperatures df) (values df))
          /\ fit_outcome t_ppf pearson_p region0 metric0 df
             = Appended (summarise t_ppf pearson_p region0 metric0
                           (temperatures df) (values df)))).
Proof.
  intros Hlen Hvalid. cbv zeta.
  destruct (valid_frame_xy df Hvalid) as [HX [HY Hyy]].
  split; [exact HX|]. split; [exact HY|]. split; [exact Hyy|].
  assert (Hl : (2 <= length (map obs_x df))%nat).
  { rewrite length_map. unfold len in Hlen. lia. }
  assert (HneX : map obs_x df <> []) by (apply length_ne_nil; lia).
  assert (HneY : map obs_y df <> []).
  { apply length_ne_nil. rewrite length_map. unfold len in Hlen. lia. }
  unfold fit_outcome. rewrite (proj2 (Z.ltb_ge _ _) Hlen), Hvalid.
  destruct (linregress_cases (map obs_x df) (map obs_y df) Hl HneY) as [[Hi E]|[Hi E]];
    rewrite <- HX, <- HY in E; rewrite E.
  - left. split; [exact Hi|]. split; [now apply identical_spread|]. now split.
  - destruct Hi as [u [v [Hu [Hv Huv]]]].
    right. split; [|split; [|now split]].
    + intros Hz. apply Huv. now apply (proj1 (SS_zero_iff _ HneX) Hz).
    + apply in_map_iff in Hu, Hv.
      destruct Hu as [o1 [<- H1]]. destruct Hv as [o2 [<- H2]].
      exists o1, o2. split; [exact H1|]. split; [exact H2|].
      rewrite (temperature_obs_x df HX o1 H1), (temperature_obs_x df HX o2 H2).
      intros E'. inversion E'. contradiction.
Qed.


(** ** Standard errors *)

Lemma residuals_finite (X Y : list R) (b a : R) :
  map fsq (series_sub (map Finite Y) (fitted_line (Finite b) (Finite a) (map Finite X)))
  = map Finite (map (fun p => (snd p - (b * fst p + a)) * (snd p - (b * fst p + a)))
                    (combine X Y)).
Proof.
  unfold series_sub, fitted_line.
  revert Y. induction X as [|x X IH]; intros [|y Y]; try reflexivity.
  cbn [map combine fst snd]. rewrite IH. reflexivity.
Qed.

Lemma residual_ss_finite (X Y : list R) (b a : R) :
  residual_ss (map Finite X) (map Finite Y) (Finite b) (Finite a)
  = Finite (RSS X Y b a).
Proof. unfold residual_ss. now rewrite residuals_finite, np_sum_finite. Qed.


Lemma fsqrt_zero : fsqrt (Finite 0) = Finite 0.
Proof. rewrite fsqrt_finite by lra. now rewrite sqrt_0. Qed.


(** Without a degree of freedom the residual standard error is the root of
    a quotient by zero, whatever the line: it is no finite number, and
    neither is what the script derives from it. *)
Lemma se_without_dof (t_ppf : R -> Z -> fval) (x y : Series) (slope intercept : fval) :
  len x = 2%Z ->
  se_y x y slope intercept
  = fsqrt (fdiv (residual_ss x y slope intercept) (of_int 0))
  /\ isfinite (se_y x y slope intercept) = false
  /\ isfinite (se_slope x y slope intercept) = false
  /\ isfinite (se_intercept x y slope intercept) = false
  /\ isfinite (slope_ci t_ppf x y slope intercept) = false
  /\ isfinite (intercept_ci t_ppf x y slope intercept) = false.
Proof.
  intros Hl.
  assert (E : se_y x y slope intercept
              = fsqrt (fdiv (residual_ss x y slope intercept) (of_int 0))).
  { unfold se_y. now rewrite Hl. }
  assert (Hse : isfinite (se_y x y slope intercept) = false).
  { rewrite E. apply fsqrt_not_finite. apply fdiv_by_zero_not_finite. }
  assert (Hs : isfinite (se_slope x y slope intercept) = false).
  { unfold se_slope. now apply fdiv_not_finite_l. }
  assert (Hi : isfinite (se_intercept x y slope intercept) = false).
  { unfold se_intercept. now apply fmul_not_finite_l. }
  repeat split; try assumption.
  - unfold slope_ci. now apply fmul_not_finite.
  - unfold intercept_ci. now apply fmul_not_finite.
Qed.

(** ** Two points *)

Lemma Rmean_two (a b : R) : Rmean [a; b] = (a + b) / 2.
Proof. unfold Rmean, Rsum. cbn [fold_right length INR]. field. Qed.

Lemma SS_two (a b u v : R) : SS [a; b] [u; v] = (a - b) * (u - v) / 2.
Proof.
  unfold SS, dev. rewrite !Rmean_two.
  cbn [map combine fst snd]. unfold Rsum. cbn [fold_right]. field.
Qed.

(** The least-squares line through two points leaves no residual. *)
Lemma RSS_two (a b u v : R) :
  a <> b ->
  RSS [a; b] [u; v] (SS [a; b] [u; v] / SS [a; b] [a; b])
      (Rmean [u; v] - SS [a; b] [u; v] / SS [a; b] [a; b] * Rmean [a; b]) = 0.
Proof.
  intros Hab. unfold RSS. rewrite !SS_two, !Rmean_two.
  cbn [combine map fst snd]. unfold Rsum. cbn [fold_right].
  field. lra.
Qed.

Lemma two_rows {A} (l : list A) : len l = 2%Z -> exists a b, l = [a; b].
Proof.
  unfold len. destruct l as [|a [|b [|c l]]]; cbn [length]; intros H; try lia.
  now exists a, b.
Qed.

(** On two points with different abscissas the residual sum of the
    least-squares line is zero, and the standard errors are [NaN]. *)
Lemma se_two_points (X Y : list R) :
  length X = 2%nat -> length Y = 2%nat -> SS X X <> 0 ->
  let b := SS X Y / SS X X in
  let a := Rmean Y - SS X Y / SS X X * Rmean X in
  residual_ss (map Finite X) (map Finite Y) (Finite b) (Finite a) = Finite 0
  /\ se_y (map Finite X) (map Finite Y) (Finite b) (Finite a) = NaN
  /\ se_slope (map Finite X) (map Finite Y) (Finite b) (Finite a) = NaN
  /\ se_intercept (map Finite X) (map Finite Y) (Finite b) (Finite a) = NaN.
Proof.
  intros LX LY Hxx. cbv zeta.
  destruct X as [|x1 [|x2 [|? ?]]]; try discriminate LX.
  destruct Y as [|y1 [|y2 [|? ?]]]; try discriminate LY.
  assert (Hne : x1 <> x2).
  { intros ->. apply Hxx. rewrite SS_two. lra. }
  assert (Hrss : residual_ss (map Finite [x1; x2]) (map Finite [y1; y2])
                   (Finite (SS [x1; x2] [y1; y2] / SS [x1; x2] [x1; x2]))
                   (Finite (Rmean [y1; y2]
                            - SS [x1; x2] [y1; y2] / SS [x1; x2] [x1; x2]
                              * Rmean [x1; x2]))
                 = Finite 0).
  { rewrite residual_ss_finite. now rewrite RSS_two. }
  assert (Hse : se_y (map Finite [x1; x2]) (map Finite [y1; y2])
                  (Finite (SS [x1; x2] [y1; y2] / SS [x1; x2] [x1; x2]))
                  (Finite (Rmean [y1; y2]
                           - SS [x1; x2] [y1; y2] / SS [x1; x2] [x1; x2]
                             * Rmean [x1; x2]))
                = NaN).
  { unfold se_y. rewrite Hrss.
    change (len (map Finite [x1; x2]) - 2)%Z with 0%Z.
    unfold of_int. now rewrite fdiv_zero_zero. }
  split; [exact Hrss|]. split; [exact Hse|].
  unfold se_slope, se_intercept. rewrite Hse. split; reflexivity.
Qed.

(** The fields of the record of a frame with spread in its temperatures. *)
Lemma summarise_regular (t_ppf : R -> Z -> fval) (pearson_p : Series -> Series -> fval)
    (region0 metric0 : string) (X Y : list R) :
  X <> [] -> SS X X <> 0 ->
  let b := SS X Y / SS X X in
  let a := Rmean Y - SS X Y / SS X X * Rmean X in
  let x := map Finite X in
  let y := map Finite Y in
  let rec := summarise t_ppf pearson_p region0 metric0 x y in
  (exists r_val, least_squares x y = (Finite b, Finite a, r_val))
  /\ Slope_a rec
     = (format_sci (Finite b) 2 ++ " ± "
        ++ format_sci (slope_ci t_ppf x y (Finite b) (Finite a)) 2)%string
  /\ Intercept_b rec
     = (format_sci (Finite a) 2 ++ " ± "
        ++ format_sci (intercept_ci t_ppf x y (Finite b) (Finite a)) 2)%string.
Proof.
  intros Hne Hxx. cbv zeta.
  destruct (least_squares_regular X Y Hne Hxx) as [rv E].
  split; [now exists rv|].
  unfold summarise, pearsonr. rewrite E. split; reflexivity.
Qed.


(** C9, amended: line 157 asks for two distinct values and asks nothing of
    the temperatures.  A frame of two rows or more whose temperatures are all
    equal and whose values are finite, two of them distinct, passes it; on
    such a frame [s_xx] and its root are zero, and the script has no test of
    its own before line 170, whose quotient would be one by zero whatever the
    line; but the least-squares line itself is undefined, [linregress]
    raises at line 162, and the turn ends there: line 170 is not reached and
    no record is appended. *)
Theorem C9_constant_temperature_unguarded
    (t_ppf : R -> Z -> fval) (pearson_p : Series -> Series -> fval)
    (region0 metric0 : string) (df : Frame) (c : R) :
  (2 <= len df)%Z ->
  (forall o, In o df -> temperature o = Some c) ->
  forallb isfinite (values df) = true ->
  (2 <= nunique (values df))%nat ->
  let x := temperatures df in
  let y := values df in
  valid_series x y = true
  /\ s_xx x = Finite 0
  /\ fsqrt (s_xx x) = Finite 0
  /\ (forall slope intercept,
        se_slope x y slope intercept = fdiv (se_y x y slope intercept) (Finite 0)
        /\ isfinite (se_slope x y slope intercept) = false)
  /\ least_squares x y = (NaN, NaN, Finite 0)
  /\ linregress x y = None
  /\ fit_outcome t_ppf pearson_p region0 metric0 df = Raised
  /\ fit_frame t_ppf pearson_p region0 metric0 df = None.
Proof.
  intros Hlen Hc Hfin Hnu. cbv zeta.
  assert (HX : temperatures df = map Finite (map (fun _ => c) df)).
  { unfold temperatures. rewrite map_map. apply map_ext_in.
    intros o Ho. now rewrite (Hc o Ho). }
  destruct (forallb_finite _ Hfin) as [Y HY].
  set (X := map (fun _ : Obs => c) df) in *.
  assert (Hne : X <> []).
  { apply length_ne_nil. unfold X. rewrite length_map. unfold len in Hlen. lia. }
  assert (Hconst : forall v, In v X -> v = c).
  { intros v Hv. unfold X in Hv. apply in_map_iff in Hv. now destruct Hv as [_ [<- _]]. }
  pose proof (SS_constant c X Hne Hconst) as Hxx.
  assert (Hs : s_xx (temperatures df) = Finite 0).
  { rewrite HX, (s_xx_finite X Hne), Hxx. reflexivity. }
  assert (Hvalid : valid_series (temperatures df) (values df) = true).
  { unfold valid_series. rewrite Hfin, HX, existsb_isnull_finite.
    rewrite HY at 1. rewrite existsb_isnull_finite.
    cbn [negb orb]. apply negb_true_iff, Nat.ltb_ge. exact Hnu. }
  assert (Hraise : fit_outcome t_ppf pearson_p region0 metric0 df = Raised).
  { destruct (fit_outcome_cases t_ppf pearson_p region0 metric0 df Hlen Hvalid)
      as [_ [_ [_ [[_ [_ [_ Ho]]]|[_ [[o1 [o2 [H1 [H2 Hd]]]] _]]]]]]; [exact Ho|].
    exfalso. apply Hd. now rewrite (Hc o1 H1), (Hc o2 H2). }
  split; [exact Hvalid|].
  split; [exact Hs|split; [now rewrite Hs, fsqrt_zero|split; [|split; [|split; [|split]]]]].
  - intros slope intercept.
    assert (E : se_slope (temperatures df) (values df) slope intercept
                = fdiv (se_y (temperatures df) (values df) slope intercept) (Finite 0)).
    { unfold se_slope. now rewrite Hs, fsqrt_zero. }
    split; [exact E|]. rewrite E. apply fdiv_by_zero_not_finite.
  - rewrite HX, HY. apply least_squares_degenerate. exact Hxx.
  - unfold fit_outcome in Hraise.
    rewrite (proj2 (Z.ltb_ge _ _) Hlen), Hvalid in Hraise.
    destruct (linregress (temperatures df) (values df)); [discriminate Hraise|reflexivity].
  - exact Hraise.
  - unfold fit_frame. now rewrite Hraise.
Qed.

(** C10, amended: a frame of exactly two rows, at two different
    temperatures, that passes the validity test has no degree of freedom.
    The residual standard error is the root of a quotient by zero: whatever
    line and whatever residual sum the doubles give, it is NaN or an
    infinity and no finite number, and so are the two standard errors and
    the two half-widths.  For the least-squares line in exact arithmetic the
    residual sum is zero and the residual standard error is the root of 0/0,
    NaN.  The summary record is written all the same, with nan after the
    slope and after the intercept. *)
Theorem C10_two_rows_no_degree_of_freedom
    (t_ppf : R -> Z -> fval) (pearson_p : Series -> Series -> fval)
    (region0 metric0 : string) (df : Frame) :
  len df = 2%Z ->
  valid_series (temperatures df) (values df) = true ->
  spread df ->
  let x := temperatures df in
  let y := values df in
  (len x - 2 = 0)%Z
  /\ (forall slope intercept,
        se_y x y slope intercept
        = fsqrt (fdiv (residual_ss x y slope intercept) (of_int 0))
        /\ isfinite (se_y x y slope intercept) = false
        /\ isfinite (se_slope x y slope intercept) = false
        /\ isfinite (se_intercept x y slope intercept) = false
        /\ isfinite (slope_ci t_ppf x y slope intercept) = false
        /\ isfinite (intercept_ci t_ppf x y slope intercept) = false)
  /\ exists rec b a r_val,
       linregress x y = Some (Finite b, Finite a, r_val)
       /\ residual_ss x y (Finite b) (Finite a) = Finite 0
       /\ se_y x y (Finite b) (Finite a) = NaN
       /\ fit_outcome t_ppf pearson_p region0 metric0 df = Appended rec
       /\ Slope_a rec = (format_sci (Finite b) 2 ++ " ± nan")%string
       /\ Intercept_b rec = (format_sci (Finite a) 2 ++ " ± nan")%string.
Proof.
  intros Hlen Hvalid Hspread. cbv zeta.
  assert (Hl : len (temperatures df) = 2%Z).
  { unfold len, temperatures in *. now rewrite length_map. }
  assert (Hlen2 : (2 <= len df)%Z) by lia.
  split; [rewrite Hl; reflexivity|].
  split; [intros slope intercept; now apply se_without_dof|].
  destruct (fit_outcome_cases t_ppf pearson_p region0 metric0 df Hlen2 Hvalid)
    as [HX [HY [Hyy [[_ [Hs _]]|[Hxx [_ [Hlr Ho]]]]]]]; [contradiction|].
  set (X := map obs_x df) in *. set (Y := map obs_y df) in *.
  assert (LX : length X = 2%nat).
  { unfold X. rewrite length_map. unfold len in Hlen. lia. }
  assert (LY : length Y = 2%nat).
  { unfold Y. rewrite length_map. unfold len in Hlen. lia. }
  assert (Hne : X <> []) by (apply length_ne_nil; lia).
  destruct (summarise_regular t_ppf pearson_p region0 metric0 X Y Hne Hxx)
    as [[rv E] [Es Ei]].
  destruct (se_two_points X Y LX LY Hxx) as [Hrss [Hse [Hss Hsi]]].
  rewrite <- HX, <- HY in E, Es, Ei, Hrss, Hse, Hss, Hsi.
  exists (summarise t_ppf pearson_p region0 metric0 (temperatures df) (values df)),
    (SS X Y / SS X X), (Rmean Y - SS X Y / SS X X * Rmean X), rv.
  split; [now rewrite Hlr, E|]. split; [exact Hrss|]. split; [exact Hse|].
  split; [exact Ho|].
  rewrite Es, Ei. unfold slope_ci, intercept_ci. rewrite Hss, Hsi, !fmul_NaN_r.
  split; reflexivity.
Qed.

(** ** Sample frames *)


Lemma two_obs_valid :
  len two_obs = 2%Z
  /\ valid_series (temperatures two_obs) (values two_obs) = true
  /\ spread two_obs.
Proof.
  split; [reflexivity|]. split.
  - apply (valid_finite_series [10; 30] [0.5; 0.7] 0.5 0.7); cbn; auto; lra.
  - exists (mkObs (mkRow "case10" "FA" "Caudate" (Finite 0.5)) (Some 10)),
      (mkObs (mkRow "case30" "FA" "Caudate" (Finite 0.7)) (Some 30)).
    split; [now left|]. split; [right; now left|].
    cbn [temperature]. intros E. inversion E. lra.
Qed.

Lemma same_temperature_valid :
  (2 <= len same_temperature_obs)%Z
  /\ (forall o, In o same_temperature_obs -> temperature o = Some 20)
  /\ forallb isfinite (values same_temperature_obs) = true
  /\ (2 <= nunique (values same_temperature_obs))%nat
  /\ valid_series (temperatures same_temperature_obs) (values same_temperature_obs)
     = true
  /\ ~ spread same_temperature_obs.
Proof.
  assert (Hc : forall o, In o same_temperature_obs -> temperature o = Some 20).
  { intros o [<-|[<-|[]]]; reflexivity. }
  split; [unfold len; cbn; lia|]. split; [exact Hc|]. split; [reflexivity|].
  split; [|split].
  - apply (nunique_two _ (Finite 1) (Finite 2)); cbn; auto.
    intros E. inversion E. lra.
  - apply (valid_finite_series [20; 20] [1; 2] 1 2); cbn; auto; lra.
  - intros [o1 [o2 [H1 [H2 Hd]]]]. apply Hd. now rewrite (Hc o1 H1), (Hc o2 H2).
Qed.

(** The frame of two cases scanned at the same temperature ends the turn of
    its region by the error. *)
Lemma same_temperature_raises
    (t_ppf : R -> Z -> fval) (pearson_p : Series -> Series -> fval)
    (region0 metric0 : string) :
  fit_outcome t_ppf pearson_p region0 metric0 same_temperature_obs = Raised.
Proof.
  destruct same_temperature_valid as [Hlen [_ [_ [_ [Hvalid Hs]]]]].
  destruct (fit_outcome_cases t_ppf pearson_p region0 metric0 same_temperature_obs
              Hlen Hvalid) as [_ [_ [_ [[_ [_ [_ Ho]]]|[_ [Hsp _]]]]]];
    [exact Ho|contradiction].
Qed.



Lemma C9_constant_temperature_unguarded_witness :
  valid_series (temperatures same_temperature_obs) (values same_temperature_obs) = true
  /\ s_xx (temperatures same_temperature_obs) = Finite 0
  /\ linregress (temperatures same_temperature_obs) (values same_temperature_obs)
     = None
  /\ fit_frame t_ppf_sample pearson_p_sample "Caudate" "FA" same_temperature_obs
     = None.
Proof.
  destruct same_temperature_valid as [Hlen [Hc [Hfin [Hnu _]]]].
  destruct (C9_constant_temperature_unguarded t_ppf_sample pearson_p_sample
              "Caudate" "FA" same_temperature_obs 20 Hlen Hc Hfin Hnu)
    as [Hv [Hs [_ [_ [_ [Hl [_ Hf]]]]]]].
  split; [exact Hv|]. split; [exact Hs|]. split; [exact Hl|exact Hf].
Defined.

Lemma C10_two_rows_no_degree_of_freedom_witness :
  len two_obs = 2%Z
  /\ valid_series (temperatures two_obs) (values two_obs) = true
  /\ spread two_obs
  /\ exists rec b a,
       fit_outcome t_ppf_sample pearson_p_sample "Caudate" "FA" two_obs
       = Appended rec
       /\ Slope_a rec = (format_sci (Finite b) 2 ++ " ± nan")%string
       /\ Intercept_b rec = (format_sci (Finite a) 2 ++ " ± nan")%string.
Proof.
  destruct two_obs_valid as [Hlen [Hvalid Hspread]].
  split; [exact Hlen|]. split; [exact Hvalid|]. split; [exact Hspread|].
  destruct (C10_two_rows_no_degree_of_freedom t_ppf_sample pearson_p_sample
              "Caudate" "FA" two_obs Hlen Hvalid Hspread)
    as [_ [_ [rec [b [a [r_val [_ [_ [_ [Ho [Hs Hi]]]]]]]]]]].
  exists rec, b, a. split; [exact Ho|]. split; [exact Hs|exact Hi].
Defined.

(** ** The figure loop and the end of the run *)

Lemma figures_by_turns (t_ppf : R -> Z -> fval) (pearson_p : Series -> Series -> fval)
    (data : Frame) :
  figures t_ppf pearson_p data
  = map (fun turn => (fst turn, fst (snd turn),
                      group_records t_ppf pearson_p data (fst turn) (snd (snd turn))))
        figure_turns.
Proof. reflexivity. Qed.

Lemma flat_map_of_map {A B C} (f : B -> list C) (g : A -> B) (l : list A) :
  flat_map f (map g l) = flat_map (fun a => f (g a)) l.
Proof. induction l as [|a t IH]; cbn [map flat_map]; [|rewrite IH]; reflexivity. Qed.

Lemma region_pairs_turns (metric0 region0 : string) :
  In (metric0, region0) region_pairs
  <-> exists g, In (metric0, g) figure_turns /\ In region0 (snd g).
Proof.
  unfold region_pairs, figure_turns. rewrite in_flat_map. split.
  - intros [m [Hm H]]. apply in_flat_map in H. destruct H as [g [Hg H]].
    apply in_map_iff in H. destruct H as [r [E Hr]]. inversion E; subst.
    exists g. split; [|exact Hr].
    apply in_flat_map. exists metric0. split; [exact Hm|].
    apply in_map_iff. now exists g.
  - intros [g [H Hr]]. apply in_flat_map in H. destruct H as [m [Hm H]].
    apply in_map_iff in H. destruct H as [g' [E Hg]]. inversion E; subst.
    exists metric0. split; [exact Hm|].
    apply in_flat_map. exists g. split; [exact Hg|].
    apply in_map_iff. now exists region0.
Qed.

Lemma figure_files_plots (fig : string * string * list SummaryRecord) (out : Output) :
  In out (figure_files fig) ->
  exists m g, out = PlotPng m g \/ out = PlotSvg m g.
Proof.
  destruct fig as [[m g] recs]. unfold figure_files.
  destruct (0 <? length recs)%nat; [|intros []].
  intros [<-|[<-|[]]]; exists m, g; [now left|now right].
Qed.

(** The figure loop that ends without the error has written the files of
    every figure, and no turn of a region has raised. *)
Lemma draw_false (t_ppf : R -> Z -> fval) (pearson_p : Series -> Series -> fval)
    (data : Frame) (turns : list (string * (string * list string)))
    (plots : list Output) :
  draw t_ppf pearson_p data turns = (plots, false) ->
  plots = flat_map (fun turn =>
                      figure_files
                        (fst turn, fst (snd turn),
                         group_records t_ppf pearson_p data (fst turn) (snd (snd turn))))
                   turns
  /\ forall metric0 g region0,
       In (metric0, g) turns -> In region0 (snd g) ->
       raises t_ppf pearson_p data metric0 region0 = false.
Proof.
  revert plots. induction turns as [|[m g] rest IH]; intros plots; cbn [draw].
  - intros H. inversion H. split; [reflexivity|]. intros ? ? ? [].
  - destruct (existsb (raises t_ppf pearson_p data m) (snd g)) eqn:E;
      [discriminate|].
    destruct (draw t_ppf pearson_p data rest) as [written raised].
    intros H. injection H as Hp Hr. subst plots raised.
    destruct (IH written eq_refl) as [Hw Hno].
    split; [cbn [flat_map fst snd]; now rewrite <- Hw|].
    intros m' g' r' [Hin|Hin] Hr.
    + inversion Hin; subst.
      destruct (raises t_ppf pearson_p data m' r') eqn:E'; [|reflexivity].
      assert (Hex : existsb (raises t_ppf pearson_p data m') (snd g') = true).
      { apply existsb_exists. now exists r'. }
      congruence.
    + now apply (Hno m' g' r').
Qed.

(** The figure loop that the error ends has written plot files only, and
    the turn of one region has raised. *)
Lemma draw_true (t_ppf : R -> Z -> fval) (pearson_p : Series -> Series -> fval)
    (data : Frame) (turns : list (string * (string * list string)))
    (plots : list Output) :
  draw t_ppf pearson_p data turns = (plots, true) ->
  (exists metric0 g region0,
      In (metric0, g) turns /\ In region0 (snd g)
      /\ raises t_ppf pearson_p data metric0 region0 = true)
  /\ forall out, In out plots -> exists m gn, out = PlotPng m gn \/ out = PlotSvg m gn.
Proof.
  revert plots. induction turns as [|[m g] rest IH]; intros plots; cbn [draw].
  - discriminate.
  - destruct (existsb (raises t_ppf pearson_p data m) (snd g)) eqn:E.
    + intros H. injection H as Hp. subst plots. split; [|intros out []].
      apply existsb_exists in E. destruct E as [r [Hr E]].
      exists m, g, r. split; [now left|]. now split.
    + destruct (draw t_ppf pearson_p data rest) as [written raised].
      intros H. injection H as Hp Hraised. subst plots raised.
      destruct (IH written eq_refl) as [[m' [g' [r' [Hin [Hr E']]]]] Hplots].
      split.
      * exists m', g', r'. split; [now right|]. now split.
      * intros out Hout. apply in_app_or in Hout. destruct Hout as [Hout|Hout].
        -- exact (figure_files_plots
                    (m, fst g, group_records t_ppf pearson_p data m (snd g))
                    out Hout).
        -- now apply Hplots.
Qed.

(** How the run ends. *)
Lemma run_aborted
    (t_ppf : R -> Z -> fval) (pearson_p : Series -> Series -> fval)
    (temp_df : list TempRow) (folders : list CaseFolder) (written : list Output) :
  run t_ppf pearson_p temp_df folders = Aborted written
  <-> all_data temp_df folders = [] /\ written = [].
Proof.
  unfold run. destruct (all_data temp_df folders) as [|fr frs]; cbn [empty].
  - split; [intros H; inversion H; now split|intros [_ ->]; reflexivity].
  - cbv zeta. destruct (draw _ _ _ _) as [plots [|]];
      split; try discriminate; intros [H _]; discriminate H.
Qed.

Lemma run_completed
    (t_ppf : R -> Z -> fval) (pearson_p : Series -> Series -> fval)
    (temp_df : list TempRow) (folders : list CaseFolder) (written : list Output) :
  run t_ppf pearson_p temp_df folders = Completed written ->
  let data := concat (all_data temp_df folders) in
  written
  = flat_map figure_files (figures t_ppf pearson_p data)
    ++ [SummaryCsv (flat_map (fun fig => snd fig) (figures t_ppf pearson_p data));
        LegendPng]
  /\ forall metric0 region0,
       In (metric0, region0) region_pairs ->
       raises t_ppf pearson_p data metric0 region0 = false.
Proof.
  unfold run. destruct (empty (all_data temp_df folders)); [discriminate|].
  cbv zeta.
  destruct (draw t_ppf pearson_p (concat (all_data temp_df folders)) figure_turns)
    as [plots [|]] eqn:E; [discriminate|].
  intros H. injection H as H.
  destruct (draw_false _ _ _ _ _ E) as [Hplots Hno].
  split.
  - rewrite <- H, Hplots, figures_by_turns, !flat_map_of_map. reflexivity.
  - intros m r Hp. apply region_pairs_turns in Hp. destruct Hp as [g [Hg Hr]].
    now apply (Hno m g r).
Qed.

Lemma run_failed
    (t_ppf : R -> Z -> fval) (pearson_p : Series -> Series -> fval)
    (temp_df : list TempRow) (folders : list CaseFolder) :
  (exists written, run t_ppf pearson_p temp_df folders = Failed written)
  <-> all_data temp_df folders <> []
      /\ exists metric0 region0,
           In (metric0, region0) region_pairs
           /\ raises t_ppf pearson_p (concat (all_data temp_df folders))
                metric0 region0 = true.
Proof.
  unfold run. destruct (all_data temp_df folders) as [|fr frs] eqn:Ea; cbn [empty].
  - split; [intros [w H]; discriminate H|intros [H _]; now contradiction H].
  - cbv zeta.
    destruct (draw t_ppf pearson_p (concat (fr :: frs)) figure_turns)
      as [plots [|]] eqn:E.
    + split; [intros _|intros _; now exists plots].
      split; [discriminate|].
      destruct (draw_true _ _ _ _ _ E) as [[m [g [r [Hg [Hr Hraise]]]]] _].
      exists m, r. split; [|exact Hraise].
      apply region_pairs_turns. now exists g.
    + split; [intros [w H]; discriminate H|].
      intros [_ [m [r [Hp Hraise]]]].
      destruct (draw_false _ _ _ _ _ E) as [_ Hno].
      apply region_pairs_turns in Hp. destruct Hp as [g [Hg Hr]].
      rewrite (Hno m g r Hg Hr) in Hraise. discriminate Hraise.
Qed.

Lemma run_failed_plots
    (t_ppf : R -> Z -> fval) (pearson_p : Series -> Series -> fval)
    (temp_df : list TempRow) (folders : list CaseFolder) (written : list Output) :
  run t_ppf pearson_p temp_df folders = Failed written ->
  forall out, In out written -> exists m g, out = PlotPng m g \/ out = PlotSvg m g.
Proof.
  unfold run. destruct (empty (all_data temp_df folders)); [discriminate|].
  cbv zeta.
  destruct (draw t_ppf pearson_p (concat (all_data temp_df folders)) figure_turns)
    as [plots [|]] eqn:E; [|discriminate].
  intros H. injection H as <-. now destruct (draw_true _ _ _ _ _ E).
Qed.

(** A run with frames in which no turn of a region raises goes to its end. *)
Lemma run_completes
    (t_ppf : R -> Z -> fval) (pearson_p : Series -> Series -> fval)
    (temp_df : list TempRow) (folders : list CaseFolder) :
  all_data temp_df folders <> [] ->
  (forall metric0 region0,
     raises t_ppf pearson_p (concat (all_data temp_df folders)) metric0 region0
     = false) ->
  exists written, run t_ppf pearson_p temp_df folders = Completed written.
Proof.
  intros Hne Hno. unfold run.
  destruct (all_data temp_df folders) as [|fr frs] eqn:Ea; [contradiction|].
  cbn [empty]. cbv zeta.
  destruct (draw t_ppf pearson_p (concat (fr :: frs)) figure_turns)
    as [plots [|]] eqn:E.
  - destruct (draw_true _ _ _ _ _ E) as [[m [g [r [_ [_ Hraise]]]]] _].
    rewrite Hno in Hraise. discriminate Hraise.
  - eexists. reflexivity.
Qed.

(** C6, amended: the run aborts at the check of line 125 if and only if no
    case folder has both a primary file and a row in the temperature table;
    it has then written no summary and no plot.  In every other case the
    check passes.  The run then ends in one of two ways: it is stopped at
    line 162, with plot files written at most, exactly when the frame of one
    (metric, region) pair of the loops makes [linregress] raise; or it goes
    to its end and writes the summary table and the legend last. *)
Theorem C6_abort_iff_no_frame
    (t_ppf : R -> Z -> fval) (pearson_p : Series -> Series -> fval)
    (temp_df : list TempRow) (folders : list CaseFolder) :
  ((exists written, run t_ppf pearson_p temp_df folders = Aborted written)
   <-> forall f, In f folders ->
         file_main f = None \/ temp_rows temp_df (case_name f) = [])
  /\ (forall written,
        run t_ppf pearson_p temp_df folders = Aborted written -> written = [])
  /\ ((exists written, run t_ppf pearson_p temp_df folders = Failed written)
      <-> (exists f, In f folders /\ file_main f <> None
                     /\ temp_rows temp_df (case_name f) <> [])
          /\ exists metric0 region0,
               In (metric0, region0) region_pairs
               /\ raises t_ppf pearson_p (concat (all_data temp_df folders))
                    metric0 region0 = true)
  /\ (forall written,
        run t_ppf pearson_p temp_df folders = Failed written ->
        forall out, In out written ->
          exists m g, out = PlotPng m g \/ out = PlotSvg m g)
  /\ (forall written,
        run t_ppf pearson_p temp_df folders = Completed written ->
        exists plots summary, written = plots ++ [SummaryCsv summary; LegendPng]).
Proof.
  split; [|split; [|split; [|split]]].
  - rewrite <- all_data_nil. split.
    + intros [written H]. now apply run_aborted in H.
    + intros H. exists []. now apply run_aborted.
  - intros written H. now apply run_aborted in H.
  - rewrite run_failed. split; intros [Hne Hp]; (split; [|exact Hp]).
    + clear Hp. unfold all_data in Hne.
      induction folders as [|f fs IH]; [now contradiction Hne|].
      cbn [flat_map] in Hne.
      destruct (case_frames temp_df f) as [|fr frs] eqn:E.
      * destruct IH as [g [Hg H]]; [exact Hne|]. exists g. split; [now right|exact H].
      * exists f. split; [now left|].
        split; intros H; rewrite (proj2 (case_frames_nil temp_df f)) in E;
          try discriminate E; [now left|now right].
    + destruct Hne as [f [Hf [Hm Ht]]]. intros E.
      destruct (proj1 (all_data_nil temp_df folders) E f Hf); contradiction.
  - apply run_failed_plots.
  - intros written H. apply run_completed in H. destruct H as [-> _].
    eexists. eexists. reflexivity.
Qed.

(** A case with a temperature row whose primary file holds a row of an
    excluded region only: the aggregated table is empty and the run goes
    through. *)
Lemma C6_no_row_no_abort :
  concat (all_data empty_case_temps empty_case) = []
  /\ run t_ppf_sample pearson_p_sample empty_case_temps empty_case
     = Completed [SummaryCsv []; LegendPng].
Proof. split; reflexivity. Qed.

(** ** Sample runs *)

Lemma sample_frame :
  region_frame "FA" "Caudate" (concat (all_data two_temps two_cases)) = two_obs.
Proof. reflexivity. Qed.

Lemma sample_data : concat (all_data two_temps two_cases) = two_obs.
Proof. reflexivity. Qed.

Lemma sample_no_raise (t_ppf : R -> Z -> fval) (pearson_p : Series -> Series -> fval)
    (metric0 region0 : string) :
  raises t_ppf pearson_p two_obs metric0 region0 = false.
Proof.
  unfold raises, region_frame, two_obs. cbn [filter obs_row metric region].
  destruct (("FA" =? metric0)%string && ("Caudate" =? region0)%string)%bool.
  - destruct two_obs_valid as [Hlen [Hvalid Hspread]].
    assert (Hlen2 : (2 <= len two_obs)%Z) by (rewrite Hlen; lia).
    destruct (fit_outcome_cases t_ppf pearson_p region0 metric0 two_obs Hlen2 Hvalid)
      as [_ [_ [_ [[_ [Hs _]]|[_ [_ [_ Ho]]]]]]]; [contradiction|].
    unfold two_obs in Ho. now rewrite Ho.
  - reflexivity.
Qed.

Lemma sample_fit_frame (t_ppf : R -> Z -> fval) (pearson_p : Series -> Series -> fval)
    (region0 metric0 : string) :
  fit_frame t_ppf pearson_p region0 metric0 two_obs
  = Some (summarise t_ppf pearson_p region0 metric0
            (temperatures two_obs) (values two_obs)).
Proof.
  destruct two_obs_valid as [Hlen [Hvalid Hspread]].
  assert (Hlen2 : (2 <= len two_obs)%Z) by (rewrite Hlen; lia).
  destruct (fit_outcome_cases t_ppf pearson_p region0 metric0 two_obs Hlen2 Hvalid)
    as [_ [_ [_ [[_ [Hs _]]|[_ [_ [_ Ho]]]]]]]; [contradiction|].
  unfold fit_frame. now rewrite Ho.
Qed.

(** The sample of the specification: temperatures 10 and 30, values 0.5 and
    0.7. *)
Lemma sample_pearson_r :
  pearson_r [Finite 10; Finite 30] [Finite 0.5; Finite 0.7] = Finite 1.
Proof.
  change (pearson_r (map Finite [10; 30]) (map Finite [0.5; 0.7]) = Finite 1).
  unfold pearson_r. rewrite !reals_finite, !SS_two.
  replace ((10 - 30) * (10 - 30) / 2 * ((0.5 - 0.7) * (0.5 - 0.7) / 2))
    with (2 * 2) by lra.
  rewrite fsqrt_finite by lra. rewrite sqrt_square by lra.
  rewrite fdiv_finite by lra. f_equal. lra.
Qed.

Lemma sample_least_squares :
  least_squares [Finite 10; Finite 30] [Finite 0.5; Finite 0.7]
  = (Finite 0.01, Finite 0.4, Finite 1).
Proof.
  change (least_squares (map Finite [10; 30]) (map Finite [0.5; 0.7])
          = (Finite 0.01, Finite 0.4, Finite 1)).
  assert (Hne : [10; 30] <> []) by discriminate.
  assert (Hxx : SS [10; 30] [10; 30] <> 0) by (rewrite SS_two; lra).
  assert (Hyy : SS [0.5; 0.7] [0.5; 0.7] <> 0) by (rewrite SS_two; lra).
  pose proof (least_squares_rvalue [10; 30] [0.5; 0.7] Hne Hxx Hyy) as Hr.
  destruct (least_squares_regular [10; 30] [0.5; 0.7] Hne Hxx) as [rv E].
  rewrite E in Hr |- *. cbn [snd] in Hr. subst rv.
  change (pearson_r (map Finite [10; 30]) (map Finite [0.5; 0.7]))
    with (pearson_r [Finite 10; Finite 30] [Finite 0.5; Finite 0.7]).
  rewrite sample_pearson_r, !SS_two, !Rmean_two.
  repeat f_equal; lra.
Qed.


Lemma sample_run_completes :
  exists written,
    run t_ppf_sample pearson_p_sample two_temps two_cases = Completed written.
Proof.
  apply run_completes; [discriminate|].
  intros m r. rewrite sample_data. apply sample_no_raise.
Qed.

(** Two cases scanned at the same temperature: the series of (FA, Caudate)
    passes the validity test, and the run is stopped in the first figure,
    before any file is written. *)
Lemma same_temperature_run :
  region_frame "FA" "Caudate"
    (concat (all_data same_temperature_temps same_temperature_cases))
  = same_temperature_obs
  /\ run t_ppf_sample pearson_p_sample same_temperature_temps same_temperature_cases
     = Failed [].
Proof.
  split; [reflexivity|].
  assert (Hdata : concat (all_data same_temperature_temps same_temperature_cases)
                  = same_temperature_obs) by reflexivity.
  assert (Hraise : raises t_ppf_sample pearson_p_sample same_temperature_obs
                     "FA" "Caudate" = true).
  { unfold raises.
    change (region_frame "FA" "Caudate" same_temperature_obs)
      with same_temperature_obs.
    now rewrite same_temperature_raises. }
  unfold run.
  change (empty (all_data same_temperature_temps same_temperature_cases)) with false.
  cbv zeta. cbv iota. rewrite Hdata.
  unfold figure_turns, metrics, structure_groups.
  cbn [flat_map map app draw snd existsb]. rewrite Hraise. reflexivity.
Qed.

(** On two cases scanned at the same temperature the division of line 170
    is not reached: the series passes the validity test, the sum [s_xx] the
    division would use is zero, and the run ends at line 162 with no record
    and no file. *)
Lemma C9_division_never_reached :
  valid_series (temperatures same_temperature_obs) (values same_temperature_obs) = true
  /\ s_xx (temperatures same_temperature_obs) = Finite 0
  /\ fit_outcome t_ppf_sample pearson_p_sample "Caudate" "FA" same_temperature_obs
     = Raised
  /\ fit_frame t_ppf_sample pearson_p_sample "Caudate" "FA" same_temperature_obs
     = None
  /\ run t_ppf_sample pearson_p_sample same_temperature_temps same_temperature_cases
     = Failed [].
Proof.
  destruct same_temperature_valid as [_ [_ [_ [_ [Hvalid _]]]]].
  pose proof (same_temperature_raises t_ppf_sample pearson_p_sample "Caudate" "FA")
    as Hraise.
  split; [exact Hvalid|]. split; [|split; [exact Hraise|split]].
  - change (temperatures same_temperature_obs) with (map Finite [20; 20]).
    rewrite s_xx_finite by discriminate. f_equal.
    apply (SS_constant 20); [discriminate|].
    intros v [<-|[<-|[]]]; reflexivity.
  - unfold fit_frame. now rewrite Hraise.
  - apply same_temperature_run.
Qed.

(** Two rows at one temperature pass the validity test and get no record;
    and in doubles the residual sum of a two-point fit need not be zero: for
    the points (4, 0.5) and (10, 0.3) it is positive and the residual
    standard error is plus infinity, not the root of 0/0. *)
Lemma C10_two_rows_without_record :
  len same_temperature_obs = 2%Z
  /\ valid_series (temperatures same_temperature_obs) (values same_temperature_obs)
     = true
  /\ fit_frame t_ppf_sample pearson_p_sample "Caudate" "FA" same_temperature_obs
     = None
  /\ PrimFloat.ltb 0 (b64_residual_ss b64_cold_x b64_cold_y
                        (fst (fst (b64_least_squares b64_cold_x b64_cold_y)))
                        (snd (fst (b64_least_squares b64_cold_x b64_cold_y))))
     = true
  /\ b64_se_y b64_cold_x b64_cold_y
       (fst (fst (b64_least_squares b64_cold_x b64_cold_y)))
       (snd (fst (b64_least_squares b64_cold_x b64_cold_y)))
     = infinity.
Proof.
  destruct same_temperature_valid as [_ [_ [_ [_ [Hvalid _]]]]].
  split; [reflexivity|]. split; [exact Hvalid|]. split; [|split].
  - unfold fit_frame. now rewrite same_temperature_raises.
  - vm_compute. reflexivity.
  - vm_compute. reflexivity.
Qed.

(** ** Formatting *)

Lemma digit_char (z : Z) :
  (0 <= z <= 9)%Z ->
  is_digit (digit z) = true
  /\ (digit z =? "e")%char = false
  /\ (digit z =? ".")%char = false.
Proof.
  intros H.
  assert (C : (z = 0 \/ z = 1 \/ z = 2 \/ z = 3 \/ z = 4 \/ z = 5 \/ z = 6
               \/ z = 7 \/ z = 8 \/ z = 9)%Z) by lia.
  destruct C as [->|[->|[->|[->|[->|[->|[->|[->|[->| ->]]]]]]]]];
    repeat split; reflexivity.
Qed.

Lemma string_app_assoc (a b c : string) :
  ((a ++ b) ++ c = a ++ (b ++ c))%string.
Proof. induction a as [|ch a IH]; cbn [append]; [|rewrite IH]; reflexivity. Qed.

Lemma significand_fixed_digits (k : nat) (m : Z) (rest : string) :
  significand_digits (fixed_digits k m ++ rest)
  = (k + significand_digits rest)%nat.
Proof.
  revert m rest. induction k as [|k IH]; intros m rest; [reflexivity|].
  cbn [fixed_digits]. rewrite string_app_assoc, IH. cbn [append significand_digits].
  destruct (digit_char (m mod 10)) as [Hd [He _]].
  { pose proof (Z.mod_pos_bound m 10). lia. }
  rewrite He, Hd. lia.
Qed.

Lemma Int_part_nonneg (a : R) : 0 <= a -> (0 <= Int_part a)%Z.
Proof.
  intros H. destruct (base_Int_part a) as [_ Hlow].
  assert (Hlt : IZR (-1) < IZR (Int_part a)) by lra.
  apply lt_IZR in Hlt. lia.
Qed.

Lemma round_half_even_nonneg (a : R) : 0 <= a -> (0 <= round_half_even a)%Z.
Proof.
  intros H. pose proof (Int_part_nonneg a H). unfold round_half_even.
  destruct (Rlt_dec _ _); [lia|].
  destruct (Rlt_dec _ _); [lia|].
  destruct (Z.even _); lia.
Qed.

(** The integer of the digits stays below [10^(precision + 1)]. *)
Lemma sci_parts_range (a : R) (precision : nat) :
  0 <= a ->
  (0 <= fst (sci_parts a precision) < 10 ^ Z.of_nat (S precision))%Z.
Proof.
  intros H. unfold sci_parts.
  assert (Hpow : (0 < 10 ^ Z.of_nat precision < 10 ^ Z.of_nat (S precision))%Z).
  { split; [apply Z.pow_pos_nonneg; lia|apply Z.pow_lt_mono_r; lia]. }
  destruct (Rzero a); cbn [fst]; [lia|].
  set (m := round_half_even _).
  assert (Hm : (0 <= m)%Z).
  { apply round_half_even_nonneg. apply Rmult_le_pos; [exact H|].
    apply powerRZ_le. lra. }
  destruct (10 ^ Z.of_nat (S precision) <=? m)%Z eqn:E; cbn [fst].
  - lia.
  - apply Z.leb_gt in E. lia.
Qed.

Lemma leading_digit (m : Z) (precision : nat) :
  (0 <= m < 10 ^ Z.of_nat (S precision))%Z ->
  (0 <= m / 10 ^ Z.of_nat precision <= 9)%Z.
Proof.
  intros [H0 H1].
  assert (Hp : (0 < 10 ^ Z.of_nat precision)%Z) by (apply Z.pow_pos_nonneg; lia).
  split; [apply Z.div_pos; lia|].
  assert (m / 10 ^ Z.of_nat precision < 10)%Z; [|lia].
  apply Z.div_lt_upper_bound; [exact Hp|].
  rewrite Nat2Z.inj_succ, Z.pow_succ_r in H1 by lia. lia.
Qed.

(** A finite number is printed with one digit before the point and
    [precision] digits after it. *)
Lemma format_sci_digits (v : R) (precision : nat) :
  significand_digits (format_sci (Finite v) precision) = S precision
  /\ fraction_digits (format_sci (Finite v) (S precision)) = S precision.
Proof.
  assert (Hlead : forall p,
    exists d, is_digit d = true /\ (d =? "e")%char = false /\ (d =? ".")%char = false
      /\ format_sci (Finite v) p
         = ((if Rsign v then "-" else "")
            ++ String d (match p with
                         | O => ""
                         | _ => "." ++ fixed_digits p (fst (sci_parts (Rabs v) p))
                         end
                         ++ "e" ++ format_exponent (snd (sci_parts (Rabs v) p))))%string).
  { intros p. pose proof (sci_parts_range (Rabs v) p (Rabs_pos v)) as Hr.
    destruct (digit_char _ (leading_digit _ _ Hr)) as [Hd [He Hp]].
    eexists. repeat split; [exact Hd|exact He|exact Hp|].
    cbn [format_sci].
    destruct (sci_parts (Rabs v) p) as [m e]. cbn [fst snd].
    unfold format_mantissa. cbn [append]. reflexivity. }
  split.
  - destruct (Hlead precision) as [d [Hd [He [_ E]]]]. rewrite E.
    assert (Hbody : forall s, significand_digits
                                ((if Rsign v then "-" else "") ++ s)%string
                              = significand_digits s).
    { intros s. destruct (Rsign v); reflexivity. }
    rewrite Hbody. cbn [significand_digits]. rewrite He, Hd.
    destruct precision as [|p]; [reflexivity|].
    cbn [append significand_digits].
    change ("." =? "e")%char with false. change (is_digit ".") with false.
    cbn [Nat.add]. rewrite significand_fixed_digits. cbn [significand_digits].
    change ("e" =? "e")%char with true. cbv iota. lia.
  - destruct (Hlead (S precision)) as [d [Hd [He [Hp E]]]]. rewrite E.
    assert (Hbody : forall s, fraction_digits
                                ((if Rsign v then "-" else "") ++ s)%string
                              = fraction_digits s).
    { intros s. destruct (Rsign v); reflexivity. }
    rewrite Hbody. cbn [fraction_digits append]. rewrite Hp.
    change ("." =? ".")%char with true.
    rewrite significand_fixed_digits. cbn [significand_digits].
    change ("e" =? "e")%char with true. cbv iota. lia.
Qed.

Lemma Int_part_IZR (z : Z) : Int_part (IZR z) = z.
Proof. symmetry. apply Int_part_spec. lra. Qed.

Lemma round_half_even_IZR (z : Z) : round_half_even (IZR z) = z.
Proof.
  unfold round_half_even. rewrite Int_part_IZR.
  destruct (Rlt_dec (IZR z - IZR z) (1 / 2)); [reflexivity|lra].
Qed.

Lemma sci_exponent_one : sci_exponent 1 = 0%Z.
Proof.
  unfold sci_exponent. rewrite ln_1.
  replace (0 / ln 10) with (IZR 0) by (unfold Rdiv; ring).
  apply Int_part_IZR.
Qed.

Lemma format_sci_one_4 : format_sci (Finite 1) 4 = "1.0000e+00"%string.
Proof.
  assert (E : sci_parts (Rabs 1) 4 = (10000, 0)%Z).
  { unfold sci_parts. rewrite Rabs_R1, (Rzero_false 1) by lra.
    rewrite sci_exponent_one.
    replace (1 * powerRZ 10 (Z.of_nat 4 - 0)) with (IZR 10000)
      by (change (Z.of_nat 4 - 0)%Z with 4%Z; unfold powerRZ; simpl; lra).
    rewrite round_half_even_IZR. reflexivity. }
  cbn [format_sci]. rewrite E, (Rsign_false 1) by lra. reflexivity.
Qed.

Lemma format_sci_one_2 : format_sci (Finite 1) 2 = "1.00e+00"%string.
Proof.
  assert (E : sci_parts (Rabs 1) 2 = (100, 0)%Z).
  { unfold sci_parts. rewrite Rabs_R1, (Rzero_false 1) by lra.
    rewrite sci_exponent_one.
    replace (1 * powerRZ 10 (Z.of_nat 2 - 0)) with (IZR 100)
      by (change (Z.of_nat 2 - 0)%Z with 2%Z; unfold powerRZ; simpl; lra).
    rewrite round_half_even_IZR. reflexivity. }
  cbn [format_sci]. rewrite E, (Rsign_false 1) by lra. reflexivity.
Qed.

(** C8, amended: in every summary record the Pearson r and R_square fields
    are numbers printed by [format_sci] with precision 4 and the p-value,
    slope, slope CI, intercept and intercept CI with precision 2; a finite
    number printed with precision [k] has one digit before the point and [k]
    digits after it, so 5 significant digits for the former fields and 3 for
    the latter; a number that is not finite is printed nan, inf or -inf. *)
Theorem C8_fields_precision
    (t_ppf : R -> Z -> fval) (pearson_p : Series -> Series -> fval)
    (region0 metric0 : string) (x y : Series) :
  let rec := summarise t_ppf pearson_p region0 metric0 x y in
  (exists r p slope slope_half intercept intercept_half r_squared,
      Pearson_r rec = format_sci r 4
      /\ R_square rec = format_sci r_squared 4
      /\ p_value rec = format_sci p 2
      /\ Slope_a rec
         = (format_sci slope 2 ++ " ± " ++ format_sci slope_half 2)%string
      /\ Intercept_b rec
         = (format_sci intercept 2 ++ " ± " ++ format_sci intercept_half 2)%string)
  /\ (forall v : R,
        significand_digits (format_sci (Finite v) 4) = 5%nat
        /\ fraction_digits (format_sci (Finite v) 4) = 4%nat
        /\ significand_digits (format_sci (Finite v) 2) = 3%nat
        /\ fraction_digits (format_sci (Finite v) 2) = 2%nat)
  /\ (forall precision : nat,
        format_sci NaN precision = "nan"%string
        /\ format_sci (Infinite false) precision = "inf"%string
        /\ format_sci (Infinite true) precision = "-inf"%string).
Proof.
  cbv zeta. split; [|split].
  - unfold summarise, pearsonr.
    destruct (least_squares x y) as [[slope intercept] r_val].
    do 7 eexists. repeat split; reflexivity.
  - intros v.
    pose proof (format_sci_digits v 4) as [H4 _].
    pose proof (format_sci_digits v 3) as [_ F4].
    pose proof (format_sci_digits v 2) as [H2 _].
    pose proof (format_sci_digits v 1) as [_ F2].
    repeat split; assumption.
  - intros precision. repeat split; reflexivity.
Qed.

(** The record of the two-point sample: r is printed "1.0000e+00", five
    significant digits, and the p-value "1.00e+00", three. *)
Lemma C8_five_significant_digits :
  exists rec,
    fit_region t_ppf_sample pearson_p_sample
      (concat (all_data two_temps two_cases)) "FA" "Caudate" = Some rec
    /\ Pearson_r rec = "1.0000e+00"%string
    /\ significand_digits (Pearson_r rec) = 5%nat
    /\ p_value rec = "1.00e+00"%string
    /\ significand_digits (p_value rec) = 3%nat.
Proof.
  unfold fit_region. rewrite sample_frame.
  rewrite (sample_fit_frame t_ppf_sample pearson_p_sample "Caudate" "FA").
  eexists. split; [reflexivity|].
  unfold summarise, pearsonr, pearson_p_sample.
  change (temperatures two_obs) with [Finite 10; Finite 30].
  change (values two_obs) with [Finite 0.5; Finite 0.7].
  rewrite sample_least_squares, sample_pearson_r.
  cbn [Pearson_r p_value]. rewrite format_sci_one_4, format_sci_one_2.
  repeat split; reflexivity.
Qed.

(** * Further properties of the ingestion *)

Lemma in_merged_main (main : DataFrame) (t1 : option DataFrame) (r : Row) :
  In r (merged_main main t1) ->
  existsb (String.eqb (region r)) region_exclude = false
  /\ exists r0,
       (In r0 main \/ exists c, t1 = Some c /\ In r0 c)
       /\ row_key r0 = row_key r.
Proof.
  assert (Hmain : In r (groupby_first (drop_excluded main)) ->
                  existsb (String.eqb (region r)) region_exclude = false
                  /\ exists r0, In r0 main /\ row_key r0 = row_key r).
  { intros H. destruct (groupby_first_origin _ _ H) as [r0 [H0 Hk]].
    apply filter_In in H0. destruct H0 as [H0 Hx].
    assert (Hreg : region r0 = region r) by (unfold row_key in Hk; congruence).
    rewrite <- Hreg. split; [now apply negb_true_iff in Hx|].
    now exists r0. }
  unfold merged_main. destruct t1 as [[|c0 c]|]; cbn [empty negb].
  - intros H. destruct (Hmain H) as [Hx [r0 [H0 Hk]]].
    split; [exact Hx|]. exists r0. split; [now left|exact Hk].
  - intros H. apply in_app_or in H. destruct H as [H|H].
    + apply filter_In in H. destruct H as [H _].
      destruct (Hmain H) as [Hx [r0 [H0 Hk]]].
      split; [exact Hx|]. exists r0. split; [now left|exact Hk].
    + destruct (groupby_first_origin _ _ H) as [r0 [H0 Hk]].
      apply filter_In in H0. destruct H0 as [H0 _].
      apply filter_In in H0. destruct H0 as [H0 Hx].
      assert (Hreg : region r0 = region r) by (unfold row_key in Hk; congruence).
      rewrite <- Hreg. split; [now apply negb_true_iff in Hx|].
      exists r0. split; [right; exists (c0 :: c); now split|exact Hk].
  - intros H. destruct (Hmain H) as [Hx [r0 [H0 Hk]]].
    split; [exact Hx|]. exists r0. split; [now left|exact Hk].
Qed.

(** Where a row that a case contributes comes from. *)
Lemma in_case_rows (temp_df : list TempRow) (f : CaseFolder) (o : Obs) :
  In o (case_rows temp_df f) ->
  exists main trow others temp_col,
    file_main f = Some main
    /\ temp_rows temp_df (case_name f) = trow :: others
    /\ In (metric (obs_row o)) metrics
    /\ temp_map (metric (obs_row o)) = Some temp_col
    /\ temperature o = temp_col trow
    /\ In (obs_row o) (merged_main main (file_t1 f)).
Proof.
  unfold case_rows, case_frames. intros H.
  destruct (file_main f) as [main|]; [|contradiction].
  destruct (temp_rows temp_df (case_name f)) as [|trow others]; [contradiction|].
  cbn [empty] in H. apply in_concat in H. destruct H as [fr [Hfr Ho]].
  apply in_flat_map in Hfr. destruct Hfr as [m [Hm Hfr]].
  destruct (metric_frames_always (merged_main main (file_t1 f)) trow others m Hm)
    as [temp_col [Hcol E]].
  rewrite E in Hfr. destruct Hfr as [<-|[]].
  unfold with_temperature in Ho. apply in_map_iff in Ho.
  destruct Ho as [r [<- Hr]]. apply filter_In in Hr. destruct Hr as [Hr Hmet].
  apply String.eqb_eq in Hmet. cbn [obs_row temperature]. rewrite Hmet.
  exists main, trow, others, temp_col. repeat split; assumption.
Qed.

Lemma in_data (temp_df : list TempRow) (folders : list CaseFolder) (o : Obs) :
  In o (concat (all_data temp_df folders))
  <-> exists f, In f folders /\ In o (case_rows temp_df f).
Proof.
  unfold all_data, case_rows. rewrite in_concat. split.
  - intros [fr [Hfr Ho]]. apply in_flat_map in Hfr. destruct Hfr as [f [Hf Hfr]].
    exists f. split; [exact Hf|]. apply in_concat. now exists fr.
  - intros [f [Hf Ho]]. apply in_concat in Ho. destruct Ho as [fr [Hfr Ho]].
    exists fr. split; [|exact Ho]. apply in_flat_map. now exists f.
Qed.

(** X1: every row of the aggregated table is one of the rows that a case
    folder contributes; that folder has a primary file and a row in the
    temperature table, the measurement of the row is a row of the folder's
    merged table, and the row carries the cell of the first temperature row
    whose case is the folder's name, in the column mapped to the row's
    metric. *)
Theorem data_row_origin (temp_df : list TempRow) (folders : list CaseFolder)
    (o : Obs) :
  In o (concat (all_data temp_df folders)) ->
  exists f main trow others temp_col,
    In f folders
    /\ In o (case_rows temp_df f)
    /\ In (obs_row o) (merged_main main (file_t1 f))
    /\ file_main f = Some main
    /\ temp_rows temp_df (case_name f) = trow :: others
    /\ In trow temp_df /\ tcase trow = case_name f
    /\ temp_map (metric (obs_row o)) = Some temp_col
    /\ temperature o = temp_col trow.
Proof.
  intros H. apply in_data in H. destruct H as [f [Hf Ho]].
  destruct (in_case_rows _ _ _ Ho) as [main [trow [others [col H]]]].
  destruct H as [Hm [Ht [_ [Hc [Htemp Hrow]]]]].
  assert (Hin : In trow (temp_rows temp_df (case_name f)))
    by (rewrite Ht; now left).
  apply filter_In in Hin. destruct Hin as [Hin Hname].
  apply String.eqb_eq in Hname.
  exists f, main, trow, others, col. repeat split; assumption.
Qed.

Lemma data_row_origin_witness :
  In (mkObs (mkRow "case10" "FA" "Caudate" (Finite 0.5)) (Some 10))
     (concat (all_data two_temps two_cases))
  /\ exists f main trow others temp_col,
       In f two_cases
       /\ In (mkObs (mkRow "case10" "FA" "Caudate" (Finite 0.5)) (Some 10))
            (case_rows two_temps f)
       /\ In (mkRow "case10" "FA" "Caudate" (Finite 0.5))
            (merged_main main (file_t1 f))
       /\ file_main f = Some main
       /\ temp_rows two_temps (case_name f) = trow :: others
       /\ In trow two_temps /\ tcase trow = case_name f
       /\ temp_map "FA" = Some temp_col
       /\ Some 10 = temp_col trow.
Proof.
  assert (H : In (mkObs (mkRow "case10" "FA" "Caudate" (Finite 0.5)) (Some 10))
                 (concat (all_data two_temps two_cases))) by (left; reflexivity).
  split; [exact H|].
  exact (data_row_origin two_temps two_cases _ H).
Defined.

(** X2: no row of the aggregated table is of an excluded region, whether it
    comes from a primary file or from a corrected-T1 file. *)
Theorem data_has_no_excluded_region (temp_df : list TempRow)
    (folders : list CaseFolder) (o : Obs) :
  In o (concat (all_data temp_df folders)) ->
  ~ In (region (obs_row o)) region_exclude.
Proof.
  intros H Hex. apply in_data in H. destruct H as [f [_ Ho]].
  destruct (in_case_rows _ _ _ Ho) as [main [_ [_ [_ [_ [_ [_ [_ [_ Hr]]]]]]]]].
  destruct (in_merged_main _ _ _ Hr) as [Hx _].
  assert (Ht : existsb (String.eqb (region (obs_row o))) region_exclude = true).
  { apply existsb_exists. exists (region (obs_row o)). split; [exact Hex|].
    apply String.eqb_refl. }
  congruence.
Qed.

Lemma data_has_no_excluded_region_witness :
  In (mkObs (mkRow "case10" "FA" "Caudate" (Finite 0.5)) (Some 10))
     (concat (all_data two_temps two_cases))
  /\ ~ In "Caudate"%string region_exclude.
Proof.
  assert (H : In (mkObs (mkRow "case10" "FA" "Caudate" (Finite 0.5)) (Some 10))
                 (concat (all_data two_temps two_cases))) by (left; reflexivity).
  split; [exact H|].
  exact (data_has_no_excluded_region two_temps two_cases _ H).
Defined.

(** X3: every row of the aggregated table is of one of the five metrics;
    rows of any other metric in a case file are dropped. *)
Theorem data_metrics_are_listed (temp_df : list TempRow)
    (folders : list CaseFolder) (o : Obs) :
  In o (concat (all_data temp_df folders)) ->
  In (metric (obs_row o)) metrics.
Proof.
  intros H. apply in_data in H. destruct H as [f [_ Ho]].
  destruct (in_case_rows _ _ _ Ho) as [main [? [? [? [_ [_ [Hm _]]]]]]].
  exact Hm.
Qed.

Lemma data_metrics_are_listed_witness :
  In (mkObs (mkRow "case10" "FA" "Caudate" (Finite 0.5)) (Some 10))
     (concat (all_data two_temps two_cases))
  /\ In "FA"%string metrics.
Proof.
  assert (H : In (mkObs (mkRow "case10" "FA" "Caudate" (Finite 0.5)) (Some 10))
                 (concat (all_data two_temps two_cases))) by (left; reflexivity).
  split; [exact H|].
  exact (data_metrics_are_listed two_temps two_cases _ H).
Defined.

(** ** Keys of the rows of one case *)

Lemma NoDup_map_filter {A B} (g : A -> B) (p : A -> bool) (l : list A) :
  NoDup (map g l) -> NoDup (map g (filter p l)).
Proof.
  induction l as [|a t IH]; cbn [map filter]; intros H; [constructor|].
  inversion H as [|? ? Hn Ht]; subst.
  destruct (p a); cbn [map]; [|now apply IH].
  constructor; [|now apply IH].
  intros Hin. apply Hn. apply in_map_iff in Hin.
  destruct Hin as [b [E Hb]]. apply filter_In in Hb.
  apply in_map_iff. exists b. now split.
Qed.

Lemma groupby_first_NoDup (df : DataFrame) : NoDup (map row_key (groupby_first df)).
Proof. rewrite groupby_first_keys. apply group_keys_NoDup. Qed.

Lemma merged_main_NoDup (main : DataFrame) (t1 : option DataFrame) :
  NoDup (map row_key (merged_main main t1)).
Proof.
  unfold merged_main. destruct t1 as [[|c0 c]|]; cbn [empty negb];
    try apply groupby_first_NoDup.
  rewrite map_app. apply NoDup_app.
  - apply NoDup_map_filter, groupby_first_NoDup.
  - apply groupby_first_NoDup.
  - intros k Hk Hk'.
    apply in_map_iff in Hk. destruct Hk as [a [<- Ha]].
    apply in_map_iff in Hk'. destruct Hk' as [b [E Hb]].
    apply filter_In in Ha. destruct Ha as [_ Ha]. apply negb_true_iff in Ha.
    apply groupby_first_metric in Hb.
    assert (Hm : metric b = metric a) by (unfold row_key in E; congruence).
    rewrite <- Hm, Hb in Ha. discriminate Ha.
Qed.

Lemma metrics_NoDup : NoDup metrics.
Proof.
  unfold metrics. repeat constructor; cbn [In]; intros H;
    repeat (destruct H as [H|H]; [discriminate H|]); exact H.
Qed.

Lemma NoDup_by_metric (D : DataFrame) (ms : list string) :
  NoDup (map row_key D) -> NoDup ms ->
  NoDup (map row_key (flat_map (fun m => with_metric m D) ms)).
Proof.
  intros HD Hms. induction Hms as [|m ms Hm Hms IH]; cbn [flat_map map].
  - constructor.
  - rewrite map_app. apply NoDup_app; [now apply NoDup_map_filter|exact IH|].
    intros k Hk Hk'.
    apply in_map_iff in Hk. destruct Hk as [a [<- Ha]].
    apply in_map_iff in Hk'. destruct Hk' as [b [E Hb]].
    apply filter_In in Ha. destruct Ha as [_ Ha]. apply String.eqb_eq in Ha.
    apply in_flat_map in Hb. destruct Hb as [m' [Hm' Hb]].
    apply filter_In in Hb. destruct Hb as [_ Hb]. apply String.eqb_eq in Hb.
    assert (Hab : metric b = metric a) by (unfold row_key in E; congruence).
    apply Hm. congruence.
Qed.

Lemma case_rows_keys (temp_df : list TempRow) (f : CaseFolder)
    (main : DataFrame) (trow : TempRow) (others : list TempRow) :
  file_main f = Some main ->
  temp_rows temp_df (case_name f) = trow :: others ->
  map (fun o => row_key (obs_row o)) (case_rows temp_df f)
  = map row_key (flat_map (fun m => with_metric m (merged_main main (file_t1 f)))
                          metrics).
Proof.
  intros Hm Ht. unfold case_rows, case_frames. rewrite Hm, Ht. cbn [empty].
  unfold metrics. cbn [flat_map]. unfold metric_frames.
  cbn [temp_map String.eqb Ascii.eqb Bool.eqb map app concat].
  unfold with_temperature. rewrite !map_app, !map_map, !app_nil_r. reflexivity.
Qed.

(** X4: among the rows one case contributes to the aggregated table no two
    share their (case, metric, region), also when corrected T1 rows have
    replaced the primary ones. *)
Theorem case_rows_keys_unique (temp_df : list TempRow) (f : CaseFolder) :
  NoDup (map (fun o => row_key (obs_row o)) (case_rows temp_df f)).
Proof.
  destruct (file_main f) as [main|] eqn:Hm.
  - destruct (temp_rows temp_df (case_name f)) as [|trow others] eqn:Ht.
    + unfold case_rows, case_frames. rewrite Hm, Ht. constructor.
    + rewrite (case_rows_keys temp_df f main trow others Hm Ht).
      apply NoDup_by_metric; [apply merged_main_NoDup|apply metrics_NoDup].
  - unfold case_rows, case_frames. rewrite Hm. constructor.
Qed.

(** ** Values of the deduplicated rows *)

Lemma first_notnull_cases (s : Series) :
  first_notnull s = NaN
  \/ (In (first_notnull s) s /\ isnull (first_notnull s) = false).
Proof.
  induction s as [|a t IH]; cbn [first_notnull]; [now left|].
  destruct (isnull a) eqn:E.
  - destruct IH as [IH|[IH IH']]; [now left|right]. split; [now right|exact IH'].
  - right. split; [now left|exact E].
Qed.

(** X5: deduplication invents no value: the value of a surviving row is
    missing or is the value of a row of the file with the same (case,
    metric, region); it is missing only when every row of that key has a
    missing value. *)
Theorem groupby_first_value_origin (df : DataFrame) (row : Row) :
  In row (groupby_first df) ->
  (exists r, In r df /\ row_key r = row_key row /\ value r = value row
             /\ isnull (value row) = false)
  \/ (value row = NaN
      /\ forall r, In r df -> row_key r = row_key row -> value r = NaN).
Proof.
  intros H. rewrite (groupby_first_value df row H).
  set (k := row_key row).
  destruct (first_notnull_cases (map value (group k df))) as [E|[Hin Hnn]].
  - right. split; [exact E|].
    intros r Hr Hk.
    assert (Hg : In r (group k df)).
    { apply filter_In. split; [exact Hr|]. now apply key_eqb_eq. }
    clear H. induction (group k df) as [|a t IH]; [contradiction|].
    cbn [map first_notnull] in E.
    destruct (value a) as [v|sg|] eqn:Ea; cbn [isnull] in E; try discriminate E.
    destruct Hg as [<-|Hg]; [exact Ea|now apply IH].
  - left. apply in_map_iff in Hin. destruct Hin as [r [E Hr]].
    apply filter_In in Hr. destruct Hr as [Hr Hk]. apply key_eqb_eq in Hk.
    exists r. repeat split; assumption.
Qed.

Lemma groupby_first_value_origin_witness :
  In (mkRow "A" "FA" "Caudate" (Finite 1))
     (groupby_first [mkRow "A" "FA" "Caudate" NaN; mkRow "A" "FA" "Caudate" (Finite 1)])
  /\ ((exists r,
         In r [mkRow "A" "FA" "Caudate" NaN; mkRow "A" "FA" "Caudate" (Finite 1)]
         /\ row_key r = ("A", "FA", "Caudate")%string
         /\ value r = Finite 1 /\ isnull (Finite 1) = false)
      \/ (Finite 1 = NaN
          /\ forall r,
               In r [mkRow "A" "FA" "Caudate" NaN; mkRow "A" "FA" "Caudate" (Finite 1)] ->
               row_key r = ("A", "FA", "Caudate")%string -> value r = NaN)).
Proof.
  assert (H : In (mkRow "A" "FA" "Caudate" (Finite 1))
                 (groupby_first [mkRow "A" "FA" "Caudate" NaN;
                                 mkRow "A" "FA" "Caudate" (Finite 1)]))
    by (left; reflexivity).
  split; [exact H|].
  exact (groupby_first_value_origin _ _ H).
Defined.

(** ** Order of the deduplicated rows *)

Lemma key_compare_antisym (a b : key) :
  key_compare a b = CompOpp (key_compare b a).
Proof.
  destruct a as [[c1 m1] r1], b as [[c2 m2] r2]. cbn [key_compare].
  rewrite (String.compare_antisym c1 c2).
  destruct (String.compare c2 c1); cbn [CompOpp]; try reflexivity.
  rewrite (String.compare_antisym m1 m2).
  destruct (String.compare m2 m1); cbn [CompOpp]; try reflexivity.
  apply String.compare_antisym.
Qed.

Lemma key_leb_total (a b : key) : key_leb a b = false -> key_leb b a = true.
Proof.
  unfold key_leb. rewrite (key_compare_antisym a b).
  destruct (key_compare b a); cbn [CompOpp]; intros H; try discriminate H; reflexivity.
Qed.

Lemma insert_key_sorted (k : key) (l : list key) :
  keys_sorted l = true -> keys_sorted (insert_key k l) = true.
Proof.
  induction l as [|h t IH]; intros H; [reflexivity|].
  cbn [insert_key]. destruct (key_leb k h) eqn:E.
  - cbn [keys_sorted]. cbn [keys_sorted] in H. now rewrite E, H.
  - pose proof (key_leb_total k h E) as Ehk.
    assert (Ht : keys_sorted t = true).
    { cbn [keys_sorted] in H. destruct t as [|b t']; [reflexivity|].
      now apply andb_true_iff in H. }
    specialize (IH Ht).
    destruct t as [|b t'].
    + cbn [insert_key keys_sorted]. now rewrite Ehk.
    + cbn [keys_sorted] in H. apply andb_true_iff in H. destruct H as [Hhb _].
      cbn [insert_key] in *. destruct (key_leb k b).
      * cbn [keys_sorted] in *. now rewrite Ehk, IH.
      * cbn [keys_sorted] in *. now rewrite Hhb, IH.
Qed.

Lemma sort_keys_sorted (l : list key) : keys_sorted (sort_keys l) = true.
Proof.
  induction l as [|h t IH]; [reflexivity|].
  cbn [sort_keys]. now apply insert_key_sorted.
Qed.

Lemma sort_keys_fixed (l : list key) : keys_sorted l = true -> sort_keys l = l.
Proof.
  induction l as [|a t IH]; intros H; [reflexivity|].
  cbn [sort_keys]. destruct t as [|b t'].
  - reflexivity.
  - cbn [keys_sorted] in H. apply andb_true_iff in H. destruct H as [Hab Ht].
    rewrite (IH Ht). cbn [insert_key]. now rewrite Hab.
Qed.

Lemma group_single (G : DataFrame) (row : Row) :
  NoDup (map row_key G) -> In row G -> group (row_key row) G = [row].
Proof.
  unfold group. induction G as [|a t IH]; intros Hnd Hin; [contradiction|].
  cbn [map] in Hnd. inversion Hnd as [|? ? Hn Ht]; subst.
  cbn [filter]. destruct Hin as [->|Hin].
  - rewrite key_eqb_refl. f_equal.
    apply filter_none. intros b Hb.
    destruct (key_eqb (row_key b) (row_key row)) eqn:E; [|reflexivity].
    apply key_eqb_eq in E. exfalso. apply Hn. rewrite <- E. now apply in_map.
  - destruct (key_eqb (row_key a) (row_key row)) eqn:E.
    + apply key_eqb_eq in E. exfalso. apply Hn. rewrite E. now apply in_map.
    + now apply IH.
Qed.

(** X6: the deduplicated table comes out in increasing order of (case,
    metric, region), and deduplicating it again changes nothing. *)
Theorem groupby_first_sorted_idempotent (df : DataFrame) :
  keys_sorted (map row_key (groupby_first df)) = true
  /\ groupby_first (groupby_first df) = groupby_first df.
Proof.
  assert (Hs : keys_sorted (map row_key (groupby_first df)) = true).
  { rewrite groupby_first_keys. apply sort_keys_sorted. }
  split; [exact Hs|].
  set (G := groupby_first df) in *.
  assert (Hnd : NoDup (map row_key G)) by apply groupby_first_NoDup.
  assert (Hk : group_keys G = map row_key G).
  { unfold group_keys. rewrite filter_all.
    - rewrite (nodup_fixed_point key_eq_dec Hnd). now apply sort_keys_fixed.
    - intros k Hin. unfold G in Hin.
      rewrite groupby_first_keys in Hin. apply group_keys_In in Hin.
      destruct Hin as [_ Hb]. now rewrite Hb. }
  unfold groupby_first at 1. rewrite Hk, map_map.
  transitivity (map (fun row : Row => row) G); [|apply map_id].
  apply map_ext_in.
  intros row Hrow. rewrite (group_single G row Hnd Hrow).
  destruct row as [c m r v]. cbn [row_key map first_notnull value].
  destruct v; reflexivity.
Qed.

(** * Further properties of the statistics stage *)

(** The tests of lines 151 and 157, row by row. *)
Lemma tests_by_rows (df : Frame) :
  ((len df <? 2)%Z = false
   /\ valid_series (temperatures df) (values df) = true)
  <-> ((2 <= length df)%nat
       /\ (forall o, In o df -> temperature o <> None)
       /\ (forall o, In o df -> isfinite (value (obs_row o)) = true)
       /\ exists o1 o2, In o1 df /\ In o2 df
                        /\ value (obs_row o1) <> value (obs_row o2)).
Proof.
  split.
  - intros [Hlen Hv].
    destruct (valid_frame df Hv) as [X [Y [HX [HY [_ [_ Hnu]]]]]].
    split; [now apply len_ge_2|]. split; [|split].
    + intros o Ho Hnone.
      assert (Hin : In (of_cell (temperature o)) (temperatures df)).
      { unfold temperatures.
        exact (in_map (fun o' => of_cell (temperature o')) df o Ho). }
      rewrite HX, Hnone in Hin. apply in_map_iff in Hin.
      destruct Hin as [v [E _]]. discriminate E.
    + intros o Ho.
      assert (Hin : In (value (obs_row o)) (values df)).
      { unfold values. apply in_map_iff. now exists o. }
      rewrite HY in Hin. apply in_map_iff in Hin.
      destruct Hin as [v [<- _]]. reflexivity.
    + destruct (nunique_two_inv _ Hnu) as [a [b [Ha [Hb Hab]]]].
      unfold values in Ha, Hb. apply in_map_iff in Ha, Hb.
      destruct Ha as [o1 [<- Ho1]]. destruct Hb as [o2 [<- Ho2]].
      now exists o1, o2.
  - intros [Hlen [Ht [Hf [o1 [o2 [Ho1 [Ho2 Hne]]]]]]].
    split; [apply Z.ltb_ge; unfold len; lia|].
    unfold valid_series. apply negb_true_iff.
    assert (H1 : existsb isnull (temperatures df) = false).
    { destruct (existsb isnull (temperatures df)) eqn:E; [|reflexivity].
      apply existsb_exists in E. destruct E as [a [Ha Hn]].
      unfold temperatures in Ha. apply in_map_iff in Ha.
      destruct Ha as [o [<- Ho]]. specialize (Ht o Ho).
      destruct (temperature o); [discriminate Hn|contradiction]. }
    assert (H3 : forallb isfinite (values df) = true).
    { apply forallb_forall. intros a Ha. unfold values in Ha.
      apply in_map_iff in Ha. destruct Ha as [o [<- Ho]]. now apply Hf. }
    assert (H2 : existsb isnull (values df) = false).
    { destruct (forallb_finite _ H3) as [Y ->]. apply existsb_isnull_finite. }
    rewrite H1, H2, H3. cbn [negb orb]. apply Nat.ltb_ge.
    apply (nunique_two _ (value (obs_row o1)) (value (obs_row o2))).
    + unfold values. apply in_map_iff. now exists o1.
    + unfold values. apply in_map_iff. now exists o2.
    + exact Hne.
    + specialize (Hf o1 Ho1).
      destruct (value (obs_row o1)); [reflexivity|discriminate|discriminate].
    + specialize (Hf o2 Ho2).
      destruct (value (obs_row o2)); [reflexivity|discriminate|discriminate].
Qed.

(** X7: how the turn of a frame ends.  The frame passes the tests of lines
    151 and 157 when it has two rows or more, no row without temperature,
    only finite values, and two rows with different values.  It gets a
    summary record exactly when it passes them and two of its rows have
    different temperatures; the turn ends by the error of [linregress]
    exactly when it passes them and all its temperatures are the same; it is
    skipped exactly when it does not pass them. *)
Theorem fit_frame_iff
    (t_ppf : R -> Z -> fval) (pearson_p : Series -> Series -> fval)
    (region0 metric0 : string) (df : Frame) :
  let tests :=
    (2 <= length df)%nat
    /\ (forall o, In o df -> temperature o <> None)
    /\ (forall o, In o df -> isfinite (value (obs_row o)) = true)
    /\ exists o1 o2, In o1 df /\ In o2 df
                     /\ value (obs_row o1) <> value (obs_row o2) in
  ((exists rec, fit_frame t_ppf pearson_p region0 metric0 df = Some rec)
   <-> tests /\ spread df)
  /\ (fit_outcome t_ppf pearson_p region0 metric0 df = Raised
      <-> tests /\ ~ spread df)
  /\ (fit_outcome t_ppf pearson_p region0 metric0 df = Skipped <-> ~ tests).
Proof.
  cbv zeta. rewrite <- tests_by_rows. unfold fit_frame.
  destruct (len df <? 2)%Z eqn:Hlen.
  { unfold fit_outcome. rewrite Hlen.
    split; [|split]; split; try discriminate.
    - intros [rec H]. discriminate H.
    - intros [[H _] _]. discriminate H.
    - intros [[H _] _]. discriminate H.
    - intros _ [H _]. discriminate H.
    - reflexivity. }
  destruct (valid_series (temperatures df) (values df)) eqn:Hv.
  2:{ unfold fit_outcome. rewrite Hlen, Hv.
      split; [|split]; split; try discriminate.
      - intros [rec H]. discriminate H.
      - intros [[_ H] _]. discriminate H.
      - intros [[_ H] _]. discriminate H.
      - intros _ [_ H]. discriminate H.
      - reflexivity. }
  assert (Hlen2 : (2 <= len df)%Z) by now apply Z.ltb_ge.
  destruct (fit_outcome_cases t_ppf pearson_p region0 metric0 df Hlen2 Hv)
    as [_ [_ [_ [[_ [Hs [_ Ho]]]|[_ [Hs [_ Ho]]]]]]]; rewrite Ho.
  - split; [|split]; split.
    + intros [rec H]. discriminate H.
    + intros [_ H]. contradiction.
    + intros _. now repeat split.
    + reflexivity.
    + discriminate.
    + intros H. exfalso. apply H. now split.
  - split; [|split]; split.
    + intros _. now repeat split.
    + intros _. eexists. reflexivity.
    + discriminate.
    + intros [_ H]. contradiction.
    + discriminate.
    + intros H. exfalso. apply H. now split.
Qed.

(** ** The summary table *)

Lemma region_pairs_NoDup : NoDup region_pairs.
Proof.
  replace region_pairs with (nodup pair_eq_dec region_pairs) by reflexivity.
  apply NoDup_nodup.
Qed.

Lemma in_region_pairs (metric0 : string) (g : string * list string)
    (region0 : string) :
  In metric0 metrics -> In g structure_groups -> In region0 (snd g) ->
  In (metric0, region0) region_pairs.
Proof.
  intros Hm Hg Hr. unfold region_pairs.
  apply in_flat_map. exists metric0. split; [exact Hm|].
  apply in_flat_map. exists g. split; [exact Hg|].
  apply in_map_iff. now exists region0.
Qed.

Lemma summarise_keys (t_ppf : R -> Z -> fval) (pearson_p : Series -> Series -> fval)
    (region0 metric0 : string) (x y : Series) :
  MRI_Parameter (summarise t_ppf pearson_p region0 metric0 x y) = metric0
  /\ DGM_Region (summarise t_ppf pearson_p region0 metric0 x y) = region0.
Proof.
  unfold summarise, pearsonr.
  destruct (least_squares x y) as [[slope intercept] r_val]. split; reflexivity.
Qed.

Lemma fit_region_keys (t_ppf : R -> Z -> fval) (pearson_p : Series -> Series -> fval)
    (data : Frame) (metric0 region0 : string) (rec : SummaryRecord) :
  fit_region t_ppf pearson_p data metric0 region0 = Some rec ->
  (MRI_Parameter rec, DGM_Region rec) = (metric0, region0).
Proof.
  unfold fit_region, fit_frame, fit_outcome.
  destruct (len _ <? 2)%Z; [discriminate|].
  destruct (valid_series _ _); [|discriminate].
  destruct (linregress _ _); [|discriminate].
  intros H. inversion H; subst.
  destruct (summarise_keys t_ppf pearson_p region0 metric0
              (temperatures (region_frame metric0 region0 data))
              (values (region_frame metric0 region0 data))) as [-> ->].
  reflexivity.
Qed.

(** Where the turn of a region does not raise, the frame gets a record
    exactly when it passes the tests of lines 151 and 157. *)
Lemma fit_region_fitted (t_ppf : R -> Z -> fval) (pearson_p : Series -> Series -> fval)
    (data : Frame) (pair : string * string) :
  raises t_ppf pearson_p data (fst pair) (snd pair) = false ->
  (fitted data pair = true
   <-> exists rec, fit_region t_ppf pearson_p data (fst pair) (snd pair) = Some rec).
Proof.
  unfold raises, fitted, fit_region, fit_frame, fit_outcome.
  destruct (len _ <? 2)%Z; cbn [negb andb].
  - intros _. split; [discriminate|intros [rec H]; discriminate H].
  - destruct (valid_series _ _).
    + destruct (linregress _ _); [|discriminate].
      intros _. split; [intros _; eexists; reflexivity|reflexivity].
    + intros _. split; [discriminate|intros [rec H]; discriminate H].
Qed.

Lemma fit_region_fitted_bool (t_ppf : R -> Z -> fval)
    (pearson_p : Series -> Series -> fval) (data : Frame) (pair : string * string) :
  raises t_ppf pearson_p data (fst pair) (snd pair) = false ->
  match fit_region t_ppf pearson_p data (fst pair) (snd pair) with
  | Some _ => true
  | None => false
  end = fitted data pair.
Proof.
  intros Hno. pose proof (fit_region_fitted t_ppf pearson_p data pair Hno) as H.
  destruct (fit_region t_ppf pearson_p data (fst pair) (snd pair)) as [rec|].
  - symmetry. apply H. now exists rec.
  - destruct (fitted data pair); [|reflexivity].
    destruct (proj1 H eq_refl) as [rec E]. discriminate E.
Qed.

(** The records of the summary table, pair by pair. *)
Lemma summary_by_pairs (t_ppf : R -> Z -> fval) (pearson_p : Series -> Series -> fval)
    (data : Frame) :
  flat_map (fun fig => snd fig) (figures t_ppf pearson_p data)
  = flat_map (fun pair =>
                match fit_region t_ppf pearson_p data (fst pair) (snd pair) with
                | Some rec => [rec]
                | None => []
                end) region_pairs.
Proof.
  unfold figures, region_pairs, group_records, metrics, structure_groups.
  cbn [flat_map map fst snd app].
  repeat rewrite <- app_assoc. cbn [app]. reflexivity.
Qed.

Lemma option_list_length {A B} (F : A -> option B) (l : list A) :
  length (flat_map (fun a => match F a with Some b => [b] | None => [] end) l)
  = length (filter (fun a => match F a with Some _ => true | None => false end) l).
Proof.
  induction l as [|a t IH]; [reflexivity|].
  cbn [flat_map filter]. destruct (F a); cbn [app length]; now rewrite IH.
Qed.

Lemma option_list_NoDup {A B K} (F : A -> option B) (k : B -> K) (g : A -> K)
    (l : list A) :
  NoDup (map g l) ->
  (forall a b, F a = Some b -> k b = g a) ->
  NoDup (map k (flat_map (fun a => match F a with Some b => [b] | None => [] end) l)).
Proof.
  intros Hnd Hk. induction l as [|a t IH]; [constructor|].
  cbn [map] in Hnd. inversion Hnd as [|? ? Hn Ht]; subst.
  cbn [flat_map]. destruct (F a) as [b|] eqn:E; cbn [app map]; [|now apply IH].
  constructor; [|now apply IH].
  intros Hin. apply Hn. apply in_map_iff in Hin. destruct Hin as [b' [Eb Hb']].
  apply in_flat_map in Hb'. destruct Hb' as [a' [Ha' Hb']].
  destruct (F a') as [b''|] eqn:E'; [|contradiction].
  destruct Hb' as [<-|[]].
  apply in_map_iff. exists a'. split; [|exact Ha'].
  rewrite <- (Hk a' b'' E'), Eb. now apply Hk.
Qed.

(** X8: when the run completes, what it has written ends with the summary
    table and the legend image; the table has one record for each (metric,
    region) pair of the loops whose frame passes the tests of lines 151 and
    157, in loop order, so its length is the number of those pairs, and no
    two records share their (MRI Parameter, DGM Region). *)
Theorem summary_rows
    (t_ppf : R -> Z -> fval) (pearson_p : Series -> Series -> fval)
    (temp_df : list TempRow) (folders : list CaseFolder) (written : list Output) :
  run t_ppf pearson_p temp_df folders = Completed written ->
  let data := concat (all_data temp_df folders) in
  exists plots summary,
    written = plots ++ [SummaryCsv summary; LegendPng]
    /\ length summary = length (filter (fitted data) region_pairs)
    /\ (forall rec, In rec summary
          <-> exists metric0 region0,
                In (metric0, region0) region_pairs
                /\ fit_region t_ppf pearson_p data metric0 region0 = Some rec)
    /\ NoDup (map (fun rec => (MRI_Parameter rec, DGM_Region rec)) summary).
Proof.
  intros H. apply run_completed in H. cbv zeta in *. destruct H as [H Hno].
  set (data := concat (all_data temp_df folders)) in *.
  exists (flat_map figure_files (figures t_ppf pearson_p data)),
    (flat_map (fun fig => snd fig) (figures t_ppf pearson_p data)).
  split; [exact H|].
  rewrite summary_by_pairs. split; [|split].
  - rewrite option_list_length. f_equal. apply filter_ext_in.
    intros [m r] Hp. apply fit_region_fitted_bool. now apply Hno.
  - intros rec. rewrite in_flat_map. split.
    + intros [[m r] [Hp Hr]]. cbn [fst snd] in Hr.
      destruct (fit_region t_ppf pearson_p data m r) as [rec'|] eqn:E; [|contradiction].
      destruct Hr as [<-|[]]. now exists m, r.
    + intros [m [r [Hp E]]]. exists (m, r). split; [exact Hp|].
      cbn [fst snd]. rewrite E. now left.
  - apply (option_list_NoDup _ _ (fun pair => pair)).
    + rewrite map_id. apply region_pairs_NoDup.
    + intros [m r] rec E. cbn [fst snd] in E. now apply fit_region_keys in E.
Qed.

Lemma summary_rows_witness :
  exists written,
    run t_ppf_sample pearson_p_sample two_temps two_cases = Completed written
    /\ exists plots summary,
         written = plots ++ [SummaryCsv summary; LegendPng]
         /\ length summary
            = length (filter (fitted (concat (all_data two_temps two_cases)))
                             region_pairs).
Proof.
  destruct sample_run_completes as [written H].
  exists written. split; [exact H|].
  destruct (summary_rows t_ppf_sample pearson_p_sample two_temps two_cases _ H)
    as [plots [summary [E [L _]]]].
  exists plots, summary. split; assumption.
Defined.

(** ** The plot files *)

Lemma in_figures (t_ppf : R -> Z -> fval) (pearson_p : Series -> Series -> fval)
    (data : Frame) (fig : string * string * list SummaryRecord) :
  In fig (figures t_ppf pearson_p data)
  <-> exists metric0 g,
        In metric0 metrics /\ In g structure_groups
        /\ fig = (metric0, fst g, group_records t_ppf pearson_p data metric0 (snd g)).
Proof.
  unfold figures. rewrite in_flat_map. split.
  - intros [m [Hm H]]. apply in_map_iff in H. destruct H as [g [<- Hg]].
    now exists m, g.
  - intros [m [g [Hm [Hg ->]]]]. exists m. split; [exact Hm|].
    apply in_map_iff. now exists g.
Qed.

Lemma group_records_nonempty (t_ppf : R -> Z -> fval)
    (pearson_p : Series -> Series -> fval) (data : Frame) (metric0 : string)
    (regions : list string) :
  (forall region0, In region0 regions ->
     raises t_ppf pearson_p data metric0 region0 = false) ->
  ((0 <? length (group_records t_ppf pearson_p data metric0 regions))%nat = true
   <-> exists region0,
         In region0 regions /\ fitted data (metric0, region0) = true).
Proof.
  unfold group_records. induction regions as [|r t IH]; intros Hno; cbn [flat_map].
  - split; [discriminate|intros [r [[] _]]].
  - rewrite length_app.
    pose proof (fit_region_fitted t_ppf pearson_p data (metric0, r)
                  (Hno r (or_introl eq_refl))) as Hr.
    cbn [fst snd] in Hr.
    destruct (fit_region t_ppf pearson_p data metric0 r) as [rec|] eqn:E.
    + split; [intros _|reflexivity]. exists r. split; [now left|].
      apply Hr. now exists rec.
    + cbn [length Nat.add]. rewrite IH by (intros r' Hr'; apply Hno; now right).
      split.
      * intros [r' [H1 H2]]. exists r'. split; [now right|exact H2].
      * intros [r' [[<-|H1] H2]]; [|now exists r'].
        apply Hr in H2. destruct H2 as [rec H2]. discriminate H2.
Qed.

(** X9: when the run completes, the image of a (metric, group) figure is
    written, as a raster and as a vector file together, exactly when one
    region of the group at least passes the tests of lines 151 and 157 for
    that metric; a figure without such a region writes no file. *)
Theorem plot_files
    (t_ppf : R -> Z -> fval) (pearson_p : Series -> Series -> fval)
    (temp_df : list TempRow) (folders : list CaseFolder) (written : list Output)
    (metric0 group_name : string) :
  run t_ppf pearson_p temp_df folders = Completed written ->
  let data := concat (all_data temp_df folders) in
  let drawn :=
    exists regions region0,
      In metric0 metrics /\ In (group_name, regions) structure_groups
      /\ In region0 regions /\ fitted data (metric0, region0) = true in
  (In (PlotPng metric0 group_name) written <-> drawn)
  /\ (In (PlotSvg metric0 group_name) written <-> drawn).
Proof.
  intros H. apply run_completed in H. cbv zeta in *. destruct H as [H Hno].
  set (data := concat (all_data temp_df folders)) in *.
  assert (Hgroup : forall m g,
            In m metrics -> In g structure_groups ->
            forall r, In r (snd g) -> raises t_ppf pearson_p data m r = false).
  { intros m g Hm Hg r Hr. apply Hno. now apply (in_region_pairs m g r). }
  assert (Hfiles : forall out,
            (out = PlotPng metric0 group_name \/ out = PlotSvg metric0 group_name) ->
            (In out written
             <-> exists fig, In fig (figures t_ppf pearson_p data)
                             /\ In out (figure_files fig))).
  { intros out Hout. rewrite H, in_app_iff, in_flat_map. split.
    - intros [Hin|[E|[E|[]]]]; [exact Hin| |];
        destruct Hout as [-> | ->]; discriminate E.
    - intros Hin. now left. }
  assert (Hfig : forall out,
            (out = PlotPng metric0 group_name \/ out = PlotSvg metric0 group_name) ->
            ((exists fig, In fig (figures t_ppf pearson_p data)
                          /\ In out (figure_files fig))
             <-> exists regions region0,
                   In metric0 metrics /\ In (group_name, regions) structure_groups
                   /\ In region0 regions /\ fitted data (metric0, region0) = true)).
  { intros out Hout. split.
    - intros [fig [Hf Ho]]. apply in_figures in Hf.
      destruct Hf as [m [[g regions] [Hm [Hg ->]]]]. cbn [fst snd] in Ho.
      unfold figure_files in Ho.
      destruct (0 <? length (group_records t_ppf pearson_p data m regions))%nat eqn:E;
        [|contradiction].
      apply group_records_nonempty in E; [|exact (Hgroup m (g, regions) Hm Hg)].
      destruct E as [r [Hr Hfit]].
      assert (Hmg : m = metric0 /\ g = group_name).
      { destruct Hout as [-> | ->]; destruct Ho as [Ho|[Ho|[]]];
          inversion Ho; now split. }
      destruct Hmg as [-> ->]. now exists regions, r.
    - intros [regions [r [Hm [Hg [Hr Hfit]]]]].
      exists (metric0, group_name,
              group_records t_ppf pearson_p data metric0 regions).
      split.
      + apply in_figures. exists metric0, (group_name, regions). now repeat split.
      + unfold figure_files.
        rewrite (proj2 (group_records_nonempty t_ppf pearson_p data metric0 regions
                          (Hgroup metric0 (group_name, regions) Hm Hg))).
        * destruct Hout as [-> | ->]; [now left|right; now left].
        * now exists r. }
  split.
  - rewrite (Hfiles _ (or_introl eq_refl)). apply Hfig. now left.
  - rewrite (Hfiles _ (or_intror eq_refl)). apply Hfig. now right.
Qed.

(** For the two cases at 10 and 30 degrees the figure of FA in the basal
    ganglia is written, raster and vector, and the figure of FA in the
    limbic system, which has no fitted region, is not. *)
Lemma plot_files_witness :
  exists written,
    run t_ppf_sample pearson_p_sample two_temps two_cases = Completed written
    /\ In (PlotPng "FA" "Basal Ganglia") written
    /\ In (PlotSvg "FA" "Basal Ganglia") written
    /\ ~ In (PlotPng "FA" "Limbic System") written.
Proof.
  destruct sample_run_completes as [written H].
  exists written. split; [exact H|].
  destruct (plot_files t_ppf_sample pearson_p_sample two_temps two_cases
              _ "FA" "Basal Ganglia" H) as [Hpng Hsvg].
  destruct (plot_files t_ppf_sample pearson_p_sample two_temps two_cases
              _ "FA" "Limbic System" H) as [Hlimbic _].
  cbv zeta in *. rewrite sample_data in *.
  assert (Hdrawn : exists regions region0,
             In "FA" metrics /\ In ("Basal Ganglia", regions) structure_groups
             /\ In region0 regions /\ fitted two_obs ("FA", region0) = true).
  { exists ["Caudate"; "Putamen"; "Pallidum"], "Caudate".
    split; [now left|]. split; [now left|]. split; [now left|].
    destruct two_obs_valid as [_ [Hvalid _]].
    unfold fitted.
    change (region_frame (fst ("FA", "Caudate")) (snd ("FA", "Caudate")) two_obs)
      with two_obs.
    rewrite Hvalid. reflexivity. }
  split; [now apply Hpng|]. split; [now apply Hsvg|].
  intros Hin. apply Hlimbic in Hin.
  destruct Hin as [regions [r [_ [Hg [Hr Hfit]]]]].
  assert (Hregions : regions = ["Hippocampus"; "Amygdala"]).
  { destruct Hg as [E|[E|[E|[]]]]; inversion E; reflexivity. }
  subst regions.
  destruct Hr as [<-|[<-|[]]]; discriminate Hfit.
Defined.

(** ** Signs of the standard errors *)

Lemma fsqrt_not_negative (a : fval) : not_negative (fsqrt a).
Proof.
  destruct a as [v|[|]|]; cbn [fsqrt not_negative]; auto.
  destruct (Rsign v); cbn [not_negative]; [exact I|apply sqrt_pos].
Qed.

Lemma fdiv_not_negative (a b : fval) :
  not_negative a -> not_negative b -> not_negative (fdiv a b).
Proof.
  destruct a as [u|s|], b as [v|s'|]; cbn [not_negative fdiv]; intros Ha Hb; auto.
  - destruct (Rzero v) eqn:Ev.
    + destruct (Rzero u); cbn [not_negative]; [exact I|now apply Rsign_false].
    + cbn [not_negative]. unfold Rzero in Ev.
      destruct (Req_dec_T v 0); [discriminate|].
      apply Rmult_le_pos; [exact Ha|]. left. apply Rinv_0_lt_compat. lra.
  - lra.
  - subst s. cbn [xorb]. now apply Rsign_false.
Qed.

Lemma fmul_not_negative (a b : fval) :
  not_negative a -> not_negative b -> not_negative (fmul a b).
Proof.
  destruct a as [u|s|], b as [v|s'|]; cbn [not_negative fmul]; intros Ha Hb; auto.
  - now apply Rmult_le_pos.
  - destruct (Rzero u); cbn [not_negative]; [exact I|].
    subst s'. cbn [xorb]. now apply Rsign_false.
  - destruct (Rzero v); cbn [not_negative]; [exact I|].
    subst s. cbn [xorb]. now apply Rsign_false.
  - now subst.
Qed.

Lemma fadd_not_negative (a b : fval) :
  not_negative a -> not_negative b -> not_negative (fadd a b).
Proof.
  destruct a as [u|s|], b as [v|s'|]; cbn [not_negative fadd]; intros Ha Hb; auto.
  - lra.
  - subst. reflexivity.
Qed.

(** X10: neither standard error is ever a negative number: each is a
    finite number that is not below zero, plus infinity or NaN, whatever the
    series and the fitted line; so is each half-width as soon as the critical
    value is not negative. *)
Theorem standard_errors_not_negative
    (t_ppf : R -> Z -> fval) (x y : Series) (slope intercept : fval) :
  not_negative (se_slope x y slope intercept)
  /\ not_negative (se_intercept x y slope intercept)
  /\ (not_negative (t_ppf 0.975 (len x - 2)%Z) ->
      not_negative (slope_ci t_ppf x y slope intercept)
      /\ not_negative (intercept_ci t_ppf x y slope intercept)).
Proof.
  assert (Hs : not_negative (se_slope x y slope intercept)).
  { unfold se_slope, se_y. apply fdiv_not_negative; apply fsqrt_not_negative. }
  assert (Hi : not_negative (se_intercept x y slope intercept)).
  { unfold se_intercept, se_y. apply fmul_not_negative; apply fsqrt_not_negative. }
  split; [exact Hs|]. split; [exact Hi|].
  intros Ht. unfold slope_ci, intercept_ci.
  split; now apply fmul_not_negative.
Qed.

(** * Further properties of the number formatting *)

Lemma ln10_pos : 0 < ln 10.
Proof. rewrite <- ln_1. apply ln_increasing; lra. Qed.

Lemma powerRZ10_exp (z : Z) : powerRZ 10 z = exp (IZR z * ln 10).
Proof. rewrite powerRZ_Rpower by lra. reflexivity. Qed.

Lemma powerRZ10_nat (n : nat) : powerRZ 10 (Z.of_nat n) = IZR (10 ^ Z.of_nat n).
Proof. now rewrite <- pow_powerRZ, <- pow_IZR. Qed.

Lemma powerRZ10_succ (z : Z) : powerRZ 10 (z + 1) = 10 * powerRZ 10 z.
Proof.
  rewrite powerRZ_add by lra. change (powerRZ 10 1) with (10 ^ 1). simpl. ring.
Qed.

Lemma sci_exponent_bounds (a : R) :
  0 < a ->
  powerRZ 10 (sci_exponent a) <= a < powerRZ 10 (sci_exponent a + 1).
Proof.
  intros Ha. unfold sci_exponent.
  pose proof ln10_pos as Hl.
  destruct (base_Int_part (ln a / ln 10)) as [H1 H2].
  set (e := Int_part (ln a / ln 10)) in *.
  assert (Hq : ln a / ln 10 * ln 10 = ln a) by (field; lra).
  assert (Hlow : IZR e * ln 10 <= ln a) by (rewrite <- Hq; nra).
  assert (Hup : ln a < (IZR e + 1) * ln 10) by (rewrite <- Hq; nra).
  rewrite !powerRZ10_exp, plus_IZR.
  pose proof (exp_ln a Ha) as Hexp.
  split.
  - rewrite <- Hexp at 1. destruct Hlow as [Hlt|Heq].
    + left. now apply exp_increasing.
    + right. now rewrite Heq.
  - rewrite <- Hexp at 1. now apply exp_increasing.
Qed.

Lemma round_half_even_near (t : R) :
  Rabs (t - IZR (round_half_even t)) <= 1 / 2.
Proof.
  destruct (base_Int_part t) as [H1 H2]. unfold round_half_even.
  destruct (Rlt_dec (t - IZR (Int_part t)) (1 / 2)) as [Hlt|Hge].
  - apply Rabs_le. lra.
  - destruct (Rlt_dec (1 / 2) (t - IZR (Int_part t))) as [Hgt|Hle].
    + rewrite plus_IZR. apply Rabs_le. lra.
    + destruct (Z.even (Int_part t)); [|rewrite plus_IZR]; apply Rabs_le; lra.
Qed.

Lemma round_half_even_between (t : R) (L U : Z) :
  IZR L <= t -> t < IZR U -> (L <= round_half_even t <= U)%Z.
Proof.
  intros HL HU. destruct (base_Int_part t) as [H1 H2].
  assert (Hf1 : (L - 1 < Int_part t)%Z).
  { apply lt_IZR. rewrite minus_IZR. lra. }
  assert (Hf2 : (Int_part t < U)%Z).
  { apply lt_IZR. lra. }
  unfold round_half_even.
  destruct (Rlt_dec _ _); [lia|].
  destruct (Rlt_dec _ _); [lia|].
  destruct (Z.even _); lia.
Qed.

(** X11: for a positive number the digits that [format_sci] prints are
    normalised, the first one is not zero, and the number they stand for
    with the printed exponent is within half a unit of the last printed digit
    of the number itself. *)
Theorem sci_parts_normalised (a : R) (precision : nat) :
  0 < a ->
  let m := fst (sci_parts a precision) in
  let e := snd (sci_parts a precision) in
  (10 ^ Z.of_nat precision <= m < 10 ^ Z.of_nat (S precision))%Z
  /\ (1 <= m / 10 ^ Z.of_nat precision <= 9)%Z
  /\ Rabs (a - sci_value m e precision)
     <= powerRZ 10 (e - Z.of_nat precision) / 2.
Proof.
  intros Ha. cbv zeta.
  assert (Hpow : (0 < 10 ^ Z.of_nat precision)%Z) by (apply Z.pow_pos_nonneg; lia).
  assert (Hsucc : (10 ^ Z.of_nat (S precision) = 10 * 10 ^ Z.of_nat precision)%Z).
  { rewrite Nat2Z.inj_succ, Z.pow_succ_r by lia. reflexivity. }
  assert (Hparts :
    (10 ^ Z.of_nat precision <= fst (sci_parts a precision)
       < 10 ^ Z.of_nat (S precision))%Z
    /\ Rabs (a - sci_value (fst (sci_parts a precision))
                   (snd (sci_parts a precision)) precision)
       <= powerRZ 10 (snd (sci_parts a precision) - Z.of_nat precision) / 2).
  { unfold sci_parts. rewrite (Rzero_false a) by lra.
    destruct (sci_exponent_bounds a Ha) as [Hlo Hhi].
    set (e0 := sci_exponent a) in *.
    set (s := powerRZ 10 (Z.of_nat precision - e0)).
    assert (Hs : 0 < s) by (apply powerRZ_lt; lra).
    assert (Hsp : powerRZ 10 e0 * s = IZR (10 ^ Z.of_nat precision)).
    { unfold s. rewrite <- powerRZ_add by lra.
      replace (e0 + (Z.of_nat precision - e0))%Z with (Z.of_nat precision) by lia.
      apply powerRZ10_nat. }
    assert (Hsp1 : powerRZ 10 (e0 + 1) * s = IZR (10 ^ Z.of_nat (S precision))).
    { rewrite powerRZ10_succ, Rmult_assoc, Hsp, Hsucc, mult_IZR. reflexivity. }
    assert (Hinv : s * powerRZ 10 (e0 - Z.of_nat precision) = 1).
    { unfold s. rewrite <- powerRZ_add by lra.
      replace (Z.of_nat precision - e0 + (e0 - Z.of_nat precision))%Z with 0%Z by lia.
      reflexivity. }
    set (u := powerRZ 10 (e0 - Z.of_nat precision)) in *.
    assert (Hu : 0 < u) by (apply powerRZ_lt; lra).
    assert (Ht1 : IZR (10 ^ Z.of_nat precision) <= a * s) by (rewrite <- Hsp; nra).
    assert (Ht2 : a * s < IZR (10 ^ Z.of_nat (S precision))) by (rewrite <- Hsp1; nra).
    destruct (round_half_even_between _ _ _ Ht1 Ht2) as [Hm1 Hm2].
    pose proof (round_half_even_near (a * s)) as Hnear.
    set (m0 := round_half_even (a * s)) in *.
    assert (Herr : Rabs (a - IZR m0 * u) <= u / 2).
    { replace (a - IZR m0 * u) with ((a * s - IZR m0) * u)
        by (replace a with (a * (s * u)) at 2 by (rewrite Hinv; ring); ring).
      rewrite Rabs_mult, (Rabs_pos_eq u) by lra. nra. }
    destruct (10 ^ Z.of_nat (S precision) <=? m0)%Z eqn:E; cbn [fst snd].
    - apply Z.leb_le in E. split; [lia|].
      assert (Em : m0 = (10 ^ Z.of_nat (S precision))%Z) by lia.
      unfold sci_value.
      replace (e0 + 1 - Z.of_nat precision)%Z with (e0 - Z.of_nat precision + 1)%Z by lia.
      rewrite powerRZ10_succ. fold u.
      replace (IZR (10 ^ Z.of_nat precision) * (10 * u)) with (IZR m0 * u)
        by (rewrite Em, Hsucc, mult_IZR; ring).
      lra.
    - apply Z.leb_gt in E. split; [lia|]. exact Herr. }
  destruct Hparts as [Hrange Herr].
  split; [exact Hrange|]. split; [|exact Herr].
  split.
  - apply Z.div_le_lower_bound; lia.
  - assert (fst (sci_parts a precision) / 10 ^ Z.of_nat precision < 10)%Z; [|lia].
    apply Z.div_lt_upper_bound; lia.
Qed.

Lemma sci_parts_normalised_witness :
  0 < 1
  /\ (10 ^ Z.of_nat 4 <= fst (sci_parts 1 4) < 10 ^ Z.of_nat 5)%Z
  /\ (1 <= fst (sci_parts 1 4) / 10 ^ Z.of_nat 4 <= 9)%Z.
Proof.
  assert (H : 0 < 1) by lra.
  split; [exact H|].
  destruct (sci_parts_normalised 1 4 H) as [H1 [H2 _]].
  split; [exact H1|exact H2].
Defined.

(** A negative number is printed as the minus sign followed by what its
    opposite prints. *)
Lemma format_sci_negative (v : R) (precision : nat) :
  v < 0 ->
  format_sci (Finite v) precision
  = ("-" ++ format_sci (Finite (- v)) precision)%string.
Proof.
  intros Hv. cbn [format_sci].
  rewrite Rabs_Ropp, (Rsign_true v Hv), (Rsign_false (- v)) by lra.
  destruct (sci_parts (Rabs v) precision) as [m e]. reflexivity.
Qed.

Lemma format_sci_negative_witness :
  -1 < 0 /\ format_sci (Finite (-1)) 4 = "-1.0000e+00"%string.
Proof.
  assert (H : -1 < 0) by lra.
  split; [exact H|].
  rewrite (format_sci_negative (-1) 4 H).
  replace (- -1) with 1 by lra.
  now rewrite format_sci_one_4.
Defined.

(** * Properties of the rendering decisions *)

Lemma every_region_has_a_color (g : string * list string) (region0 : string) :
  In g structure_groups -> In region0 (snd g) ->
  get_color region_colors region0 <> None.
Proof.
  unfold structure_groups. cbn [In].
  intros [<-|[<-|[<-|[]]]]; cbn [snd In];
    intros H; repeat (destruct H as [<-|H]; [discriminate|]); contradiction.
Qed.

(** X12: the legend text of a region is "p < 0.001" exactly when its
    p-value is below 0.001, and every such entry is bold; the entry is bold
    exactly when the p-value is below 0.05; a p-value that is NaN gives the
    text "p = nan", not bold; every region of a structure group has a
    colour. *)
Theorem legend_entry_decisions (p : fval) (region0 : string) :
  let txt := fst (fst (legend_entry p region0)) in
  let colour := snd (fst (legend_entry p region0)) in
  let bold := snd (legend_entry p region0) in
  (txt = "p < 0.001"%string <-> flt p (Finite 0.001) = true)
  /\ (txt = "p < 0.001"%string -> bold = true)
  /\ (bold = true <-> flt p (Finite 0.05) = true)
  /\ (p = NaN -> txt = "p = nan"%string /\ bold = false)
  /\ (forall g, In g structure_groups -> In region0 (snd g) -> colour <> None).
Proof.
  cbv zeta. unfold legend_entry. cbn [fst snd].
  assert (Htxt : p_text p = "p < 0.001"%string <-> flt p (Finite 0.001) = true).
  { unfold p_text. destruct (flt p (Finite 0.001)).
    - split; reflexivity.
    - split; intros H; [|discriminate H].
      cbn [append] in H. inversion H. }
  split; [exact Htxt|]. split; [|split; [reflexivity|split]].
  - intros H. apply Htxt in H.
    destruct p as [v|[|]|]; try discriminate H; try reflexivity.
    apply flt_finite in H. apply flt_finite. lra.
  - intros ->. split; reflexivity.
  - intros g Hg Hr. now apply (every_region_has_a_color g).
Qed.

(** ** The dashed extensions *)

Lemma fold_fmin_finite (t : list R) (a : R) :
  exists mn,
    fold_left fmin (map Finite t) (Finite a) = Finite mn
    /\ mn <= a /\ (forall u, In u t -> mn <= u)
    /\ (mn = a \/ In mn t).
Proof.
  revert a. induction t as [|b t IH]; intros a.
  - exists a. cbn [map fold_left]. repeat split; [lra|intros u []|now left].
  - cbn [map fold_left]. unfold fmin at 2. cbn [flt].
    destruct (Rlt_dec b a) as [Hlt|Hge].
    + destruct (IH b) as [mn [E [H1 [H2 H3]]]]. exists mn. rewrite E.
      repeat split; [lra| |].
      * intros u [<-|Hu]; [exact H1|now apply H2].
      * right. destruct H3 as [->|H3]; [now left|now right].
    + destruct (IH a) as [mn [E [H1 [H2 H3]]]]. exists mn. rewrite E.
      repeat split; [exact H1| |].
      * intros u [<-|Hu]; [lra|now apply H2].
      * destruct H3 as [->|H3]; [now left|right; now right].
Qed.

Lemma fold_fmax_finite (t : list R) (a : R) :
  exists mx,
    fold_left fmax (map Finite t) (Finite a) = Finite mx
    /\ a <= mx /\ (forall u, In u t -> u <= mx)
    /\ (mx = a \/ In mx t).
Proof.
  revert a. induction t as [|b t IH]; intros a.
  - exists a. cbn [map fold_left]. repeat split; [lra|intros u []|now left].
  - cbn [map fold_left]. unfold fmax at 2. cbn [flt].
    destruct (Rlt_dec a b) as [Hlt|Hge].
    + destruct (IH b) as [mx [E [H1 [H2 H3]]]]. exists mx. rewrite E.
      repeat split; [lra| |].
      * intros u [<-|Hu]; [exact H1|now apply H2].
      * right. destruct H3 as [->|H3]; [now left|now right].
    + destruct (IH a) as [mx [E [H1 [H2 H3]]]]. exists mx. rewrite E.
      repeat split; [exact H1| |].
      * intros u [<-|Hu]; [lra|now apply H2].
      * destruct H3 as [->|H3]; [now left|right; now right].
Qed.

(** [x.min()] and [x.max()] of a series of finite values are its least and
    its greatest value. *)
Lemma series_min_finite (X : list R) :
  X <> [] ->
  exists mn, series_min (map Finite X) = Finite mn
             /\ In mn X /\ forall u, In u X -> mn <= u.
Proof.
  intros Hne. unfold series_min. rewrite notnull_finite.
  destruct X as [|a t]; [contradiction|]. cbn [map].
  destruct (fold_fmin_finite t a) as [mn [E [H1 [H2 H3]]]].
  exists mn. split; [exact E|]. split.
  - destruct H3 as [->|H3]; [now left|now right].
  - intros u [<-|Hu]; [exact H1|now apply H2].
Qed.

Lemma series_max_finite (X : list R) :
  X <> [] ->
  exists mx, series_max (map Finite X) = Finite mx
             /\ In mx X /\ forall u, In u X -> u <= mx.
Proof.
  intros Hne. unfold series_max. rewrite notnull_finite.
  destruct X as [|a t]; [contradiction|]. cbn [map].
  destruct (fold_fmax_finite t a) as [mx [E [H1 [H2 H3]]]].
  exists mx. split; [exact E|]. split.
  - destruct H3 as [->|H3]; [now left|now right].
  - intros u [<-|Hu]; [exact H1|now apply H2].
Qed.

(** The fifty points of [np.linspace] between two finite ends lie between
    them. *)
Lemma linspace_between (s e : R) :
  s <= e ->
  length (linspace (Finite s) (Finite e) 50) = 50%nat
  /\ forall t, In t (linspace (Finite s) (Finite e) 50) ->
               exists v, t = Finite v /\ s <= v <= e.
Proof.
  intros Hse. unfold linspace. split.
  - rewrite length_app, length_map, length_seq. reflexivity.
  - intros t Ht. apply in_app_or in Ht. destruct Ht as [Ht|[<-|[]]].
    + apply in_map_iff in Ht. destruct Ht as [i [<- Hi]].
      apply in_seq in Hi. unfold of_int, fsub. cbn [fneg fadd].
      rewrite fdiv_finite by (apply not_0_IZR; lia).
      cbn [fmul fadd]. eexists. split; [reflexivity|].
      assert (H0 : 0 <= IZR (Z.of_nat i)) by (apply IZR_le; lia).
      assert (H1 : IZR (Z.of_nat i) <= 49) by (apply IZR_le; lia).
      change (IZR (Z.of_nat 49)) with 49.
      assert (Hd : 0 <= (e + - s) / 49) by lra.
      assert (Hprod : IZR (Z.of_nat i) * ((e + - s) / 49) <= 49 * ((e + - s) / 49))
        by (apply Rmult_le_compat_r; lra).
      assert (Hpos : 0 <= IZR (Z.of_nat i) * ((e + - s) / 49))
        by (apply Rmult_le_pos; lra).
      lra.
    + exists e. split; [reflexivity|lra].
Qed.

(** X13: on a series of finite temperatures the left dashed line is drawn
    exactly when every temperature is above 4 and the right one exactly when
    every temperature is below 37: the lines drawn are the left one, from 4
    to the lowest temperature, when that is above 4, and then the right one,
    from the highest temperature to 37, when that is below 37, and no other.
    Each line has fifty points on the fitted line; the abscissas of the left
    one lie between 4 and the lowest temperature, those of the right one
    between the highest temperature and 37, so no dashed point falls
    strictly inside the observed range. *)
Theorem extrapolation_outside_range (X : list R) (slope intercept : fval) :
  X <> [] ->
  let x := map Finite X in
  (flt (Finite 4) (series_min x) = true <-> forall u, In u X -> 4 < u)
  /\ (flt (series_max x) (Finite 37) = true <-> forall u, In u X -> u < 37)
  /\ (exists mn mx,
        In mn X /\ In mx X /\ (forall u, In u X -> mn <= u <= mx)
        /\ extrapolation x slope intercept
           = (if Rlt_dec 4 mn
              then [(linspace (Finite 4) (Finite mn) 50,
                     fitted_line slope intercept
                       (linspace (Finite 4) (Finite mn) 50))]
              else [])
             ++ (if Rlt_dec mx 37
                 then [(linspace (Finite mx) (Finite 37) 50,
                        fitted_line slope intercept
                          (linspace (Finite mx) (Finite 37) 50))]
                 else []))
  /\ forall xs ys,
       In (xs, ys) (extrapolation x slope intercept) ->
       length xs = 50%nat
       /\ ys = fitted_line slope intercept xs
       /\ forall t, In t xs ->
            exists v, t = Finite v
              /\ ((4 <= v /\ forall u, In u X -> v <= u)
                  \/ (v <= 37 /\ forall u, In u X -> u <= v)).
Proof.
  intros Hne. cbv zeta.
  destruct (series_min_finite X Hne) as [mn [Emin [Hmn_in Hmn]]].
  destruct (series_max_finite X Hne) as [mx [Emax [Hmx_in Hmx]]].
  unfold extrapolation. rewrite Emin, Emax.
  split; [|split; [|split]].
  - rewrite flt_finite. split.
    + intros H u Hu. specialize (Hmn u Hu). lra.
    + intros H. now apply H.
  - rewrite flt_finite. split.
    + intros H u Hu. specialize (Hmx u Hu). lra.
    + intros H. now apply H.
  - exists mn, mx. split; [exact Hmn_in|]. split; [exact Hmx_in|]. split.
    + intros u Hu. split; [now apply Hmn|now apply Hmx].
    + cbn [flt]. destruct (Rlt_dec 4 mn), (Rlt_dec mx 37); reflexivity.
  - intros xs ys Hin. apply in_app_or in Hin. destruct Hin as [Hin|Hin].
    + destruct (flt (Finite 4) (Finite mn)) eqn:E; [|contradiction].
      apply flt_finite in E. destruct Hin as [Hin|[]]. inversion Hin; subst.
      destruct (linspace_between 4 mn) as [Hlen Hpts]; [lra|].
      split; [exact Hlen|]. split; [reflexivity|].
      intros t Ht. destruct (Hpts t Ht) as [v [-> Hv]].
      exists v. split; [reflexivity|]. left. split; [lra|].
      intros u Hu. specialize (Hmn u Hu). lra.
    + destruct (flt (Finite mx) (Finite 37)) eqn:E; [|contradiction].
      apply flt_finite in E. destruct Hin as [Hin|[]]. inversion Hin; subst.
      destruct (linspace_between mx 37) as [Hlen Hpts]; [lra|].
      split; [exact Hlen|]. split; [reflexivity|].
      intros t Ht. destruct (Hpts t Ht) as [v [-> Hv]].
      exists v. split; [reflexivity|]. right. split; [lra|].
      intros u Hu. specialize (Hmx u Hu). lra.
Qed.

(** For the temperatures 10 and 30 both dashed lines are drawn, the left one
    from 4 to 10 and the right one from 30 to 37. *)
Lemma extrapolation_outside_range_witness :
  [10; 30] <> []
  /\ extrapolation (map Finite [10; 30]) (Finite 0.01) (Finite 0.4)
     = [ (linspace (Finite 4) (Finite 10) 50,
          fitted_line (Finite 0.01) (Finite 0.4) (linspace (Finite 4) (Finite 10) 50));
         (linspace (Finite 30) (Finite 37) 50,
          fitted_line (Finite 0.01) (Finite 0.4)
            (linspace (Finite 30) (Finite 37) 50)) ].
Proof.
  assert (H : [10; 30] <> []) by discriminate.
  split; [exact H|].
  destruct (extrapolation_outside_range [10; 30] (Finite 0.01) (Finite 0.4) H)
    as [_ [_ [[mn [mx [Hmn [Hmx [Hb E]]]]] _]]].
  assert (Emn : mn = 10).
  { destruct (Hb 10 (or_introl eq_refl)) as [H1 _].
    destruct Hmn as [<-|[<-|[]]]; [reflexivity|lra]. }
  assert (Emx : mx = 30).
  { destruct (Hb 30 (or_intror (or_introl eq_refl))) as [_ H1].
    destruct Hmx as [<-|[<-|[]]]; [lra|reflexivity]. }
  subst mn mx. rewrite E.
  destruct (Rlt_dec 4 10) as [_|Hn]; [|exfalso; apply Hn; lra].
  destruct (Rlt_dec 30 37) as [_|Hn]; [|exfalso; apply Hn; lra].
  reflexivity.
Defined.

(** * The order of the case folders *)

Lemma Rsum_perm (l l' : list R) : Permutation l l' -> Rsum l = Rsum l'.
Proof.
  unfold Rsum. induction 1; cbn [fold_right]; lra.
Qed.

Lemma existsb_perm {A} (f : A -> bool) (l l' : list A) :
  Permutation l l' -> existsb f l = existsb f l'.
Proof.
  induction 1; cbn [existsb]; try congruence.
  destruct (f x), (f y); reflexivity.
Qed.

Lemma forallb_perm {A} (f : A -> bool) (l l' : list A) :
  Permutation l l' -> forallb f l = forallb f l'.
Proof.
  induction 1; cbn [forallb]; try congruence.
  destruct (f x), (f y); reflexivity.
Qed.

Lemma filter_perm {A} (f : A -> bool) (l l' : list A) :
  Permutation l l' -> Permutation (filter f l) (filter f l').
Proof.
  induction 1; cbn [filter].
  - constructor.
  - destruct (f x); [now constructor|assumption].
  - destruct (f x), (f y); try apply Permutation_refl. apply perm_swap.
  - eapply perm_trans; eassumption.
Qed.

Lemma nunique_perm (s s' : Series) : Permutation s s' -> nunique s = nunique s'.
Proof.
  intros H. unfold nunique. apply Permutation_length.
  apply NoDup_Permutation; try apply NoDup_nodup.
  intros a. rewrite !nodup_In. unfold notnull.
  split; apply Permutation_in; [|apply Permutation_sym]; now apply filter_perm.
Qed.

Lemma valid_series_perm (df df' : Frame) :
  Permutation df df' ->
  valid_series (temperatures df) (values df)
  = valid_series (temperatures df') (values df').
Proof.
  intros H. unfold valid_series.
  assert (Hx : Permutation (temperatures df) (temperatures df'))
    by (now apply Permutation_map).
  assert (Hy : Permutation (values df) (values df'))
    by (now apply Permutation_map).
  now rewrite (existsb_perm _ _ _ Hx), (existsb_perm _ _ _ Hy),
    (forallb_perm _ _ _ Hy), (nunique_perm _ _ Hy).
Qed.

Lemma combine_maps {A B C} (f : A -> B) (g : A -> C) (l : list A) :
  combine (map f l) (map g l) = map (fun a => (f a, g a)) l.
Proof. induction l as [|a t IH]; cbn [map combine]; [|rewrite IH]; reflexivity. Qed.

Lemma Rmean_perm (l l' : list R) : Permutation l l' -> Rmean l = Rmean l'.
Proof.
  intros H. unfold Rmean.
  now rewrite (Rsum_perm _ _ H), (Permutation_length H).
Qed.

Lemma SS_maps {A} (f g : A -> R) (l : list A) :
  SS (map f l) (map g l)
  = Rsum (map (fun a => (f a - Rmean (map f l)) * (g a - Rmean (map g l))) l).
Proof. unfold SS, dev. now rewrite !map_map, combine_maps, map_map. Qed.

Lemma SS_perm {A} (f g : A -> R) (l l' : list A) :
  Permutation l l' -> SS (map f l) (map g l) = SS (map f l') (map g l').
Proof.
  intros H. rewrite !SS_maps.
  rewrite (Rmean_perm (map f l) (map f l')) by now apply Permutation_map.
  rewrite (Rmean_perm (map g l) (map g l')) by now apply Permutation_map.
  apply Rsum_perm. now apply Permutation_map.
Qed.

Lemma RSS_perm {A} (f g : A -> R) (l l' : list A) (b a : R) :
  Permutation l l' -> RSS (map f l) (map g l) b a = RSS (map f l') (map g l') b a.
Proof.
  intros H. unfold RSS. rewrite !combine_maps, !map_map.
  apply Rsum_perm. now apply Permutation_map.
Qed.

Lemma spread_perm (df df' : Frame) :
  Permutation df df' -> spread df -> spread df'.
Proof.
  intros Hp [o1 [o2 [H1 [H2 Hd]]]]. exists o1, o2.
  split; [eapply Permutation_in; eassumption|].
  split; [eapply Permutation_in; eassumption|exact Hd].
Qed.

(** On two frames with the same rows in another order, and with spread in
    their temperatures, the regression, the correlation and the standard
    errors are the same. *)
Lemma statistics_perm (df df' : Frame) :
  (2 <= len df)%Z ->
  Permutation df df' ->
  valid_series (temperatures df) (values df) = true ->
  SS (map obs_x df) (map obs_x df) <> 0 ->
  pearson_r (temperatures df) (values df) = pearson_r (temperatures df') (values df')
  /\ least_squares (temperatures df) (values df)
     = least_squares (temperatures df') (values df')
  /\ forall slope intercept r_val,
       least_squares (temperatures df) (values df) = (slope, intercept, r_val) ->
       se_slope (temperatures df) (values df) slope intercept
       = se_slope (temperatures df') (values df') slope intercept
       /\ se_intercept (temperatures df) (values df) slope intercept
          = se_intercept (temperatures df') (values df') slope intercept.
Proof.
  intros Hlen Hp Hv Hnz.
  assert (Hv' : valid_series (temperatures df') (values df') = true)
    by (now rewrite <- (valid_series_perm df df' Hp)).
  destruct (valid_frame_xy df Hv) as [HX [HY _]].
  destruct (valid_frame_xy df' Hv') as [HX' [HY' _]].
  rewrite HX, HY, HX', HY'.
  pose proof (Permutation_length Hp) as Hl.
  pose proof (SS_perm obs_x obs_x df df' Hp) as Exx.
  pose proof (SS_perm obs_x obs_y df df' Hp) as Exy.
  pose proof (SS_perm obs_y obs_y df df' Hp) as Eyy.
  pose proof (Rmean_perm _ _ (Permutation_map obs_x Hp)) as Emx.
  pose proof (Rmean_perm _ _ (Permutation_map obs_y Hp)) as Emy.
  assert (Hne : map obs_x df <> []).
  { apply length_ne_nil. rewrite length_map. unfold len in Hlen. lia. }
  assert (Hne' : map obs_x df' <> []).
  { apply length_ne_nil. rewrite length_map, <- Hl. unfold len in Hlen. lia. }
  assert (Elen : len (map Finite (map obs_x df)) = len (map Finite (map obs_x df'))).
  { unfold len. now rewrite !length_map, Hl. }
  assert (El : least_squares (map Finite (map obs_x df)) (map Finite (map obs_y df))
               = least_squares (map Finite (map obs_x df')) (map Finite (map obs_y df'))).
  { unfold least_squares.
    rewrite !reals_finite, !length_map, Exx, Exy, Eyy, Emx, Emy, Hl.
    reflexivity. }
  split; [|split; [exact El|]].
  - unfold pearson_r. rewrite !reals_finite, Exx, Exy, Eyy. reflexivity.
  - intros slope intercept r_val Hlr.
    destruct (least_squares_regular _ (map obs_y df) Hne Hnz) as [rv E].
    rewrite E in Hlr. inversion Hlr; subst.
    unfold se_slope, se_intercept, se_y.
    rewrite !residual_ss_finite, !(s_xx_finite _ Hne), !(s_xx_finite _ Hne').
    rewrite !(np_mean_finite _ Hne), !(np_mean_finite _ Hne').
    rewrite Elen, Exx, Emx.
    rewrite (RSS_perm obs_x obs_y df df' _ _ Hp).
    split; reflexivity.
Qed.

Lemma fit_outcome_perm
    (t_ppf : R -> Z -> fval) (pearson_p : Series -> Series -> fval)
    (region0 metric0 : string) (df df' : Frame) :
  Permutation df df' ->
  pearson_p (temperatures df) (values df) = pearson_p (temperatures df') (values df') ->
  fit_outcome t_ppf pearson_p region0 metric0 df
  = fit_outcome t_ppf pearson_p region0 metric0 df'.
Proof.
  intros Hp Hpp.
  assert (Hl : len df = len df') by (unfold len; now rewrite (Permutation_length Hp)).
  pose proof (valid_series_perm df df' Hp) as Hvv.
  destruct (len df <? 2)%Z eqn:Hlen.
  { unfold fit_outcome. now rewrite <- Hl, Hlen. }
  destruct (valid_series (temperatures df) (values df)) eqn:Hv.
  2:{ unfold fit_outcome. now rewrite <- Hl, Hlen, <- Hvv, Hv. }
  apply Z.ltb_ge in Hlen.
  assert (Hlen' : (2 <= len df')%Z) by (now rewrite <- Hl).
  symmetry in Hvv.
  destruct (fit_outcome_cases t_ppf pearson_p region0 metric0 df Hlen Hv)
    as [_ [_ [_ [[_ [Hs [_ Ho]]]|[Hxx [Hs [_ Ho]]]]]]];
    destruct (fit_outcome_cases t_ppf pearson_p region0 metric0 df' Hlen' Hvv)
      as [_ [_ [_ [[_ [Hs' [_ Ho']]]|[_ [Hs' [_ Ho']]]]]]];
    rewrite Ho, Ho'.
  - reflexivity.
  - exfalso. apply Hs. apply (spread_perm df' df); [now apply Permutation_sym|exact Hs'].
  - exfalso. apply Hs'. now apply (spread_perm df df').
  - destruct (statistics_perm df df' Hlen Hp Hv Hxx) as [Er [El Hse]].
    f_equal. unfold summarise, pearsonr. rewrite <- Er, <- Hpp, <- El.
    destruct (least_squares (temperatures df) (values df))
      as [[slope intercept] r_val] eqn:E.
    destruct (Hse slope intercept r_val eq_refl) as [Es Ei].
    unfold slope_ci, intercept_ci. rewrite <- Es, <- Ei.
    assert (Hlx : len (temperatures df) = len (temperatures df')).
    { unfold len, temperatures. now rewrite !length_map, (Permutation_length Hp). }
    rewrite <- Hlx. reflexivity.
Qed.

Lemma data_flat_map (temp_df : list TempRow) (folders : list CaseFolder) :
  concat (all_data temp_df folders) = flat_map (case_rows temp_df) folders.
Proof.
  unfold all_data, case_rows. induction folders as [|f t IH]; [reflexivity|].
  cbn [flat_map]. now rewrite concat_app, IH.
Qed.

(** X14: the run does not depend on the order in which the case folders
    are found: with the folders in another order it ends the same way and
    writes the same plot files and the same summary table (the p-value being
    one that does not depend on the order of the points). *)
Theorem run_order_independent
    (t_ppf : R -> Z -> fval) (pearson_p : Series -> Series -> fval)
    (temp_df : list TempRow) (folders folders' : list CaseFolder) :
  Permutation folders folders' ->
  (forall df df', Permutation df df' ->
     pearson_p (temperatures df) (values df)
     = pearson_p (temperatures df') (values df')) ->
  run t_ppf pearson_p temp_df folders = run t_ppf pearson_p temp_df folders'.
Proof.
  intros Hp Hpp.
  assert (Hempty : empty (all_data temp_df folders) = empty (all_data temp_df folders')).
  { destruct (all_data temp_df folders) as [|fr frs] eqn:E;
      destruct (all_data temp_df folders') as [|fr' frs'] eqn:E'; try reflexivity.
    - exfalso. pose proof (proj1 (all_data_nil temp_df folders) E) as Hn.
      assert (E'' : all_data temp_df folders' = []).
      { apply (proj2 (all_data_nil temp_df folders')). intros f Hf. apply Hn.
        eapply Permutation_in; [apply Permutation_sym, Hp|exact Hf]. }
      congruence.
    - exfalso. pose proof (proj1 (all_data_nil temp_df folders') E') as Hn.
      assert (E'' : all_data temp_df folders = []).
      { apply (proj2 (all_data_nil temp_df folders)). intros f Hf. apply Hn.
        eapply Permutation_in; [exact Hp|exact Hf]. }
      congruence. }
  assert (Hdata : Permutation (concat (all_data temp_df folders))
                              (concat (all_data temp_df folders'))).
  { rewrite !data_flat_map. now apply Permutation_flat_map. }
  set (data := concat (all_data temp_df folders)) in *.
  set (data' := concat (all_data temp_df folders')) in *.
  assert (Hout : forall m r,
            fit_outcome t_ppf pearson_p r m (region_frame m r data)
            = fit_outcome t_ppf pearson_p r m (region_frame m r data')).
  { intros m r. apply fit_outcome_perm.
    - unfold region_frame. now apply filter_perm.
    - apply Hpp. unfold region_frame. now apply filter_perm. }
  assert (Hraises : forall m r,
            raises t_ppf pearson_p data m r = raises t_ppf pearson_p data' m r).
  { intros m r. unfold raises. now rewrite Hout. }
  assert (Hrecs : forall m regions,
            group_records t_ppf pearson_p data m regions
            = group_records t_ppf pearson_p data' m regions).
  { intros m regions. unfold group_records. apply flat_map_ext. intros r.
    unfold fit_region, fit_frame. now rewrite Hout. }
  assert (Hfigs : figures t_ppf pearson_p data = figures t_ppf pearson_p data').
  { unfold figures. apply flat_map_ext. intros m. apply map_ext. intros g.
    now rewrite Hrecs. }
  assert (Hdraw : forall turns,
            draw t_ppf pearson_p data turns = draw t_ppf pearson_p data' turns).
  { induction turns as [|[m g] rest IH]; [reflexivity|].
    cbn [draw]. rewrite IH, Hrecs.
    replace (existsb (raises t_ppf pearson_p data m) (snd g))
      with (existsb (raises t_ppf pearson_p data' m) (snd g)); [reflexivity|].
    induction (snd g) as [|r t IHt]; [reflexivity|].
    cbn [existsb]. now rewrite IHt, Hraises. }
  unfold run. rewrite <- Hempty.
  destruct (empty (all_data temp_df folders)); [reflexivity|].
  cbv zeta. fold data data'. now rewrite Hdraw, Hfigs.
Qed.

Lemma run_order_independent_witness :
  Permutation two_cases (rev two_cases)
  /\ run t_ppf_sample pearson_p_sample two_temps two_cases
     = run t_ppf_sample pearson_p_sample two_temps (rev two_cases).
Proof.
  assert (Hp : Permutation two_cases (rev two_cases)) by apply Permutation_rev.
  split; [exact Hp|].
  apply (run_order_independent t_ppf_sample pearson_p_sample two_temps
           two_cases (rev two_cases) Hp).
  intros df df' _. reflexivity.
Defined.

(** * The sample of two cases, in exact arithmetic and in doubles *)












